(** * AgoraX Video: signaling server and WebRTC client

    A shallow embedding of [src/server.ts] (the Socket.IO signaling server
    with its [/ice.json] endpoint) and of [src/client/app.ts] (the browser
    client that keeps one [RTCPeerConnection] per remote peer), followed by
    the properties of the room router, of the connection registry and of the
    negotiation handlers.

    Socket.IO and the browser are not part of the repository.  They are
    modelled at their documented interface: the in-memory adapter with its
    two maps of insertion-ordered sets, the private room every socket joins
    under its own identifier, [socket.to(room)] that leaves out every socket
    of the sender's private room and [io.to(room)] that leaves out nobody.  An [async] handler of the client is a
    program that suspends at each [await]; the browser settles the awaited
    call, fulfilling or rejecting it, and the handler goes on.  [run] takes
    a handler to its end in one go, the event loop [step] lets the handlers
    interleave at their [await]s. *)

From stdpp Require Import gmap strings list fin_maps.

Set Warnings "-clear-no-such-hyp".

Open Scope string_scope.
Open Scope list_scope.
Open Scope nat_scope.

(** JavaScript truthiness of a value that is a string or [undefined]. *)
Definition truthy (v : option string) : bool :=
  match v with
  | Some s => negb (String.eqb s "")
  | None => false
  end.

(** A JavaScript [Set]: no duplicates, iterated in insertion order. *)
Definition set_add (x : string) (l : list string) : list string :=
  if bool_decide (x ∈ l) then l else l ++ [x].

Definition set_delete (x : string) (l : list string) : list string :=
  filter (λ y, y ≠ x) l.

(** ** ICE configuration and signaling payloads *)

Inductive Urls :=
| UrlOne (u : string)
| UrlList (us : list string).

Record IceServer := {
  urls : Urls;
  username : option string;
  credential : option string
}.

(** The [data] object of a [signal] message: [{type, sdp?, candidate?, to?}]. *)
Record SignalData := {
  type : string;
  sdp : option string;
  candidate : option string;
  to : option string
}.

(** Server to client messages. *)
Inductive ServerMsg :=
| PeerJoined (peerId : string)
| Signal (from : string) (data : SignalData)
| PeerLeft (peerId : string).

(** Client to server messages. *)
Inductive ClientMsg :=
| JoinRoom (roomId : string)
| SignalTo (roomId : option string) (data : SignalData).

#[global] Instance Urls_eq_dec : EqDecision Urls.
Proof. solve_decision. Defined.
#[global] Instance IceServer_eq_dec : EqDecision IceServer.
Proof. solve_decision. Defined.
#[global] Instance SignalData_eq_dec : EqDecision SignalData.
Proof. solve_decision. Defined.
#[global] Instance ServerMsg_eq_dec : EqDecision ServerMsg.
Proof. solve_decision. Defined.
#[global] Instance ClientMsg_eq_dec : EqDecision ClientMsg.
Proof. solve_decision. Defined.

(** ** Socket.IO: the in-memory adapter *)

Module SocketIO.

(** [rooms : Map<Room, Set<SocketId>>] and [sids : Map<SocketId, Set<Room>>]. *)
Record Adapter := {
  rooms : gmap string (list string);
  sids : gmap string (list string)
}.

(** One message put on the channel of one connected socket. *)
Definition Delivery : Type := string * ServerMsg.

(** Handlers run in a state monad over the adapter that also collects,
    in order, the messages they send. *)
Definition Srv (A : Type) : Type := Adapter → A * Adapter * list Delivery.

#[global] Instance Srv_ret : MRet Srv := λ A x a, (x, a, []).

#[global] Instance Srv_bind : MBind Srv := λ A B f m a,
  let '(x, a1, out1) := m a in
  let '(y, a2, out2) := f x a1 in
  (y, a2, out1 ++ out2).

Fixpoint forEach {A} (l : list A) (f : A → Srv unit) : Srv unit :=
  match l with
  | [] => mret tt
  | x :: l' => f x ;; forEach l' f
  end.

Definition empty : Adapter := {| rooms := ∅; sids := ∅ |}.

(** [adapter.rooms.get(room)] *)
Definition rooms_get (room : string) : Srv (option (list string)) :=
  λ a, (rooms a !! room, a, []).

(** The set stored under a key; a key that is not in the map has none. *)
Definition members_of (rs : gmap string (list string)) (r : string) : list string :=
  default [] (rs !! r).

(** The members of a room. *)
Definition room_members (a : Adapter) (room : string) : list string :=
  members_of (rooms a) room.

(** [socket.rooms] *)
Definition socket_rooms (a : Adapter) (id : string) : list string :=
  members_of (sids a) id.

Definition get_socket_rooms (id : string) : Srv (list string) :=
  λ a, (socket_rooms a id, a, []).

(** [adapter.addAll(id, {room})] *)
Definition addAll (id room : string) (a : Adapter) : Adapter :=
  {| rooms := <[room := set_add id (room_members a room)]> (rooms a);
     sids := <[id := set_add room (socket_rooms a id)]> (sids a) |}.

(** [adapter.del(id, room)]: a room left empty is deleted. *)
Definition del_room (id room : string) (rs : gmap string (list string))
  : gmap string (list string) :=
  match rs !! room with
  | Some members =>
      match set_delete id members with
      | [] => delete room rs
      | rest => <[room := rest]> rs
      end
  | None => rs
  end.

(** [adapter.delAll(id)] *)
Definition delAll (id : string) (a : Adapter) : Adapter :=
  {| rooms := foldr (del_room id) (rooms a) (socket_rooms a id);
     sids := delete id (sids a) |}.

(** [socket.join(room)] *)
Definition socket_join (id room : string) : Srv unit :=
  λ a, (tt, addAll id room a, []).

(** [socket.emit(msg)]: to the socket itself. *)
Definition socket_emit (id : string) (msg : ServerMsg) : Srv unit :=
  λ a, (tt, a, [(id, msg)]).

(** [socket.to(room).emit(msg)]: the broadcast operator of a socket is
    built with the room named by the socket's identifier as its one
    except-room, and the adapter skips every socket that is in an
    except-room.  So the message goes to the sockets in [room] that are
    not in the room [id]: not to the sender, which is in its private room
    as long as it is connected, and not to a socket that has joined that
    room either. *)
Definition socket_to_emit (id room : string) (msg : ServerMsg) : Srv unit :=
  λ a, (tt, a, (λ m, (m, msg)) <$>
                 filter (λ m, m ∉ room_members a id) (room_members a room)).

(** [io.to(room).emit(msg)]: every socket in [room]. *)
Definition io_to_emit (room : string) (msg : ServerMsg) : Srv unit :=
  λ a, (tt, a, (λ m, (m, msg)) <$> room_members a room).

(** A new connection: the socket joins the room named by its own id. *)
Definition connect (id : string) : Srv unit := socket_join id id.

(** After the [disconnecting] handlers, the socket leaves all its rooms. *)
Definition leaveAll (id : string) : Srv unit :=
  λ a, (tt, delAll id a, []).

End SocketIO.

(** ** [src/server.ts] *)

Module Server.
Import SocketIO.

(** [process.env], the four variables [/ice.json] reads. *)
Record Env := {
  STUN_URL : option string;
  TURN_URL : option string;
  TURN_USERNAME : option string;
  TURN_PASSWORD : option string
}.

Definition fallback_user : string := "a78e90d33f695bcbf13ee7b9".
Definition fallback_credential : string := "+M16OuXBI+HyxP4i".

Definition fallback_servers : list IceServer :=
  [ {| urls := UrlOne "stun:stun.relay.metered.ca:80";
       username := None; credential := None |};
    {| urls := UrlOne "turn:global.relay.metered.ca:80";
       username := Some fallback_user; credential := Some fallback_credential |};
    {| urls := UrlOne "turn:global.relay.metered.ca:80?transport=tcp";
       username := Some fallback_user; credential := Some fallback_credential |};
    {| urls := UrlOne "turn:global.relay.metered.ca:443";
       username := Some fallback_user; credential := Some fallback_credential |};
    {| urls := UrlOne "turns:global.relay.metered.ca:443?transport=tcp";
       username := Some fallback_user; credential := Some fallback_credential |} ].

(** [app.get('/ice.json', ...)]: the [iceServers] field of the response. *)
Definition ice_json (env : Env) : list IceServer :=
  let stunUrl := STUN_URL env in
  let turnUrl := TURN_URL env in
  let turnUser := TURN_USERNAME env in
  let turnPass := TURN_PASSWORD env in
  let iceServers := [] in
  let iceServers :=
    if truthy stunUrl
    then iceServers ++ [ {| urls := UrlList [default "" stunUrl];
                            username := None; credential := None |} ]
    else iceServers in
  let iceServers :=
    if truthy turnUrl && truthy turnUser && truthy turnPass
    then iceServers ++ [ {| urls := UrlList [default "" turnUrl];
                            username := turnUser; credential := turnPass |} ]
    else iceServers in
  let iceServers :=
    if Nat.eqb (length iceServers) 0
    then iceServers ++ fallback_servers
    else iceServers in
  iceServers.

(** [socket.on('join', roomId => ...)] *)
Definition on_join (socket roomId : string) : Srv unit :=
  socketsInRoom ← rooms_get roomId;
  match socketsInRoom with
  | Some members =>
      forEach members (λ existingSocketId,
        if bool_decide (existingSocketId ≠ socket)
        then socket_emit socket (PeerJoined existingSocketId)
        else mret tt)
  | None => mret tt
  end;;
  socket_join socket roomId;;
  socket_to_emit socket roomId (PeerJoined socket).

(** [socket.on('signal', ({roomId, data}) => ...)] *)
Definition on_signal (socket roomId : string) (data : SignalData) : Srv unit :=
  let target := to data in
  if truthy target
  then io_to_emit (default "" target) (Signal socket data)
  else socket_to_emit socket roomId (Signal socket data).

(** [socket.on('disconnecting', () => ...)] *)
Definition on_disconnecting (socket : string) : Srv unit :=
  all ← get_socket_rooms socket;
  let rooms := filter (λ r, r ≠ socket) all in
  forEach rooms (λ roomId, socket_to_emit socket roomId (PeerLeft socket)).

(** A disconnection, graceful or not: Socket.IO runs the [disconnecting]
    handler and then takes the socket out of every room. *)
Definition disconnect (socket : string) : Srv unit :=
  on_disconnecting socket;; leaveAll socket.

(** What a connected client can make the server do. *)
Inductive Request :=
| Connect (id : string)
| JoinReq (id roomId : string)
| SignalReq (id roomId : string) (data : SignalData)
| Disconnect (id : string).

Definition handle (r : Request) : Srv unit :=
  match r with
  | Connect id => connect id
  | JoinReq id roomId => on_join id roomId
  | SignalReq id roomId data => on_signal id roomId data
  | Disconnect id => disconnect id
  end.

Definition run (reqs : list Request) : Srv unit := forEach reqs handle.

(** The adapter and the messages sent after a sequence of requests. *)
Definition state_after (reqs : list Request) : Adapter :=
  (run reqs SocketIO.empty).1.2.

Definition deliveries (m : Srv unit) (a : Adapter) : list Delivery := (m a).2.

Definition state_of (m : Srv unit) (a : Adapter) : Adapter := (m a).1.2.

(** The adapter keeps its two maps in step, and its sets have no duplicates. *)
Record wf (a : Adapter) : Prop := {
  wf_rooms_NoDup : ∀ r l, rooms a !! r = Some l → NoDup l;
  wf_sids_NoDup : ∀ c l, sids a !! c = Some l → NoDup l;
  wf_consistent : ∀ r c, c ∈ room_members a r ↔ r ∈ socket_rooms a c
}.

(** The rooms, other than the private room of [c], that [c] and [m] are both in. *)
Definition shared_rooms (a : Adapter) (c m : string) : list string :=
  filter (λ r, m ∈ room_members a r) (filter (λ r, r ≠ c) (socket_rooms a c)).

(** How many copies of [msg] a handler puts on the channel of [id]. *)
Definition received (id : string) (msg : ServerMsg) (out : list Delivery) : nat :=
  length (filter (λ d, d = (id, msg)) out).

End Server.

(** ** [src/client/app.ts] *)

Module Client.

(** *** The browser objects the client holds *)

Inductive TrackKind := AudioTrack | VideoTrack.

Record MediaStreamTrack := {
  track_id : nat;
  kind : TrackKind;
  enabled : bool
}.

Record MediaStream := {
  stream_id : string;
  tracks : list MediaStreamTrack
}.

(** [RTCSessionDescriptionInit] *)
Record Desc := {
  desc_type : string;
  desc_sdp : option string
}.

(** The two listeners [createPeerConnection] installs; each closes over
    the [peerId] the connection was created for. *)
Inductive Listener :=
| TrackListener (peerId : string)
| IceCandidateListener (peerId : string).

(** What the client can see of an [RTCPeerConnection].  Connections are
    objects: they live in a heap and are named by their index in it. *)
Record RTCPeerConnection := {
  configuration : list IceServer;
  closed : bool;
  senders : list nat;
  listeners : list Listener
}.

(** The [section] that wraps a remote video, with the text of its title. *)
Record VideoWrapper := {
  element_id : nat;
  title : string
}.

(** A remote [video] element: the wrapper it sits in and the identifier
    of the stream it plays. *)
Record HTMLVideoElement := {
  parentElement : nat;
  srcObject : option string
}.

(** The calls that return a promise. *)
Inductive Op :=
| GetUserMedia
| CreateOffer (pc : nat)
| CreateAnswer (pc : nat)
| SetLocalDescription (pc : nat) (d : Desc)
| SetRemoteDescription (pc : nat) (d : Desc)
| AddIceCandidate (pc : nat) (c : option string).

Definition result (op : Op) : Type :=
  match op with
  | GetUserMedia => MediaStream
  | CreateOffer _ | CreateAnswer _ => Desc
  | SetLocalDescription _ _ | SetRemoteDescription _ _ | AddIceCandidate _ _ => unit
  end.

Inductive Outcome (A : Type) :=
| Fulfilled (a : A)
| Rejected.
Arguments Fulfilled {A} a.
Arguments Rejected {A}.

Definition is_fulfilled {A} (o : Outcome A) : bool :=
  match o with Fulfilled _ => true | Rejected => false end.

(** The browser settles every awaited call, one way or the other. *)
Definition Browser : Type := ∀ op : Op, Outcome (result op).

(** What the client does that can be seen from outside, in order. *)
Inductive Effect :=
| Constructed (pc : nat)
| Closed (pc : nat)
| Awaited (op : Op) (fulfilled : bool)
| Emitted (msg : ClientMsg)
| Alerted (text : string).

(** *** The module-level variables, the page and the heap *)

Record Client := {
  iceServers : list IceServer;
  localStream : option MediaStream;
  localVideo_srcObject : option string;
  heap : list RTCPeerConnection;
  peerConnections : gmap string nat;
  remoteVideos : gmap string HTMLVideoElement;
  remoteContainer : list VideoWrapper;
  nextElement : nat;
  roomId : option string;
  camEnabled : bool;
  toggleCamBtn_textContent : option string;
  trace : list Effect
}.

Definition init : Client := {|
  iceServers := [];
  localStream := None;
  localVideo_srcObject := None;
  heap := [];
  peerConnections := ∅;
  remoteVideos := ∅;
  remoteContainer := [];
  nextElement := 0;
  roomId := None;
  camEnabled := true;
  toggleCamBtn_textContent := None;
  trace := []
|}.

Definition set_iceServers (v : list IceServer) (s : Client) : Client :=
  {| iceServers := v; localStream := localStream s;
     localVideo_srcObject := localVideo_srcObject s; heap := heap s;
     peerConnections := peerConnections s; remoteVideos := remoteVideos s;
     remoteContainer := remoteContainer s; nextElement := nextElement s;
     roomId := roomId s; camEnabled := camEnabled s;
     toggleCamBtn_textContent := toggleCamBtn_textContent s; trace := trace s |}.

Definition set_localStream (v : option MediaStream) (s : Client) : Client :=
  {| iceServers := iceServers s; localStream := v;
     localVideo_srcObject := localVideo_srcObject s; heap := heap s;
     peerConnections := peerConnections s; remoteVideos := remoteVideos s;
     remoteContainer := remoteContainer s; nextElement := nextElement s;
     roomId := roomId s; camEnabled := camEnabled s;
     toggleCamBtn_textContent := toggleCamBtn_textContent s; trace := trace s |}.

Definition set_localVideo_srcObject (v : option string) (s : Client) : Client :=
  {| iceServers := iceServers s; localStream := localStream s;
     localVideo_srcObject := v; heap := heap s;
     peerConnections := peerConnections s; remoteVideos := remoteVideos s;
     remoteContainer := remoteContainer s; nextElement := nextElement s;
     roomId := roomId s; camEnabled := camEnabled s;
     toggleCamBtn_textContent := toggleCamBtn_textContent s; trace := trace s |}.

Definition set_heap (v : list RTCPeerConnection) (s : Client) : Client :=
  {| iceServers := iceServers s; localStream := localStream s;
     localVideo_srcObject := localVideo_srcObject s; heap := v;
     peerConnections := peerConnections s; remoteVideos := remoteVideos s;
     remoteContainer := remoteContainer s; nextElement := nextElement s;
     roomId := roomId s; camEnabled := camEnabled s;
     toggleCamBtn_textContent := toggleCamBtn_textContent s; trace := trace s |}.

Definition set_peerConnections (v : gmap string nat) (s : Client) : Client :=
  {| iceServers := iceServers s; localStream := localStream s;
     localVideo_srcObject := localVideo_srcObject s; heap := heap s;
     peerConnections := v; remoteVideos := remoteVideos s;
     remoteContainer := remoteContainer s; nextElement := nextElement s;
     roomId := roomId s; camEnabled := camEnabled s;
     toggleCamBtn_textContent := toggleCamBtn_textContent s; trace := trace s |}.

Definition set_remoteVideos (v : gmap string HTMLVideoElement) (s : Client) : Client :=
  {| iceServers := iceServers s; localStream := localStream s;
     localVideo_srcObject := localVideo_srcObject s; heap := heap s;
     peerConnections := peerConnections s; remoteVideos := v;
     remoteContainer := remoteContainer s; nextElement := nextElement s;
     roomId := roomId s; camEnabled := camEnabled s;
     toggleCamBtn_textContent := toggleCamBtn_textContent s; trace := trace s |}.

Definition set_remoteContainer (v : list VideoWrapper) (s : Client) : Client :=
  {| iceServers := iceServers s; localStream := localStream s;
     localVideo_srcObject := localVideo_srcObject s; heap := heap s;
     peerConnections := peerConnections s; remoteVideos := remoteVideos s;
     remoteContainer := v; nextElement := nextElement s;
     roomId := roomId s; camEnabled := camEnabled s;
     toggleCamBtn_textContent := toggleCamBtn_textContent s; trace := trace s |}.

Definition set_nextElement (v : nat) (s : Client) : Client :=
  {| iceServers := iceServers s; localStream := localStream s;
     localVideo_srcObject := localVideo_srcObject s; heap := heap s;
     peerConnections := peerConnections s; remoteVideos := remoteVideos s;
     remoteContainer := remoteContainer s; nextElement := v;
     roomId := roomId s; camEnabled := camEnabled s;
     toggleCamBtn_textContent := toggleCamBtn_textContent s; trace := trace s |}.

Definition set_roomId (v : option string) (s : Client) : Client :=
  {| iceServers := iceServers s; localStream := localStream s;
     localVideo_srcObject := localVideo_srcObject s; heap := heap s;
     peerConnections := peerConnections s; remoteVideos := remoteVideos s;
     remoteContainer := remoteContainer s; nextElement := nextElement s;
     roomId := v; camEnabled := camEnabled s;
     toggleCamBtn_textContent := toggleCamBtn_textContent s; trace := trace s |}.

Definition set_camEnabled (v : bool) (s : Client) : Client :=
  {| iceServers := iceServers s; localStream := localStream s;
     localVideo_srcObject := localVideo_srcObject s; heap := heap s;
     peerConnections := peerConnections s; remoteVideos := remoteVideos s;
     remoteContainer := remoteContainer s; nextElement := nextElement s;
     roomId := roomId s; camEnabled := v;
     toggleCamBtn_textContent := toggleCamBtn_textContent s; trace := trace s |}.

Definition set_toggleCamBtn_textContent (v : option string) (s : Client) : Client :=
  {| iceServers := iceServers s; localStream := localStream s;
     localVideo_srcObject := localVideo_srcObject s; heap := heap s;
     peerConnections := peerConnections s; remoteVideos := remoteVideos s;
     remoteContainer := remoteContainer s; nextElement := nextElement s;
     roomId := roomId s; camEnabled := camEnabled s;
     toggleCamBtn_textContent := v; trace := trace s |}.

Definition set_trace (v : list Effect) (s : Client) : Client :=
  {| iceServers := iceServers s; localStream := localStream s;
     localVideo_srcObject := localVideo_srcObject s; heap := heap s;
     peerConnections := peerConnections s; remoteVideos := remoteVideos s;
     remoteContainer := remoteContainer s; nextElement := nextElement s;
     roomId := roomId s; camEnabled := camEnabled s;
     toggleCamBtn_textContent := toggleCamBtn_textContent s; trace := v |}.

(** The messages put on the socket so far, oldest first. *)
Definition sent (s : Client) : list ClientMsg :=
  omap (λ e, match e with Emitted msg => Some msg | _ => None end) (trace s).

(** *** Synchronous code: a state monad over the client *)

Definition Sync (A : Type) : Type := Client → A * Client.

#[global] Instance Sync_ret : MRet Sync := λ A x s, (x, s).

#[global] Instance Sync_bind : MBind Sync := λ A B f m s,
  let '(x, s1) := m s in f x s1.

Definition gets {A} (f : Client → A) : Sync A := λ s, (f s, s).

Definition modify (f : Client → Client) : Sync unit := λ s, (tt, f s).

Fixpoint forEach {A} (l : list A) (f : A → Sync unit) : Sync unit :=
  match l with
  | [] => mret tt
  | x :: l' => f x;; forEach l' f
  end.

Definition log (e : Effect) : Sync unit :=
  modify (λ s, set_trace (trace s ++ [e]) s).

(** [socket.emit(...)] *)
Definition socket_emit (msg : ClientMsg) : Sync unit := log (Emitted msg).

(** [alert(...)] *)
Definition alert (text : string) : Sync unit := log (Alerted text).

(** A method call that changes the connection object [pc]. *)
Definition update_pc (pc : nat) (f : RTCPeerConnection → RTCPeerConnection)
  : Sync unit :=
  modify (λ s, set_heap (alter f pc (heap s)) s).

(** [new RTCPeerConnection({ iceServers })] *)
Definition new_RTCPeerConnection : Sync nat :=
  λ s,
    let pc := length (heap s) in
    let object := {| configuration := iceServers s; closed := false;
                     senders := []; listeners := [] |} in
    (pc, set_trace (trace s ++ [Constructed pc]) (set_heap (heap s ++ [object]) s)).

(** [pc.addTrack(track, localStream)] *)
Definition addTrack (pc : nat) (track : MediaStreamTrack) : Sync unit :=
  update_pc pc (λ c, {| configuration := configuration c; closed := closed c;
                        senders := senders c ++ [track_id track];
                        listeners := listeners c |}).

(** [pc.addEventListener(...)] *)
Definition addEventListener (pc : nat) (l : Listener) : Sync unit :=
  update_pc pc (λ c, {| configuration := configuration c; closed := closed c;
                        senders := senders c;
                        listeners := listeners c ++ [l] |}).

(** [pc.close()] *)
Definition pc_close (pc : nat) : Sync unit :=
  update_pc pc (λ c, {| configuration := configuration c; closed := true;
                        senders := senders c; listeners := listeners c |});;
  log (Closed pc).

(** [createPeerConnection(peerId)] *)
Definition createPeerConnection (peerId : string) : Sync nat :=
  registered ← gets (λ s, peerConnections s !! peerId);
  match registered with
  | Some pc => mret pc
  | None =>
      pc ← new_RTCPeerConnection;
      modify (λ s, set_peerConnections (<[peerId := pc]> (peerConnections s)) s);;
      stream ← gets localStream;
      match stream with
      | None => mret pc
      | Some localStream =>
          forEach (tracks localStream) (λ track, addTrack pc track);;
          addEventListener pc (TrackListener peerId);;
          addEventListener pc (IceCandidateListener peerId);;
          mret pc
      end
  end.

(** [`Peer ${peerId.slice(0, 6)}`] *)
Definition peer_title (peerId : string) : string :=
  "Peer " +:+ String.substring 0 6 peerId.

(** The body of the [track] listener. *)
Definition on_track (peerId : string) (streams : list string) : Sync unit :=
  let stream := head streams in
  known ← gets (λ s, remoteVideos s !! peerId);
  match known with
  | Some _ => mret tt
  | None =>
      modify (λ s,
        let videoWrapper := {| element_id := nextElement s;
                               title := peer_title peerId |} in
        let video := {| parentElement := nextElement s; srcObject := None |} in
        set_remoteVideos (<[peerId := video]> (remoteVideos s))
          (set_remoteContainer (remoteContainer s ++ [videoWrapper])
             (set_nextElement (S (nextElement s)) s)))
  end;;
  modify (λ s,
    set_remoteVideos
      (alter (λ video, {| parentElement := parentElement video;
                          srcObject := stream |}) peerId (remoteVideos s)) s).

(** The body of the [icecandidate] listener. *)
Definition on_icecandidate (peerId : string) (candidate : option string)
  : Sync unit :=
  room ← gets roomId;
  if bool_decide (is_Some candidate) && truthy room
  then socket_emit (SignalTo room {| type := "candidate"; sdp := None;
                                     candidate := candidate; to := Some peerId |})
  else mret tt.

(** [socket.on('peer-left', peerId => ...)] *)
Definition on_peer_left (peerId : string) : Sync unit :=
  pc ← gets (λ s, peerConnections s !! peerId);
  match pc with
  | Some pc =>
      pc_close pc;;
      modify (λ s, set_peerConnections (delete peerId (peerConnections s)) s)
  | None => mret tt
  end;;
  video ← gets (λ s, remoteVideos s !! peerId);
  match video with
  | Some video =>
      modify (λ s,
        set_remoteContainer
          (filter (λ w, element_id w ≠ parentElement video) (remoteContainer s)) s);;
      modify (λ s, set_remoteVideos (delete peerId (remoteVideos s)) s)
  | None => mret tt
  end.

(** [localStream.getVideoTracks()[0]], and the write to its [enabled]. *)
Fixpoint set_first_video (v : bool) (l : list MediaStreamTrack)
  : option (list MediaStreamTrack) :=
  match l with
  | [] => None
  | t :: l' =>
      match kind t with
      | VideoTrack =>
          Some ({| track_id := track_id t; kind := kind t; enabled := v |} :: l')
      | AudioTrack => cons t <$> set_first_video v l'
      end
  end.

(** [toggleCamBtn.addEventListener('click', ...)] *)
Definition on_toggle_cam : Sync unit :=
  stream ← gets localStream;
  match stream with
  | None => mret tt
  | Some stream =>
      cam ← gets camEnabled;
      match set_first_video (negb cam) (tracks stream) with
      | None => mret tt
      | Some tracks' =>
          modify (set_camEnabled (negb cam));;
          modify (set_localStream
                    (Some {| stream_id := stream_id stream; tracks := tracks' |}));;
          modify (set_toggleCamBtn_textContent
                    (Some (if negb cam then "Apagar cámara" else "Encender cámara")))
      end
  end.

(** The [then] of [fetch('/ice.json')]: [servers] is [cfg.iceServers] when
    the response carries an array there. *)
Definition on_ice_config (servers : option (list IceServer)) : Sync unit :=
  match servers with
  | Some l => modify (λ s, set_iceServers (iceServers s ++ l) s)
  | None => mret tt
  end.

(** [String.prototype.trim].  A string is held as the bytes of its UTF-8
    encoding.  The code points [trim] strips from both ends are the
    WhiteSpace and the LineTerminator code points of ECMAScript: the six
    ASCII ones, the no-break space, the other space separators of Unicode,
    the line and the paragraph separator and the byte order mark. *)
Definition white_space_code_points : list N :=
  [ 0x0009; 0x000A; 0x000B; 0x000C; 0x000D; 0x0020; 0x00A0; 0x1680;
    0x2000; 0x2001; 0x2002; 0x2003; 0x2004; 0x2005; 0x2006; 0x2007;
    0x2008; 0x2009; 0x200A; 0x2028; 0x2029; 0x202F; 0x205F; 0x3000;
    0xFEFF ]%N.

(** The UTF-8 encoding of a code point below U+10000. *)
Definition utf8 (cp : N) : string :=
  if (cp <? 0x80)%N then String (Ascii.ascii_of_N cp) ""
  else if (cp <? 0x800)%N then
    String (Ascii.ascii_of_N (0xC0 + cp / 0x40))
      (String (Ascii.ascii_of_N (0x80 + cp mod 0x40)) "")
  else
    String (Ascii.ascii_of_N (0xE0 + cp / 0x1000))
      (String (Ascii.ascii_of_N (0x80 + (cp / 0x40) mod 0x40))
         (String (Ascii.ascii_of_N (0x80 + cp mod 0x40)) "")).

Definition white_space : list string := utf8 <$> white_space_code_points.

(** [s] without the prefix [p], when it starts with [p]. *)
Fixpoint without_prefix (p s : string) : option string :=
  match p, s with
  | EmptyString, _ => Some s
  | String c p', String d s' =>
      if Ascii.eqb c d then without_prefix p' s' else None
  | String _ _, EmptyString => None
  end.

(** [s] without the first of the sequences [ws] it starts with. *)
Fixpoint strip_one (ws : list string) (s : string) : option string :=
  match ws with
  | [] => None
  | w :: ws' =>
      match without_prefix w s with
      | Some rest => Some rest
      | None => strip_one ws' s
      end
  end.

(** Sequences of [ws] are taken off the start of [s] as long as there is
    one, at most [fuel] times. *)
Fixpoint strip_all (ws : list string) (fuel : nat) (s : string) : string :=
  match fuel with
  | 0 => s
  | S fuel' =>
      match strip_one ws s with
      | Some rest => strip_all ws fuel' rest
      | None => s
      end
  end.

Definition trim_start (s : string) : string :=
  strip_all white_space (String.length s) s.

Definition trim_end (s : string) : string :=
  String.rev (strip_all (String.rev <$> white_space) (String.length s) (String.rev s)).

Definition trim (s : string) : string := trim_end (trim_start s).
Arguments trim : simpl never.

(** *** Asynchronous code: programs that suspend at each [await] *)

Inductive Prog (A : Type) : Type :=
| Ret (a : A)
| Throw
| Do {X : Type} (m : Sync X) (k : X → Prog A)
| Await (op : Op) (k : Outcome (result op) → Prog A).
Arguments Ret {A} a.
Arguments Throw {A}.
Arguments Do {A X} m k.
Arguments Await {A} op k.

Fixpoint Prog_then {A B} (f : A → Prog B) (p : Prog A) : Prog B :=
  match p with
  | Ret a => f a
  | Throw => Throw
  | Do m k => Do m (λ x, Prog_then f (k x))
  | Await op k => Await op (λ o, Prog_then f (k o))
  end.

#[global] Instance Prog_ret : MRet Prog := λ A x, Ret x.
#[global] Instance Prog_bind : MBind Prog := λ A B f p, Prog_then f p.

(** Synchronous code inside an [async] function. *)
Definition sync {A} (m : Sync A) : Prog A := Do m Ret.

(** [await op]: a rejection is thrown. *)
Definition await (op : Op) : Prog (result op) :=
  Await op (λ o, match o with Fulfilled x => Ret x | Rejected => Throw end).

(** [try { p } catch { }] *)
Fixpoint try_catch (p : Prog unit) : Prog unit :=
  match p with
  | Ret a => Ret a
  | Throw => Ret tt
  | Do m k => Do m (λ x, try_catch (k x))
  | Await op k => Await op (λ o, try_catch (k o))
  end.

(** [initMedia()] *)
Definition initMedia : Prog unit :=
  stream ← await GetUserMedia;
  sync (modify (set_localStream (Some stream)));;
  sync (modify (set_localVideo_srcObject (Some (stream_id stream)))).

(** [makeCall(peerId)] *)
Definition makeCall (peerId : string) : Prog unit :=
  pc ← sync (createPeerConnection peerId);
  offer ← await (CreateOffer pc);
  await (SetLocalDescription pc offer);;
  room ← sync (gets roomId);
  sync (socket_emit (SignalTo room {| type := "offer"; sdp := desc_sdp offer;
                                      candidate := None; to := Some peerId |})).

(** [handleOffer(from, sdp)] *)
Definition handleOffer (from : string) (sdp : option string) : Prog unit :=
  pc ← sync (createPeerConnection from);
  await (SetRemoteDescription pc {| desc_type := "offer"; desc_sdp := sdp |});;
  answer ← await (CreateAnswer pc);
  await (SetLocalDescription pc answer);;
  room ← sync (gets roomId);
  sync (socket_emit (SignalTo room {| type := "answer"; sdp := desc_sdp answer;
                                      candidate := None; to := Some from |})).

(** [handleAnswer(from, sdp)] *)
Definition handleAnswer (from : string) (sdp : option string) : Prog unit :=
  pc ← sync (gets (λ s, peerConnections s !! from));
  match pc with
  | None => mret tt
  | Some pc =>
      await (SetRemoteDescription pc {| desc_type := "answer"; desc_sdp := sdp |})
  end.

(** [handleCandidate(from, candidate)] *)
Definition handleCandidate (from : string) (candidate : option string) : Prog unit :=
  pc ← sync (gets (λ s, peerConnections s !! from));
  match pc with
  | None => mret tt
  | Some pc => try_catch (await (AddIceCandidate pc candidate))
  end.

(** [joinBtn.addEventListener('click', async () => ...)] *)
Definition on_join_click (value : string) : Prog unit :=
  sync (modify (set_roomId (Some (trim value))));;
  room ← sync (gets roomId);
  if negb (truthy room)
  then sync (alert "Ingresa un ID de sala")
  else
    initMedia;;
    room ← sync (gets roomId);
    sync (socket_emit (JoinRoom (default "" room))).

(** [socket.on('peer-joined', async peerId => ...)] *)
Definition on_peer_joined (peerId : string) : Prog unit := makeCall peerId.

(** [socket.on('signal', async ({ from, data }) => ...)] *)
Definition on_signal (from : string) (data : SignalData) : Prog unit :=
  if String.eqb (type data) "offer" then handleOffer from (sdp data)
  else if String.eqb (type data) "answer" then handleAnswer from (sdp data)
  else if String.eqb (type data) "candidate" then handleCandidate from (candidate data)
  else mret tt.

(** *** Running the client *)

Inductive Completion (A : Type) :=
| Returned (a : A)
| Threw.
Arguments Returned {A} a.
Arguments Threw {A}.

(** A handler runs to its end; each [await] is logged and settled by the
    browser. *)
Fixpoint run {A} (browser : Browser) (p : Prog A) (s : Client)
  : Completion A * Client :=
  match p with
  | Ret a => (Returned a, s)
  | Throw => (Threw, s)
  | Do m k => let '(x, s1) := m s in run browser (k x) s1
  | Await op k =>
      let o := browser op in
      run browser (k o) (set_trace (trace s ++ [Awaited op (is_fulfilled o)]) s)
  end.

(** What can happen to the client. *)
Inductive Event :=
| IceConfig (servers : option (list IceServer))
| ClickJoin (value : string)
| ClickToggleCam
| FromServer (msg : ServerMsg)
| TrackEvent (pc : nat) (streams : list string)
| IceCandidateEvent (pc : nat) (candidate : option string).

(** The browser fires an event on a connection: its listeners run, in the
    order they were added.  A closed connection fires nothing. *)
Definition fire (pc : nat) (body : Listener → Sync unit) : Sync unit :=
  object ← gets (λ s, heap s !! pc);
  match object with
  | Some c => if closed c then mret tt else forEach (listeners c) body
  | None => mret tt
  end.

(** The [track] and the [icecandidate] event of a connection. *)
Definition on_track_event (pc : nat) (streams : list string) : Sync unit :=
  fire pc (λ l, match l with
                | TrackListener peerId => on_track peerId streams
                | IceCandidateListener _ => mret tt
                end).

Definition on_icecandidate_event (pc : nat) (candidate : option string)
  : Sync unit :=
  fire pc (λ l, match l with
                | IceCandidateListener peerId => on_icecandidate peerId candidate
                | TrackListener _ => mret tt
                end).

(** The handler an event starts. *)
Definition handler (ev : Event) : Prog unit :=
  match ev with
  | IceConfig servers => sync (on_ice_config servers)
  | ClickJoin value => on_join_click value
  | ClickToggleCam => sync on_toggle_cam
  | FromServer (PeerJoined peerId) => on_peer_joined peerId
  | FromServer (Signal from data) => on_signal from data
  | FromServer (PeerLeft peerId) => sync (on_peer_left peerId)
  | TrackEvent pc streams => sync (on_track_event pc streams)
  | IceCandidateEvent pc candidate => sync (on_icecandidate_event pc candidate)
  end.

(** The handler of an event, run to its end without interruption. *)
Definition handle (browser : Browser) (ev : Event) (s : Client) : Client :=
  (run browser (handler ev) s).2.

(** *** The event loop *)

(** A handler suspended at an [await]: the call it waits for and what it
    does with the outcome. *)
Record Task := {
  awaited : Op;
  resume : Outcome (result awaited) → Prog unit
}.

Record Loop := {
  client : Client;
  pending : list Task
}.

Definition start : Loop := {| client := init; pending := [] |}.

(** A program runs until it ends or reaches an [await]. *)
Fixpoint advance (p : Prog unit) (s : Client) : Client * option Task :=
  match p with
  | Ret _ | Throw => (s, None)
  | Do m k => let '(x, s1) := m s in advance (k x) s1
  | Await op k => (s, Some {| awaited := op; resume := k |})
  end.

Definition spawn (p : Prog unit) (s : Client) (others : list Task) : Loop :=
  {| client := (advance p s).1;
     pending := others ++ option_list (advance p s).2 |}.

(** One turn of the loop: an event starts its handler, or the browser
    settles the call the [i]-th suspended handler waits for, and that
    handler goes on.  Other handlers may run between the two. *)
Inductive Step :=
| External (ev : Event)
| Settle (i : nat) (browser : Browser).

Definition step (st : Step) (l : Loop) : Loop :=
  match st with
  | External ev => spawn (handler ev) (client l) (pending l)
  | Settle i browser =>
      match pending l !! i with
      | Some t =>
          let o := browser (awaited t) in
          spawn (resume t o)
            (set_trace (trace (client l) ++ [Awaited (awaited t) (is_fulfilled o)])
               (client l))
            (delete i (pending l))
      | None => l
      end
  end.

Fixpoint run_steps (steps : list Step) (l : Loop) : Loop :=
  match steps with
  | [] => l
  | st :: steps' => run_steps steps' (step st l)
  end.

(** The states the loop and the client can be in. *)
Definition reachable_loop (l : Loop) : Prop := ∃ steps, l = run_steps steps start.

Definition reachable (s : Client) : Prop := ∃ l, reachable_loop l ∧ s = client l.

(** *** Vocabulary for the properties *)

(** The connection object [createPeerConnection(peerId)] builds in [s]. *)
Definition fresh_connection (s : Client) (peerId : string) : RTCPeerConnection :=
  {| configuration := iceServers s;
     closed := false;
     senders := match localStream s with
                | Some stream => track_id <$> tracks stream
                | None => []
                end;
     listeners := match localStream s with
                  | Some _ => [TrackListener peerId; IceCandidateListener peerId]
                  | None => []
                  end |}.

(** [s] once that object is on the heap and registered under [peerId]. *)
Definition register (peerId : string) (s : Client) : Client :=
  set_peerConnections (<[peerId := length (heap s)]> (peerConnections s))
    (set_trace (trace s ++ [Constructed (length (heap s))])
       (set_heap (heap s ++ [fresh_connection s peerId]) s)).

(** The first half of the [peer-left] handler: the connection registered
    under [peerId], if any, is closed and taken out of the registry. *)
Definition close_connection (peerId : string) (s : Client) : Client :=
  match peerConnections s !! peerId with
  | Some pc =>
      set_peerConnections (delete peerId (peerConnections s))
        (set_trace (trace s ++ [Closed pc])
           (set_heap
              (alter (λ c, {| configuration := configuration c; closed := true;
                              senders := senders c; listeners := listeners c |})
                 pc (heap s)) s))
  | None => s
  end.

(** Its second half: the video of [peerId], if any, leaves the page and
    the map. *)
Definition drop_video (peerId : string) (s : Client) : Client :=
  match remoteVideos s !! peerId with
  | Some video =>
      set_remoteVideos (delete peerId (remoteVideos s))
        (set_remoteContainer
           (filter (λ w, element_id w ≠ parentElement video) (remoteContainer s)) s)
  | None => s
  end.

Definition listener_peer (l : Listener) : string :=
  match l with
  | TrackListener peerId | IceCandidateListener peerId => peerId
  end.

(** The registry and the heap agree: a registered identifier names a
    connection that is open, no two identifiers name the same connection,
    every open connection is registered, under the identifier its
    listeners were built for, and a remote video belongs to a registered
    peer. *)
Record registry_ok (s : Client) : Prop := {
  reg_live : ∀ p pc, peerConnections s !! p = Some pc →
             ∃ c, heap s !! pc = Some c ∧ closed c = false;
  reg_inj : ∀ p q pc, peerConnections s !! p = Some pc →
            peerConnections s !! q = Some pc → p = q;
  reg_all : ∀ pc c, heap s !! pc = Some c → closed c = false →
            ∃ p, peerConnections s !! p = Some pc;
  reg_listeners : ∀ pc c l, heap s !! pc = Some c → closed c = false →
                  l ∈ listeners c →
                  peerConnections s !! listener_peer l = Some pc;
  reg_videos : ∀ p, is_Some (remoteVideos s !! p) →
               is_Some (peerConnections s !! p)
}.

(** An envelope of the given type addressed to [peerId]. *)
Definition is_signal_to (ty peerId : string) (msg : ClientMsg) : bool :=
  match msg with
  | SignalTo _ data =>
      String.eqb (type data) ty && bool_decide (to data = Some peerId)
  | JoinRoom _ => false
  end.

Definition offers_to (peerId : string) (msgs : list ClientMsg) : list ClientMsg :=
  filter (λ msg, is_signal_to "offer" peerId msg = true) msgs.

Definition candidates_to (peerId : string) (msgs : list ClientMsg) : list ClientMsg :=
  filter (λ msg, is_signal_to "candidate" peerId msg = true) msgs.

(** The event is a departure notice for [peerId]. *)
Definition is_peer_left (peerId : string) (ev : Event) : bool :=
  match ev with
  | FromServer (PeerLeft q) => bool_decide (q = peerId)
  | _ => false
  end.

(** The event makes the client call [createPeerConnection(peerId)]. *)
Definition asks_connection (peerId : string) (ev : Event) : bool :=
  match ev with
  | FromServer (PeerJoined q) => bool_decide (q = peerId)
  | FromServer (Signal q data) =>
      bool_decide (q = peerId) && String.eqb (type data) "offer"
  | _ => false
  end.

(** Socket.IO gives an identifier to one connection only: once the
    departure of [peerId] has been announced ([gone]), the server sends no
    announce of [peerId] and no offer from it any more. *)
Fixpoint stays_away (peerId : string) (gone : bool) (steps : list Step) : Prop :=
  match steps with
  | [] => True
  | External ev :: steps' =>
      (gone = true → asks_connection peerId ev = false)
      ∧ stays_away peerId (gone || is_peer_left peerId ev) steps'
  | Settle _ _ :: steps' => stays_away peerId gone steps'
  end.

(** Nothing of [peerId] shows: it has no video, no candidate was sent to
    it beyond those in [before], and no open connection carries a
    listener built for it; unless it is [gone], it is registered. *)
Record quiet (peerId : string) (before : list ClientMsg) (gone : bool)
    (s : Client) : Prop := {
  quiet_registry : registry_ok s;
  quiet_video : remoteVideos s !! peerId = None;
  quiet_sent : candidates_to peerId (sent s) = before;
  quiet_listeners : ∀ pc c l, heap s !! pc = Some c → closed c = false →
                    l ∈ listeners c → listener_peer l ≠ peerId;
  quiet_registered : gone = false → is_Some (peerConnections s !! peerId)
}.

(** An effect that is not a candidate envelope for [peerId]. *)
Definition harmless (peerId : string) (e : Effect) : Prop :=
  ∀ msg, e = Emitted msg → is_signal_to "candidate" peerId msg = false.

(** The connection object [pc] has no track attached and no listener. *)
Definition bare (pc : nat) (s : Client) : Prop :=
  ∃ c, heap s !! pc = Some c ∧ senders c = [] ∧ listeners c = [].

(** A property of the client that a piece of synchronous code keeps. *)
Definition preserves (I : Client → Prop) {A} (m : Sync A) : Prop :=
  ∀ s, I s → I (m s).2.

(** Every synchronous step of a program keeps [I]. *)
Fixpoint all_sync (I : Client → Prop) {A} (p : Prog A) : Prop :=
  match p with
  | Ret _ | Throw => True
  | Do m k => preserves I m ∧ ∀ x, all_sync I (k x)
  | Await op k => ∀ o, all_sync I (k o)
  end.

(** An effect that is not a candidate envelope. *)
Definition not_candidate (e : Effect) : Prop :=
  ∀ room data, e = Emitted (SignalTo room data) → type data ≠ "candidate".

(** A property that depends on the heap, the two maps and the trace only,
    and that no effect other than a candidate envelope can break. *)
Record stable (I : Client → Prop) : Prop := {
  stable_frame : ∀ s s',
    heap s' = heap s → peerConnections s' = peerConnections s →
    remoteVideos s' = remoteVideos s → trace s' = trace s → I s → I s';
  stable_log : ∀ e s, not_candidate e → I s → I (set_trace (trace s ++ [e]) s)
}.

(** A program that keeps every stable property: it touches neither the
    heap nor the maps and sends no candidate. *)
Definition passive {A} (p : Prog A) : Prop := ∀ I, stable I → all_sync I p.

(** Up to its first [await] a program may do anything; what it leaves
    suspended there is passive. *)
Fixpoint suspends_passive {A} (p : Prog A) : Prop :=
  match p with
  | Ret _ | Throw => True
  | Do m k => ∀ x, suspends_passive (k x)
  | Await op k => ∀ o, passive (k o)
  end.

(** The suspended handlers of a loop are passive. *)
Definition tasks_passive (l : Loop) : Prop :=
  Forall (λ t, ∀ o, passive (resume t o)) (pending l).

End Client.

(** ** Concrete runs *)

Module Scenario.
Import SocketIO Server Client.

(** A browser that fulfils every call: the camera gives one audio and one
    video track. *)
Definition camera : MediaStream :=
  {| stream_id := "cam";
     tracks := [ {| track_id := 0; kind := AudioTrack; enabled := true |};
                 {| track_id := 1; kind := VideoTrack; enabled := true |} ] |}.

Definition fulfil_all : Browser := λ op,
  match op return Outcome (result op) with
  | GetUserMedia => Fulfilled camera
  | CreateOffer _ => Fulfilled {| desc_type := "offer"; desc_sdp := Some "v=0 o" |}
  | CreateAnswer _ => Fulfilled {| desc_type := "answer"; desc_sdp := Some "v=0 a" |}
  | SetLocalDescription _ _ => Fulfilled tt
  | SetRemoteDescription _ _ => Fulfilled tt
  | AddIceCandidate _ _ => Fulfilled tt
  end.

Definition offer_of_B_again : SignalData :=
  {| type := "offer"; sdp := Some "v=0 b2"; candidate := None; to := Some "A" |}.

(** A browser that rejects every call. *)
Definition reject_all : Browser := λ op, Rejected.

(** The client of A once it has clicked join for the room r1 and the
    camera is on. *)
Definition client_A : Client :=
  client (run_steps [External (ClickJoin "r1"); Settle 0 fulfil_all] start).

(** The client of A once it has also called B. *)
Definition client_A_called_B : Client :=
  handle fulfil_all (FromServer (PeerJoined "B")) client_A.

(** What follows an offer of B that reached the client before the user
    clicked join: the click, the camera, the three calls of the answer,
    events on the connection of B, and a second offer of B. *)
Definition camera_turned_on_later : list Step :=
  [ External (ClickJoin "r1");
    Settle 0 fulfil_all;
    Settle 0 fulfil_all;
    Settle 0 fulfil_all;
    Settle 0 fulfil_all;
    External (TrackEvent 0 ["remote"]);
    External (IceCandidateEvent 0 (Some "c2"));
    External (FromServer (Signal "B" offer_of_B_again)) ].

(** An offer, an answer and a candidate that B sends. *)
Definition offer_of_B : SignalData :=
  {| type := "offer"; sdp := Some "v=0 b"; candidate := None; to := Some "A" |}.

Definition answer_of_B : SignalData :=
  {| type := "answer"; sdp := Some "v=0 b"; candidate := None; to := Some "A" |}.

Definition candidate_of_B : SignalData :=
  {| type := "candidate"; sdp := None; candidate := Some "c1"; to := Some "A" |}.

(** A is in the room r1; B is connected and has joined nothing yet. *)
Definition one_in_r1 : Adapter :=
  state_after [Connect "A"; Connect "B"; JoinReq "A" "r1"].

(** A is in the room r1 and has also joined the private room of B. *)
Definition A_in_room_of_B : Adapter :=
  state_after [Connect "A"; Connect "B"; JoinReq "A" "r1"; JoinReq "A" "B"].

(** B has then joined r1 as well. *)
Definition A_follows_B : Adapter :=
  state_after [Connect "A"; Connect "B"; JoinReq "A" "r1"; JoinReq "A" "B";
               JoinReq "B" "r1"].

(** An envelope without addressee. *)
Definition to_room : SignalData :=
  {| type := "offer"; sdp := Some "v=0"; candidate := None; to := None |}.

(** An envelope that A addresses to B. *)
Definition to_B : SignalData :=
  {| type := "offer"; sdp := Some "v=0"; candidate := None; to := Some "B" |}.

(** A and B are both in the room r1. *)
Definition two_in_r1 : Adapter :=
  state_after [Connect "A"; Connect "B"; JoinReq "A" "r1"; JoinReq "B" "r1"].

(** An envelope that A addresses to its own identifier. *)
Definition to_self : SignalData :=
  {| type := "candidate"; sdp := None; candidate := Some "c0"; to := Some "A" |}.

(** A and B are both in the rooms r1 and r2. *)
Definition two_in_two_rooms : Adapter :=
  state_after [Connect "A"; Connect "B";
               JoinReq "A" "r1"; JoinReq "A" "r2";
               JoinReq "B" "r1"; JoinReq "B" "r2"].

(** Only a STUN server is configured. *)
Definition stun_only : Env :=
  {| STUN_URL := Some "stun:localhost:3478"; TURN_URL := None;
     TURN_USERNAME := None; TURN_PASSWORD := None |}.

(** Nothing is configured. *)
Definition no_env : Env :=
  {| STUN_URL := None; TURN_URL := None;
     TURN_USERNAME := None; TURN_PASSWORD := None |}.

End Scenario.

(** * Further cases and vocabulary *)

Module ServerCases.
Import SocketIO Server.

(** The socket a request comes from. *)
Definition requester (r : Request) : string :=
  match r with
  | Connect id | JoinReq id _ | SignalReq id _ _ | Disconnect id => id
  end.

(** B has connected and joined r1, where A already is. *)
Definition B_joined_r1 : Adapter :=
  state_after [Connect "A"; JoinReq "A" "r1"; Connect "B"; JoinReq "B" "r1"].

(** A complete TURN configuration, and one that lacks its password. *)
Definition turn_only : Env :=
  {| STUN_URL := None; TURN_URL := Some "turn:localhost:3478";
     TURN_USERNAME := Some "user"; TURN_PASSWORD := Some "secret" |}.

Definition turn_without_password : Env :=
  {| STUN_URL := Some "stun:localhost:3478"; TURN_URL := Some "turn:localhost:3478";
     TURN_USERNAME := Some "user"; TURN_PASSWORD := Some "" |}.

End ServerCases.

Module Media.
Import Client.

(** A track with its [enabled] flag written. *)
Definition with_enabled (v : bool) (t : MediaStreamTrack) : MediaStreamTrack :=
  {| track_id := track_id t; kind := kind t; enabled := v |}.

(** The text of the camera button for a state of the camera. *)
Definition cam_label (on : bool) : string :=
  if on then "Apagar cámara" else "Encender cámara".

(** A no-break space and an ideographic space. *)
Definition nbsp : string := utf8 0xA0.
Definition ideographic_space : string := utf8 0x3000.

End Media.

Module Page.
Import Client.

(** The wrapper that [on_track] builds around the video of [peerId]. *)
Definition wrapper_of (peerId : string) (video : HTMLVideoElement) : VideoWrapper :=
  {| element_id := parentElement video; title := peer_title peerId |}.

(** A connection as [createPeerConnection] leaves it: without track and
    listener, or with the two listeners of one peer. *)
Definition wired (c : RTCPeerConnection) : Prop :=
  (senders c = [] ∧ listeners c = [])
  ∨ ∃ peerId, listeners c = [TrackListener peerId; IceCandidateListener peerId].

Definition all_wired (s : Client) : Prop :=
  ∀ pc c, heap s !! pc = Some c → wired c.

(** The remote container holds, in some order, one wrapper for each entry
    of [remoteVideos], and no two wrappers are the same element. *)
Record page_ok (s : Client) : Prop := {
  page_wrappers :
    remoteContainer s ≡ₚ (λ pv, wrapper_of pv.1 pv.2) <$> map_to_list (remoteVideos s);
  page_NoDup : NoDup (element_id <$> remoteContainer s);
  page_fresh : Forall (λ w, element_id w < nextElement s) (remoteContainer s)
}.

(** The state A is in once it has called B and the first track of B has
    arrived. *)
Definition client_A_sees_B : Client :=
  handle Scenario.fulfil_all (TrackEvent 0 ["remote"]) Scenario.client_A_called_B.

End Page.

Module Wiring.
Import Client.

(** [c'] is the connection object [c], possibly closed since. *)
Definition same_wiring (c c' : RTCPeerConnection) : Prop :=
  configuration c' = configuration c ∧ senders c' = senders c
  ∧ listeners c' = listeners c ∧ (closed c = true → closed c' = true).

(** The object at [pc] is still [c], possibly closed since. *)
Definition frozen (pc : nat) (c : RTCPeerConnection) (s : Client) : Prop :=
  ∃ c', heap s !! pc = Some c' ∧ same_wiring c c'.

(** A second camera stream. *)
Definition second_camera : MediaStream :=
  {| stream_id := "cam2";
     tracks := [ {| track_id := 2; kind := VideoTrack; enabled := true |} ] |}.

Definition fulfil_second : Browser := λ op,
  match op return Outcome (result op) with
  | GetUserMedia => Fulfilled second_camera
  | other => Scenario.fulfil_all other
  end.

(** A joins r1 with the camera on and calls B. *)
Definition called_B : list Step :=
  [ External (ClickJoin "r1");
    Settle 0 Scenario.fulfil_all;
    External (FromServer (PeerJoined "B"));
    Settle 0 Scenario.fulfil_all;
    Settle 0 Scenario.fulfil_all ].

(** Then the ICE configuration arrives, the user joins again with a
    second camera, and turns it off. *)
Definition rejoined : list Step :=
  [ External (IceConfig (Some Server.fallback_servers));
    External (ClickJoin "r1");
    Settle 0 fulfil_second;
    External ClickToggleCam ].

End Wiring.

Module Calls.
Import Client.

(** The envelope is an offer, an answer or a candidate, and names in
    [to] a peer that has [P]. *)
Definition directed (P : string → Prop) (msg : ClientMsg) : Prop :=
  match msg with
  | SignalTo _ data =>
      (∃ p, to data = Some p ∧ P p)
      ∧ type data ∈ ["offer"; "answer"; "candidate"]
  | JoinRoom _ => True
  end.

(** The peer the server names in an announce, or as the sender of an
    envelope, has [P]. *)
Definition named (P : string → Prop) (ev : Event) : Prop :=
  match ev with
  | FromServer (PeerJoined p) | FromServer (Signal p _) => P p
  | _ => True
  end.

Definition names_only (P : string → Prop) (steps : list Step) : Prop :=
  Forall (λ st, match st with
                | External ev => named P ev
                | Settle _ _ => True
                end) steps.

(** Every envelope sent is directed, and every listener was built for a
    peer that has [P]. *)
Definition addressed (P : string → Prop) (s : Client) : Prop :=
  Forall (directed P) (sent s)
  ∧ ∀ pc c l, heap s !! pc = Some c → l ∈ listeners c → P (listener_peer l).

(** A browser whose offers differ from those of [Scenario.fulfil_all]. *)
Definition other_offers : Browser := λ op,
  match op return Outcome (result op) with
  | CreateOffer _ => Fulfilled {| desc_type := "offer"; desc_sdp := Some "v=0 o2" |}
  | other => Scenario.fulfil_all other
  end.


(** A message of a kind the client does not know. *)
Definition bye_of_B : SignalData :=
  {| type := "bye"; sdp := None; candidate := None; to := Some "A" |}.

End Calls.

Module Inbox.
Import SocketIO Client.

(** The events that the messages delivered to the socket [id] raise in
    its client, in order. *)
Definition inbox (id : string) (out : list Delivery) : list Event :=
  (λ d, FromServer d.2) <$> filter (λ d, d.1 = id) out.

(** The client handles the events one after the other. *)
Definition handle_all (browser : Browser) (evs : list Event) (s : Client) : Client :=
  foldl (λ s ev, handle browser ev s) s evs.

End Inbox.

(** * Properties of the server *)

Section set_facts.

Lemma elem_of_set_add (x y : string) (l : list string) :
  y ∈ set_add x l ↔ y = x ∨ y ∈ l.
Proof.
  unfold set_add. case_bool_decide as Hx.
  - split; [by right | intros [-> | ?]; done].
  - rewrite elem_of_app, list_elem_of_singleton. tauto.
Qed.

Lemma NoDup_set_add (x : string) (l : list string) :
  NoDup l → NoDup (set_add x l).
Proof.
  intros Hl. unfold set_add. case_bool_decide as Hx; [done |].
  apply NoDup_app. split_and!; [done | | apply NoDup_singleton].
  intros y Hy Hy'. apply list_elem_of_singleton in Hy' as ->. done.
Qed.

Lemma filter_ne_set_add (x : string) (l : list string) :
  filter (λ m, m ≠ x) (set_add x l) = filter (λ m, m ≠ x) l.
Proof.
  unfold set_add. case_bool_decide; [done |].
  rewrite filter_app, filter_cons_False, filter_nil by (intros ?; done).
  by rewrite app_nil_r.
Qed.

Lemma elem_of_set_delete (x y : string) (l : list string) :
  y ∈ set_delete x l ↔ y ≠ x ∧ y ∈ l.
Proof. unfold set_delete. by rewrite list_elem_of_filter. Qed.

Lemma NoDup_set_delete (x : string) (l : list string) :
  NoDup l → NoDup (set_delete x l).
Proof. apply NoDup_filter. Qed.

(** In a list without duplicates an element occurs once or not at all. *)
Lemma count_NoDup (x : string) (l : list string) :
  NoDup l →
  length (filter (λ m, m = x) l) = if bool_decide (x ∈ l) then 1 else 0.
Proof.
  induction 1 as [| y l Hy Hl IH]; [done |].
  destruct (decide (y = x)) as [-> | Hne].
  - rewrite filter_cons_True by done. cbn. rewrite IH.
    rewrite (bool_decide_eq_false_2 _ Hy).
    by rewrite bool_decide_eq_true_2 by left.
  - rewrite filter_cons_False by done. rewrite IH.
    apply (f_equal (λ b : bool, if b then 1 else 0)).
    apply bool_decide_ext. rewrite elem_of_cons.
    split; [by right | intros [-> | ?]; done].
Qed.

(** Two tests that agree on the elements of a list filter it alike. *)
Lemma filter_ext_elem {A} (P Q : A → Prop) `{!∀ x, Decision (P x)}
    `{!∀ x, Decision (Q x)} (l : list A) :
  (∀ x, x ∈ l → P x ↔ Q x) → filter P l = filter Q l.
Proof.
  induction l as [| y l IH]; intros Hl; [done |].
  assert (filter P l = filter Q l) as Hrest
    by (apply IH; intros x Hx; apply Hl; by right).
  destruct (decide (P y)) as [Hy | Hy].
  - rewrite !filter_cons_True; [by rewrite Hrest | by apply Hl; [left |] | done].
  - rewrite !filter_cons_False; [done | | done].
    intros Hq. apply Hy, Hl; [left | done].
Qed.

(** Leaving out [x] changes nothing for a test that [x] fails. *)
Lemma filter_filter_ne (P : string → Prop) `{!∀ y, Decision (P y)}
    (x : string) (l : list string) :
  ¬ P x → filter P (filter (λ m, m ≠ x) l) = filter P l.
Proof.
  intros Hx. induction l as [| y l IH]; [done |].
  destruct (decide (y = x)) as [-> | Hne].
  - rewrite filter_cons_False by (intros ?; done).
    by rewrite (filter_cons_False P x l).
  - rewrite (filter_cons_True (λ m, m ≠ x)) by done.
    destruct (decide (P y)) as [Hy | Hy].
    + rewrite !filter_cons_True by done. by rewrite IH.
    + rewrite !filter_cons_False by done. done.
Qed.

(** A filtered list without duplicates holds an element once when the
    element is in the list and passes the test, and not at all
    otherwise. *)
Lemma count_filter (P : string → Prop) `{!∀ y, Decision (P y)}
    (x : string) (l : list string) :
  NoDup l →
  length (filter (λ m, m = x) (filter P l)) =
  if bool_decide (x ∈ l ∧ P x) then 1 else 0.
Proof.
  intros Hl. rewrite count_NoDup by by apply NoDup_filter.
  apply (f_equal (λ b : bool, if b then 1 else 0)).
  apply bool_decide_ext. rewrite list_elem_of_filter. tauto.
Qed.

End set_facts.

Module ServerSpec.
Import SocketIO Server.

(** *** Counting what a socket receives *)

Lemma received_app id msg (o1 o2 : list Delivery) :
  received id msg (o1 ++ o2) = received id msg o1 + received id msg o2.
Proof. unfold received. by rewrite filter_app, length_app. Qed.

(** One message sent to each socket of a list. *)
Lemma received_broadcast id msg msg' (l : list string) :
  received id msg ((λ m, (m, msg')) <$> l) =
  if bool_decide (msg = msg') then length (filter (λ m, m = id) l) else 0.
Proof.
  unfold received. induction l as [| y l IH]; [by case_bool_decide |].
  rewrite fmap_cons. case_bool_decide as Hm.
  - subst msg'.
    destruct (decide (y = id)) as [-> | Hne].
    + rewrite !filter_cons_True by done. cbn [length]. f_equal. exact IH.
    + rewrite !filter_cons_False by congruence. done.
  - rewrite filter_cons_False by congruence. done.
Qed.

(** Several messages sent to one socket. *)
Lemma received_unicast id sock (g : string → ServerMsg) (l : list string) m0 :
  Inj (=) (=) g →
  received id (g m0) ((λ m, (sock, g m)) <$> l) =
  if bool_decide (id = sock) then length (filter (λ m, m = m0) l) else 0.
Proof.
  intros Hg. unfold received. induction l as [| y l IH]; [by case_bool_decide |].
  rewrite fmap_cons. case_bool_decide as Hm.
  - subst sock.
    destruct (decide (y = m0)) as [-> | Hne].
    + rewrite !filter_cons_True by done. cbn [length]. f_equal. exact IH.
    + rewrite !filter_cons_False; [done | done |].
      intros [= Hy]. by apply Hg in Hy.
  - rewrite filter_cons_False by congruence. done.
Qed.

Lemma received_pos id msg (out : list Delivery) :
  0 < received id msg out ↔ (id, msg) ∈ out.
Proof.
  unfold received. split.
  - intros Hpos. destruct (filter _ out) as [| d l] eqn:Hf; [cbn in Hpos; lia |].
    assert (d ∈ filter (λ d, d = (id, msg)) out) as Hd by (rewrite Hf; left).
    apply list_elem_of_filter in Hd as [-> ?]. done.
  - intros Hin.
    assert ((id, msg) ∈ filter (λ d, d = (id, msg)) out) as Hd
      by (by apply list_elem_of_filter).
    destruct (filter _ out); [by apply elem_of_nil in Hd | cbn; lia].
Qed.

Lemma received_zero id msg (out : list Delivery) :
  (id, msg) ∉ out → received id msg out = 0.
Proof.
  intros Hout. destruct (received id msg out) as [| n] eqn:Hn; [done |].
  exfalso. apply Hout, received_pos. lia.
Qed.

(** *** The adapter *)

Lemma room_members_NoDup a r : wf a → NoDup (room_members a r).
Proof.
  intros Hwf. unfold room_members, members_of.
  destruct (rooms a !! r) as [l |] eqn:Hr; cbn; [| constructor].
  by eapply wf_rooms_NoDup.
Qed.

Lemma socket_rooms_NoDup a c : wf a → NoDup (socket_rooms a c).
Proof.
  intros Hwf. unfold socket_rooms, members_of.
  destruct (sids a !! c) as [l |] eqn:Hr; cbn; [| constructor].
  by eapply wf_sids_NoDup.
Qed.

Lemma room_members_addAll a id room r :
  room_members (addAll id room a) r =
  if decide (r = room) then set_add id (room_members a room) else room_members a r.
Proof.
  unfold room_members at 1. unfold members_of. cbn. case_decide as Hr.
  - subst r. by rewrite lookup_insert_eq.
  - by rewrite lookup_insert_ne.
Qed.

Lemma socket_rooms_addAll a id room c :
  socket_rooms (addAll id room a) c =
  if decide (c = id) then set_add room (socket_rooms a id) else socket_rooms a c.
Proof.
  unfold socket_rooms at 1. unfold members_of. cbn. case_decide as Hr.
  - subst c. by rewrite lookup_insert_eq.
  - by rewrite lookup_insert_ne.
Qed.

Lemma wf_empty : wf SocketIO.empty.
Proof.
  split; cbn.
  - intros r l. by rewrite lookup_empty.
  - intros c l. by rewrite lookup_empty.
  - intros r c. unfold room_members, socket_rooms, members_of. cbn.
    rewrite !lookup_empty. cbn. by rewrite !elem_of_nil.
Qed.

Lemma wf_addAll a id room : wf a → wf (addAll id room a).
Proof.
  intros Hwf. split.
  - intros r l. cbn. destruct (decide (r = room)) as [-> | Hne].
    + rewrite lookup_insert_eq. intros [= <-].
      by apply NoDup_set_add, room_members_NoDup.
    + rewrite lookup_insert_ne by done. apply Hwf.
  - intros c l. cbn. destruct (decide (c = id)) as [-> | Hne].
    + rewrite lookup_insert_eq. intros [= <-].
      by apply NoDup_set_add, socket_rooms_NoDup.
    + rewrite lookup_insert_ne by done. apply Hwf.
  - intros r c. rewrite room_members_addAll, socket_rooms_addAll.
    pose proof (wf_consistent a Hwf r c) as Hrc.
    repeat case_decide; subst; rewrite ?elem_of_set_add; naive_solver.
Qed.

Lemma set_delete_idemp x l : set_delete x (set_delete x l) = set_delete x l.
Proof.
  unfold set_delete. induction l as [| y l IH]; [done |].
  destruct (decide (y = x)) as [-> | Hne].
  - by rewrite filter_cons_False by (intros ?; done).
  - rewrite (filter_cons_True _ y l) by done.
    rewrite filter_cons_True by done. by rewrite IH.
Qed.

Lemma members_of_del_room id room rs r :
  members_of (del_room id room rs) r =
  if decide (r = room) then set_delete id (members_of rs r) else members_of rs r.
Proof.
  unfold del_room, members_of.
  destruct (rs !! room) as [ms |] eqn:Hroom.
  - destruct (set_delete id ms) as [| y rest] eqn:Hdel.
    + case_decide as Hr.
      * subst r. by rewrite lookup_delete_eq, Hroom.
      * by rewrite lookup_delete_ne.
    + case_decide as Hr.
      * subst r. by rewrite lookup_insert_eq, Hroom.
      * by rewrite lookup_insert_ne.
  - case_decide as Hr; [| done]. subst r. by rewrite Hroom.
Qed.

Lemma members_of_foldr_del_room id (l : list string) rs r :
  members_of (foldr (del_room id) rs l) r =
  if decide (r ∈ l) then set_delete id (members_of rs r) else members_of rs r.
Proof.
  induction l as [| room l IH]; cbn.
  - case_decide as Hin; [by apply elem_of_nil in Hin | done].
  - rewrite members_of_del_room, IH.
    repeat case_decide; subst; rewrite ?set_delete_idemp; try done;
      exfalso; set_solver.
Qed.

Lemma room_members_delAll a id r :
  room_members (delAll id a) r =
  if decide (r ∈ socket_rooms a id)
  then set_delete id (room_members a r) else room_members a r.
Proof. apply members_of_foldr_del_room. Qed.

Lemma socket_rooms_delAll a id c :
  socket_rooms (delAll id a) c =
  if decide (c = id) then [] else socket_rooms a c.
Proof.
  unfold socket_rooms at 1. unfold members_of. cbn. case_decide as Hc.
  - subst c. by rewrite lookup_delete_eq.
  - by rewrite lookup_delete_ne.
Qed.

Lemma wf_delAll a id : wf a → wf (delAll id a).
Proof.
  intros Hwf. split.
  - intros r l Hl.
    assert (l = room_members (delAll id a) r) as ->
      by (unfold room_members, members_of; by rewrite Hl).
    rewrite room_members_delAll. case_decide.
    + by apply NoDup_set_delete, room_members_NoDup.
    + by apply room_members_NoDup.
  - intros c l. cbn. destruct (decide (c = id)) as [-> | Hne].
    + by rewrite lookup_delete_eq.
    + rewrite lookup_delete_ne by done. apply Hwf.
  - intros r c. rewrite room_members_delAll, socket_rooms_delAll.
    pose proof (wf_consistent a Hwf r c) as Hrc.
    pose proof (wf_consistent a Hwf r id) as Hrid.
    repeat case_decide; subst; rewrite ?elem_of_set_delete, ?elem_of_nil;
      naive_solver.
Qed.

(** *** The handlers, unfolded *)

Lemma forEach_cons {A} (x : A) l (f : A → Srv unit) a :
  forEach (x :: l) f a =
  (tt, state_of (forEach l f) (state_of (f x) a),
   deliveries (f x) a ++ deliveries (forEach l f) (state_of (f x) a)).
Proof.
  cbn [forEach]. unfold mbind, Srv_bind, state_of, deliveries.
  destruct (f x a) as [[[] a1] o1]. cbn.
  by destruct (forEach l f a1) as [[[] a2] o2].
Qed.

Lemma forEach_announce socket (l : list string) a :
  forEach l (λ existingSocketId,
    if bool_decide (existingSocketId ≠ socket)
    then socket_emit socket (PeerJoined existingSocketId)
    else mret tt) a
  = (tt, a, (λ m, (socket, PeerJoined m)) <$> filter (λ m, m ≠ socket) l).
Proof.
  induction l as [| y l IH]; [done |].
  rewrite forEach_cons. unfold state_of, deliveries.
  case_bool_decide as Hy; cbn [socket_emit mret Srv_ret fst snd]; rewrite IH.
  - rewrite filter_cons_True by done. reflexivity.
  - rewrite filter_cons_False by (cbn; intuition). reflexivity.
Qed.

Lemma forEach_notify socket msg (rs : list string) a :
  forEach rs (λ roomId, socket_to_emit socket roomId msg) a
  = (tt, a, rs ≫= λ r, (λ m, (m, msg)) <$>
                         filter (λ m, m ∉ room_members a socket) (room_members a r)).
Proof.
  induction rs as [| r rs IH]; [done |].
  rewrite forEach_cons. unfold state_of, deliveries.
  cbn [socket_to_emit fst snd]. rewrite IH. reflexivity.
Qed.

Lemma on_join_unfold a socket roomId :
  on_join socket roomId a =
  (tt, addAll socket roomId a,
   ((λ m, (socket, PeerJoined m)) <$>
      filter (λ m, m ≠ socket) (room_members a roomId)) ++
   ((λ m, (m, PeerJoined socket)) <$>
      filter (λ m, m ∉ room_members (addAll socket roomId a) socket)
        (room_members (addAll socket roomId a) roomId))).
Proof.
  unfold on_join, mbind, Srv_bind, rooms_get, socket_join, socket_to_emit.
  assert (room_members a roomId = default [] (rooms a !! roomId)) as -> by done.
  destruct (rooms a !! roomId) as [members |]; cbn [default].
  - rewrite forEach_announce. reflexivity.
  - reflexivity.
Qed.

Lemma on_signal_unfold a socket roomId data :
  on_signal socket roomId data a =
  (tt, a,
   if truthy (to data)
   then (λ m, (m, Signal socket data)) <$> room_members a (default "" (to data))
   else (λ m, (m, Signal socket data)) <$>
          filter (λ m, m ∉ room_members a socket) (room_members a roomId)).
Proof. unfold on_signal. by destruct (truthy (to data)). Qed.

Lemma on_disconnecting_unfold a socket :
  on_disconnecting socket a =
  (tt, a,
   filter (λ r, r ≠ socket) (socket_rooms a socket) ≫= λ r,
     (λ m, (m, PeerLeft socket)) <$>
       filter (λ m, m ∉ room_members a socket) (room_members a r)).
Proof.
  unfold on_disconnecting, mbind at 1, Srv_bind, get_socket_rooms.
  rewrite forEach_notify. reflexivity.
Qed.

Lemma disconnect_unfold a socket :
  disconnect socket a =
  (tt, delAll socket a, deliveries (on_disconnecting socket) a).
Proof.
  unfold disconnect, deliveries, mbind, Srv_bind, leaveAll.
  rewrite on_disconnecting_unfold. cbn [fst snd]. by rewrite app_nil_r.
Qed.

(** *** Every state the server reaches is well formed *)

Lemma wf_handle r a : wf a → wf (state_of (handle r) a).
Proof.
  intros Hwf. unfold state_of. destruct r as [id | id roomId | id roomId data | id]; cbn [handle].
  - by apply wf_addAll.
  - rewrite on_join_unfold. by apply wf_addAll.
  - by rewrite on_signal_unfold.
  - rewrite disconnect_unfold. by apply wf_delAll.
Qed.

Lemma wf_run reqs a : wf a → wf (state_of (run reqs) a).
Proof.
  revert a. induction reqs as [| r reqs IH]; intros a Hwf; [done |].
  unfold state_of, run. cbn [forEach]. unfold mbind, Srv_bind.
  pose proof (wf_handle r a Hwf) as Hr. unfold state_of in Hr.
  destruct (handle r a) as [[[] a1] out1].
  specialize (IH a1 Hr). unfold state_of, run in IH.
  destruct (forEach reqs handle a1) as [[[] a2] out2]. done.
Qed.

Lemma wf_state_after reqs : wf (state_after reqs).
Proof. apply (wf_run reqs), wf_empty. Qed.

(** *** Joining a room *)

Lemma count_filter_ne (x y : string) (l : list string) :
  NoDup l →
  length (filter (λ m, m = x) (filter (λ m, m ≠ y) l)) =
  if bool_decide (x ≠ y ∧ x ∈ l) then 1 else 0.
Proof.
  intros Hl. rewrite count_NoDup by by apply NoDup_filter.
  apply (f_equal (λ b : bool, if b then 1 else 0)).
  apply bool_decide_ext. rewrite list_elem_of_filter. done.
Qed.

(** Who is told of a join, apart from the socket that joins: the members
    of the room that are not in the private room of that socket. *)
Lemma elem_of_notified (a : Adapter) (socket roomId m : string) :
  m ≠ socket →
  m ∈ filter (λ m, m ∉ room_members (addAll socket roomId a) socket)
        (room_members (addAll socket roomId a) roomId)
  ↔ m ∈ room_members a roomId ∧ m ∉ room_members a socket.
Proof.
  intros Hne. rewrite list_elem_of_filter, !room_members_addAll.
  rewrite (decide_True (P := roomId = roomId)) by done.
  destruct (decide (socket = roomId)) as [Heq | Hr].
  - subst roomId. rewrite !elem_of_set_add. naive_solver.
  - rewrite elem_of_set_add. naive_solver.
Qed.

(** For a connected socket, which is in its private room, these are all
    that are told. *)
Lemma notified_connected (a : Adapter) (socket roomId : string) :
  socket ∈ room_members a socket →
  filter (λ m, m ∉ room_members (addAll socket roomId a) socket)
    (room_members (addAll socket roomId a) roomId)
  = filter (λ m, m ∉ room_members a socket)
      (filter (λ m, m ≠ socket) (room_members a roomId)).
Proof.
  intros Hconn.
  rewrite (filter_ext_elem _ (λ m, m ∉ room_members a socket)).
  2:{ intros x _. rewrite room_members_addAll. case_decide as Hr; [| done].
      subst roomId. rewrite elem_of_set_add. naive_solver. }
  rewrite filter_filter_ne by (intros Hout; by apply Hout).
  rewrite room_members_addAll, decide_True by done.
  unfold set_add. case_bool_decide; [done |].
  rewrite filter_app, filter_cons_False, filter_nil by (intros Hout; by apply Hout).
  by rewrite app_nil_r.
Qed.

(** How often each announce of a join is received. *)
Lemma join_receptions (a : Adapter) (socket roomId : string) :
  wf a →
  let existing := filter (λ m, m ≠ socket) (room_members a roomId) in
  let announces := (λ m, (socket, PeerJoined m)) <$> existing in
  let notices :=
    (λ m, (m, PeerJoined socket)) <$>
      filter (λ m, m ∉ room_members (addAll socket roomId a) socket)
        (room_members (addAll socket roomId a) roomId) in
  (∀ m, received socket (PeerJoined m) announces =
        if bool_decide (m ≠ socket ∧ m ∈ room_members a roomId) then 1 else 0)
  ∧ (∀ m, m ≠ socket →
       received m (PeerJoined socket) notices =
       if bool_decide (m ∈ room_members a roomId ∧ m ∉ room_members a socket)
       then 1 else 0)
  ∧ (∀ m m', m' ≠ socket → received m' (PeerJoined m) announces = 0)
  ∧ (∀ m msg, msg ≠ PeerJoined socket → received m msg notices = 0).
Proof.
  intros Hwf existing announces notices.
  assert (NoDup (room_members a roomId)) as Hnd by by apply room_members_NoDup.
  split_and!.
  - intros m. unfold announces.
    rewrite (received_unicast socket socket PeerJoined existing m)
      by (intros ?? [=]; done).
    rewrite bool_decide_eq_true_2 by done. by apply count_filter_ne.
  - intros m Hne. unfold notices. rewrite received_broadcast.
    rewrite bool_decide_eq_true_2 by done.
    rewrite count_NoDup by by apply NoDup_filter, room_members_NoDup, wf_addAll.
    apply (f_equal (λ b : bool, if b then 1 else 0)).
    apply bool_decide_ext. by apply elem_of_notified.
  - intros m m' Hm'. unfold announces.
    rewrite (received_unicast m' socket PeerJoined existing m)
      by (intros ?? [=]; done).
    by rewrite bool_decide_eq_false_2.
  - intros m msg Hmsg. unfold notices. rewrite received_broadcast.
    by rewrite bool_decide_eq_false_2.
Qed.

(** The socket that joins is told once of a member of the room; the
    member is told once of the socket, unless it has joined the private
    room of the socket: then it is not told. *)
Lemma join_announces_both (a : Adapter) (socket roomId m : string) :
  wf a → m ∈ room_members a roomId → m ≠ socket →
  received socket (PeerJoined m) (deliveries (on_join socket roomId) a) = 1
  ∧ received m (PeerJoined socket) (deliveries (on_join socket roomId) a)
    = if bool_decide (m ∈ room_members a socket) then 0 else 1.
Proof.
  intros Hwf Hm Hne.
  destruct (join_receptions a socket roomId Hwf) as (Hann & Hnot & Hann0 & Hnot0).
  unfold deliveries. rewrite on_join_unfold. cbn [snd]. rewrite !received_app.
  rewrite Hann, Hnot by done. rewrite (bool_decide_eq_true_2 (m ≠ socket ∧ _)) by done.
  rewrite (Hnot0 socket (PeerJoined m)) by congruence.
  rewrite (Hann0 socket m) by done. split; [done |].
  destruct (decide (m ∈ room_members a socket)) as [Hin | Hout].
  - rewrite bool_decide_eq_false_2 by (intros [_ ?]; done).
    by rewrite bool_decide_eq_true_2.
  - rewrite bool_decide_eq_true_2 by done. by rewrite bool_decide_eq_false_2.
Qed.

(** C2, as the code has it.  A join first announces every other member of
    the room to the joining socket, once each and never the socket
    itself; it then adds the socket to the room; it then announces the
    socket, once, to the other members that are not in the private room
    of the socket.  A member that has joined that room is not told.
    Nobody else receives anything, and nobody receives the same announce
    twice. *)
Theorem join_choreography_amended (a : Adapter) (socket roomId : string) :
  wf a → socket ∈ room_members a socket →
  let existing := filter (λ m, m ≠ socket) (room_members a roomId) in
  let notified := filter (λ m, m ∉ room_members a socket) existing in
  let joined := addAll socket roomId a in
  let announces := (λ m, (socket, PeerJoined m)) <$> existing in
  let notices := (λ m, (m, PeerJoined socket)) <$> notified in
  let out := announces ++ notices in
  on_join socket roomId a = (tt, joined, out)
  ∧ room_members joined roomId = set_add socket (room_members a roomId)
  ∧ (∀ m, m ∈ room_members a roomId → m ≠ socket →
       received socket (PeerJoined m) announces = 1
       ∧ received socket (PeerJoined m) out = 1
       ∧ received m (PeerJoined socket) notices
         = (if bool_decide (m ∈ room_members a socket) then 0 else 1)
       ∧ received m (PeerJoined socket) out
         = (if bool_decide (m ∈ room_members a socket) then 0 else 1))
  ∧ received socket (PeerJoined socket) out = 0
  ∧ (∀ m msg, received m msg out ≤ 1)
  ∧ (∀ m msg, (m, msg) ∈ out →
       (m = socket ∧ ∃ x, x ∈ existing ∧ msg = PeerJoined x)
       ∨ (m ∈ notified ∧ msg = PeerJoined socket)).
Proof.
  intros Hwf Hconn existing notified joined announces notices out.
  destruct (join_receptions a socket roomId Hwf) as (Hann & Hnot & Hann0 & Hnot0).
  cbn zeta in Hann, Hnot, Hann0, Hnot0.
  rewrite (notified_connected a socket roomId Hconn) in Hnot, Hnot0.
  fold existing in Hann, Hnot, Hann0, Hnot0.
  fold notified in Hnot, Hnot0.
  fold announces in Hann, Hann0. fold notices in Hnot, Hnot0.
  assert (∀ m, m ∈ room_members a roomId → m ≠ socket →
            received m (PeerJoined socket) notices
            = if bool_decide (m ∈ room_members a socket) then 0 else 1) as Hnot1.
  { intros m Hm Hne. rewrite Hnot by done.
    destruct (decide (m ∈ room_members a socket)) as [Hin | Hout].
    - rewrite bool_decide_eq_false_2 by (intros [_ ?]; done).
      by rewrite bool_decide_eq_true_2.
    - rewrite bool_decide_eq_true_2 by done. by rewrite bool_decide_eq_false_2. }
  assert (received socket (PeerJoined socket) notices = 0) as Hself.
  { apply received_zero. unfold notices. rewrite list_elem_of_fmap.
    intros (x & [= <-] & Hx). by apply list_elem_of_filter in Hx as [Hx _]. }
  split_and!.
  - rewrite on_join_unfold. unfold out, announces, notices, notified, existing, joined.
    by rewrite (notified_connected a socket roomId Hconn).
  - unfold joined. rewrite room_members_addAll. by rewrite decide_True.
  - intros m Hm Hne. unfold out. rewrite !received_app.
    rewrite Hann, Hnot1, bool_decide_eq_true_2 by done.
    rewrite (Hnot0 socket (PeerJoined m)) by congruence.
    rewrite (Hann0 socket m) by done. done.
  - unfold out. rewrite received_app, Hann, Hself.
    rewrite bool_decide_eq_false_2 by (intros [? _]; done). done.
  - intros m msg. unfold out. rewrite received_app.
    destruct (decide (msg = PeerJoined socket)) as [-> | Hmsg].
    + destruct (decide (m = socket)) as [-> | Hm].
      * rewrite Hann, Hself.
        rewrite !bool_decide_eq_false_2 by (intros [? _]; done). lia.
      * rewrite Hann0, Hnot by done. case_bool_decide; lia.
    + rewrite Hnot0 by done. destruct msg as [x | |].
      * destruct (decide (m = socket)) as [-> | Hm].
        -- rewrite Hann. case_bool_decide; lia.
        -- rewrite Hann0 by done. lia.
      * rewrite received_zero; [lia |]. unfold announces.
        rewrite list_elem_of_fmap. by intros (x & [=] & _).
      * rewrite received_zero; [lia |]. unfold announces.
        rewrite list_elem_of_fmap. by intros (x & [=] & _).
  - intros m msg. unfold out. rewrite elem_of_app.
    unfold announces, notices. rewrite !list_elem_of_fmap.
    intros [(x & [= -> ->] & Hx) | (x & [= -> ->] & Hx)]; [left | right]; eauto.
Qed.

Lemma join_choreography_amended_witness :
  wf Scenario.one_in_r1
  ∧ deliveries (on_join "B" "r1") Scenario.one_in_r1
    = [("B", PeerJoined "A"); ("A", PeerJoined "B")]
  ∧ received "A" (PeerJoined "B")
      (deliveries (on_join "B" "r1") Scenario.one_in_r1) = 1
  ∧ received "A" (PeerJoined "B")
      (deliveries (on_join "B" "r1") Scenario.A_in_room_of_B) = 0.
Proof.
  assert ("B" ∈ room_members Scenario.one_in_r1 "B") as HB by (vm_compute; left).
  assert ("B" ∈ room_members Scenario.A_in_room_of_B "B") as HB' by (vm_compute; left).
  pose proof (join_choreography_amended Scenario.one_in_r1 "B" "r1"
                (wf_state_after _) HB) as (Hrun & _ & Hcount & _).
  pose proof (join_choreography_amended Scenario.A_in_room_of_B "B" "r1"
                (wf_state_after _) HB') as (Hrun' & _ & Hcount' & _).
  split_and!.
  - apply wf_state_after.
  - unfold deliveries. rewrite Hrun. vm_compute. reflexivity.
  - unfold deliveries. rewrite Hrun. cbn [snd].
    destruct (Hcount "A") as (_ & _ & _ & ->); [vm_compute; left | done |].
    vm_compute. reflexivity.
  - unfold deliveries. rewrite Hrun'. cbn [snd].
    destruct (Hcount' "A") as (_ & _ & _ & ->); [vm_compute; left | done |].
    vm_compute. reflexivity.
Defined.

(** C2 as stated fails: A is in r1 and has joined the private room of B;
    when B joins r1, A is a member of the room and is not told. *)
Lemma join_private_room_counterexample :
  ¬ (∀ (a : Adapter) (socket roomId m : string),
       wf a → socket ∈ room_members a socket →
       m ∈ room_members a roomId → m ≠ socket →
       received m (PeerJoined socket) (deliveries (on_join socket roomId) a) = 1).
Proof.
  intros Hclaim.
  specialize (Hclaim Scenario.A_in_room_of_B "B" "r1" "A" (wf_state_after _)).
  assert (received "A" (PeerJoined "B")
            (deliveries (on_join "B" "r1") Scenario.A_in_room_of_B) = 0)
    as Hnone by (vm_compute; reflexivity).
  rewrite Hnone in Hclaim. discriminate Hclaim.
  - vm_compute. left.
  - vm_compute. left.
  - done.
Qed.

(** *** Relaying a signal *)

(** C3, as the code has it.  The handler changes no membership.  With a
    non-empty [to] the envelope goes, once each, to the sockets of the
    Socket.IO room named by [to] and to nobody else: to nobody when that
    room has no member (the addressee has disconnected), to the addressee
    alone when it is the only socket of its private room, and not to the
    sender unless the sender is itself in that room.  Without [to] (or with
    an empty one) it goes, once each, to the members of [roomId] that are
    not in the private room of the sender, and to nobody else: not to the
    sender, and not to a member that has joined the sender's private
    room. *)
Theorem relay_routing_amended (a : Adapter) (socket roomId : string)
    (data : SignalData) :
  wf a →
  let out := deliveries (on_signal socket roomId data) a in
  let msg := Signal socket data in
  state_of (on_signal socket roomId data) a = a
  ∧ (∀ t, to data = Some t → t ≠ "" →
       out = (λ m, (m, msg)) <$> room_members a t
       ∧ (∀ m, received m msg out = if bool_decide (m ∈ room_members a t) then 1 else 0)
       ∧ (room_members a t = [] → out = [])
       ∧ (room_members a t = [t] → out = [(t, msg)])
       ∧ ((∀ m, m ∈ room_members a t → m = t) →
          deliveries (on_signal socket roomId data) (state_of (disconnect t) a) = [])
       ∧ (socket ∉ room_members a t → ∀ msg', (socket, msg') ∉ out))
  ∧ (truthy (to data) = false →
       out = (λ m, (m, msg)) <$>
               filter (λ m, m ∉ room_members a socket) (room_members a roomId)
       ∧ (∀ m, m ∈ room_members a roomId →
            received m msg out
            = (if bool_decide (m ∈ room_members a socket) then 0 else 1))
       ∧ (∀ m msg', (m, msg') ∈ out →
            m ∈ room_members a roomId ∧ (m ∉ room_members a socket) ∧ msg' = msg)
       ∧ (socket ∈ room_members a socket → ∀ msg', (socket, msg') ∉ out)).
Proof.
  intros Hwf out msg. unfold out, deliveries, state_of.
  rewrite on_signal_unfold. cbn [fst snd]. split_and!; [done | |].
  - intros t Ht Hne. rewrite Ht. cbn [truthy from_option id].
    assert (String.eqb t "" = false) as -> by by apply String.eqb_neq.
    cbn [negb]. split_and!.
    + done.
    + intros m. rewrite received_broadcast, bool_decide_eq_true_2 by done.
      by apply count_NoDup, room_members_NoDup.
    + by intros ->.
    + by intros ->.
    + intros Honly. rewrite on_signal_unfold, Ht. cbn [fst snd truthy from_option id].
      assert (String.eqb t "" = false) as -> by by apply String.eqb_neq.
      cbn [negb]. rewrite disconnect_unfold. cbn [fst snd].
      rewrite room_members_delAll.
      assert (∀ l : list string, (∀ m, m ∈ l → m ≠ t) → (∀ m, m ∈ l → m = t) → l = [])
        as Hnil.
      { intros [| x l] H1 H2; [done |]. exfalso. apply (H1 x); [left | apply H2; left]. }
      case_decide as Hin.
      * rewrite (Hnil (set_delete t (room_members a t))); [done | |].
        -- intros m Hm. by apply elem_of_set_delete in Hm as [? _].
        -- intros m Hm. apply elem_of_set_delete in Hm as [_ ?]. by apply Honly.
      * rewrite (Hnil (room_members a t)); [done | | done].
        intros m Hm ->. by apply Hin, (wf_consistent a Hwf).
    + intros Hs msg'. rewrite list_elem_of_fmap. intros (m & [= -> _] & Hm). done.
  - intros Hto. rewrite Hto. split_and!.
    + done.
    + intros m Hm. rewrite received_broadcast, bool_decide_eq_true_2 by done.
      rewrite count_filter by by apply room_members_NoDup.
      destruct (decide (m ∈ room_members a socket)) as [Hin | Hout].
      * rewrite bool_decide_eq_false_2 by (intros [_ ?]; done).
        by rewrite bool_decide_eq_true_2.
      * rewrite bool_decide_eq_true_2 by done. by rewrite bool_decide_eq_false_2.
    + intros m msg'. rewrite list_elem_of_fmap.
      intros (x & [= -> ->] & Hx). apply list_elem_of_filter in Hx as [? ?]. done.
    + intros Hconn msg'. rewrite list_elem_of_fmap.
      intros (x & [= <- _] & Hx). by apply list_elem_of_filter in Hx as [? _].
Qed.

Lemma relay_routing_amended_witness :
  wf Scenario.two_in_r1
  ∧ deliveries (on_signal "A" "r1" Scenario.to_B) Scenario.two_in_r1
    = [("B", Signal "A" Scenario.to_B)]
  ∧ deliveries (on_signal "A" "r1" Scenario.to_room) Scenario.two_in_r1
    = [("B", Signal "A" Scenario.to_room)]
  ∧ deliveries (on_signal "B" "r1" Scenario.to_room) Scenario.A_in_room_of_B = [].
Proof.
  pose proof (relay_routing_amended Scenario.two_in_r1 "A" "r1" Scenario.to_B
                (wf_state_after _)) as (_ & Hto & _).
  pose proof (relay_routing_amended Scenario.two_in_r1 "A" "r1" Scenario.to_room
                (wf_state_after _)) as (_ & _ & Hroom).
  pose proof (relay_routing_amended Scenario.A_in_room_of_B "B" "r1" Scenario.to_room
                (wf_state_after _)) as (_ & _ & Hroom').
  split_and!.
  - apply wf_state_after.
  - destruct (Hto "B" eq_refl) as (_ & _ & _ & Hone & _); [done |].
    apply Hone. vm_compute. reflexivity.
  - destruct (Hroom eq_refl) as (-> & _). vm_compute. reflexivity.
  - destruct (Hroom' eq_refl) as (-> & _). vm_compute. reflexivity.
Defined.

(** C3 as stated fails: an envelope that A addresses to its own
    identifier is delivered back to A. *)
Lemma relay_to_self_counterexample :
  ¬ (∀ (a : Adapter) (socket roomId : string) (data : SignalData),
       wf a →
       ∀ d, d ∈ deliveries (on_signal socket roomId data) a → d.1 ≠ socket).
Proof.
  intros Hclaim.
  apply (Hclaim Scenario.two_in_r1 "A" "r1" Scenario.to_self
           (wf_state_after _) ("A", Signal "A" Scenario.to_self));
    [vm_compute; left | reflexivity].
Qed.

(** *** Leaving *)

Lemma elem_of_shared_rooms a c m r :
  r ∈ shared_rooms a c m ↔
  r ∈ socket_rooms a c ∧ r ≠ c ∧ m ∈ room_members a r.
Proof. unfold shared_rooms. rewrite !list_elem_of_filter. tauto. Qed.

Lemma received_notify a c m (rs : list string) :
  wf a →
  received m (PeerLeft c)
    (rs ≫= λ r, (λ x, (x, PeerLeft c)) <$>
                  filter (λ x, x ∉ room_members a c) (room_members a r))
  = if bool_decide (m ∈ room_members a c) then 0
    else length (filter (λ r, m ∈ room_members a r) rs).
Proof.
  intros Hwf. induction rs as [| r rs IH]; [by case_bool_decide |].
  rewrite bind_cons, received_app, IH, received_broadcast.
  rewrite bool_decide_eq_true_2 by done.
  rewrite count_filter by by apply room_members_NoDup.
  destruct (decide (m ∈ room_members a c)) as [Hpriv | Hpriv].
  - rewrite bool_decide_eq_false_2 by (intros [_ ?]; done).
    by rewrite bool_decide_eq_true_2.
  - rewrite (bool_decide_eq_false_2 (m ∈ room_members a c)) by done.
    destruct (decide (m ∈ room_members a r)) as [Hin | Hout].
    + rewrite filter_cons_True by done. by rewrite bool_decide_eq_true_2.
    + rewrite filter_cons_False by done.
      by rewrite bool_decide_eq_false_2 by (intros [? _]; done).
Qed.

(** C4, as the code has it.  When [c] disconnects, a socket [m] that is
    not in the private room of [c] receives one [peer-left(c)] for each
    room, other than that private room, that [c] and [m] are both in:
    exactly one when they share one room, none when they share none.  A
    socket that has joined the private room of [c] receives none, whatever
    it shares with [c], and neither does [c].  Nothing but [peer-left(c)]
    is sent, and afterwards [c] is in no room while the other members stay
    where they were. *)
Theorem departure_notification_amended (a : Adapter) (c : string) :
  wf a →
  let out := deliveries (disconnect c) a in
  let left := state_of (disconnect c) a in
  (∀ m, received m (PeerLeft c) out
        = (if bool_decide (m ∈ room_members a c) then 0
           else length (shared_rooms a c m)))
  ∧ (∀ m r, m ∉ room_members a c → shared_rooms a c m = [r] →
       received m (PeerLeft c) out = 1)
  ∧ (∀ m, shared_rooms a c m = [] → received m (PeerLeft c) out = 0)
  ∧ (∀ m msg, (m, msg) ∈ out →
       msg = PeerLeft c ∧ (m ∉ room_members a c) ∧ ∃ r, r ∈ shared_rooms a c m)
  ∧ (c ∈ room_members a c → ∀ msg, (c, msg) ∉ out)
  ∧ (∀ m r, r ∈ shared_rooms a c m ↔
            r ≠ c ∧ c ∈ room_members a r ∧ m ∈ room_members a r)
  ∧ (∀ r, c ∉ room_members left r)
  ∧ (∀ r m, m ≠ c → m ∈ room_members left r ↔ m ∈ room_members a r).
Proof.
  intros Hwf out left.
  assert (out = filter (λ r, r ≠ c) (socket_rooms a c) ≫= λ r,
            (λ x, (x, PeerLeft c)) <$>
              filter (λ x, x ∉ room_members a c) (room_members a r))
    as Hout.
  { unfold out, deliveries. rewrite disconnect_unfold. cbn [snd].
    unfold deliveries. by rewrite on_disconnecting_unfold. }
  assert (∀ m msg, (m, msg) ∈ out →
            msg = PeerLeft c ∧ (m ∉ room_members a c) ∧ ∃ r, r ∈ shared_rooms a c m)
    as Hin.
  { intros m msg. rewrite Hout, list_elem_of_bind.
    intros (r & Hd & Hr). apply list_elem_of_fmap in Hd as (x & [= -> ->] & Hx).
    apply list_elem_of_filter in Hx as [Hxc Hx].
    apply list_elem_of_filter in Hr as [Hrc Hr].
    split_and!; [done | done |]. exists r. by apply elem_of_shared_rooms. }
  assert (left = delAll c a) as Hleft.
  { unfold left, state_of. by rewrite disconnect_unfold. }
  split_and!.
  - intros m. rewrite Hout. by apply received_notify.
  - intros m r Hm Hr. rewrite Hout, received_notify by done.
    rewrite bool_decide_eq_false_2 by done.
    fold (shared_rooms a c m). by rewrite Hr.
  - intros m Hm. apply received_zero. intros Hd.
    apply Hin in Hd as (_ & _ & r & Hr). rewrite Hm in Hr.
    by apply elem_of_nil in Hr.
  - done.
  - intros Hconn msg Hd. by apply Hin in Hd as (_ & ? & _).
  - intros m r. rewrite elem_of_shared_rooms, <- (wf_consistent a Hwf r c). tauto.
  - intros r. rewrite Hleft, room_members_delAll. case_decide as Hr.
    + rewrite elem_of_set_delete. by intros [? _].
    + by rewrite (wf_consistent a Hwf).
  - intros r m Hm. rewrite Hleft, room_members_delAll. case_decide as Hr; [| done].
    rewrite elem_of_set_delete. tauto.
Qed.

Lemma departure_notification_amended_witness :
  wf Scenario.two_in_r1
  ∧ received "B" (PeerLeft "A") (deliveries (disconnect "A") Scenario.two_in_r1) = 1
  ∧ received "A" (PeerLeft "B")
      (deliveries (disconnect "B") Scenario.A_follows_B) = 0.
Proof.
  pose proof (departure_notification_amended Scenario.two_in_r1 "A"
                (wf_state_after _)) as (_ & Hone & _).
  pose proof (departure_notification_amended Scenario.A_follows_B "B"
                (wf_state_after _)) as (Hall & _).
  split_and!.
  - apply wf_state_after.
  - apply (Hone "B" "r1"); [| vm_compute; reflexivity].
    vm_compute. intros Hin. apply list_elem_of_singleton in Hin. discriminate Hin.
  - rewrite Hall. vm_compute. reflexivity.
Defined.

(** C4 as stated fails: B shares the rooms r1 and r2 with A, and receives
    two [peer-left(A)] when A disconnects. *)
Lemma departure_two_rooms_counterexample :
  ¬ (∀ (a : Adapter) (c m r : string),
       wf a →
       r ∈ socket_rooms a c → r ≠ c → m ∈ room_members a r → m ≠ c →
       received m (PeerLeft c) (deliveries (disconnect c) a) = 1).
Proof.
  intros Hclaim.
  specialize (Hclaim Scenario.two_in_two_rooms "A" "B" "r1" (wf_state_after _)).
  assert (received "B" (PeerLeft "A")
            (deliveries (disconnect "A") Scenario.two_in_two_rooms) = 2)
    as Htwo by (vm_compute; reflexivity).
  rewrite Htwo in Hclaim. discriminate Hclaim.
  - vm_compute. right. left.
  - done.
  - vm_compute. right. left.
  - done.
Qed.

(** *** The ICE endpoint *)

(** C9. Whatever the environment holds, the response of [/ice.json]
    carries at least one server; with none of the four variables set it
    carries the five hardcoded ones. *)
Theorem ice_json_nonempty (env : Env) :
  ice_json env ≠ []
  ∧ 0 < length (ice_json env)
  ∧ (STUN_URL env = None → TURN_URL env = None →
     TURN_USERNAME env = None → TURN_PASSWORD env = None →
     ice_json env = fallback_servers ∧ length (ice_json env) = 5).
Proof.
  destruct env as [stun turn user pass]. unfold ice_json.
  cbn [STUN_URL TURN_URL TURN_USERNAME TURN_PASSWORD].
  split_and!.
  - destruct (truthy stun), (truthy turn && truthy user && truthy pass); done.
  - destruct (truthy stun), (truthy turn && truthy user && truthy pass); cbn; lia.
  - intros -> -> -> ->. done.
Qed.

Lemma ice_json_nonempty_witness :
  Server.ice_json Scenario.no_env = fallback_servers
  ∧ length (Server.ice_json Scenario.stun_only) = 1.
Proof.
  split.
  - apply (ice_json_nonempty Scenario.no_env); reflexivity.
  - reflexivity.
Defined.

End ServerSpec.

(** * Properties of the client *)

Module ClientSpec.
Import Client.

(** *** Creating a connection *)

Lemma alter_app_last {A} (f : A → A) (l : list A) (x : A) :
  alter f (length l) (l ++ [x]) = l ++ [f x].
Proof. induction l as [| y l IH]; [done |]. cbn. by rewrite IH. Qed.

Lemma forEach_addTrack (ts : list MediaStreamTrack) s hp c :
  heap s = hp ++ [c] →
  forEach ts (λ track, addTrack (length hp) track) s =
  (tt, set_heap (hp ++ [ {| configuration := configuration c; closed := closed c;
                           senders := senders c ++ (track_id <$> ts);
                           listeners := listeners c |} ]) s).
Proof.
  revert s c. induction ts as [| t ts IH]; intros s c Hheap.
  - cbn. rewrite app_nil_r. destruct c, s. cbn in *. by subst.
  - cbn [forEach]. unfold mbind, Sync_bind, addTrack at 1, update_pc, modify.
    erewrite IH.
    2:{ cbn. rewrite Hheap. apply alter_app_last. }
    cbn. rewrite <- app_assoc. by destruct s.
Qed.

Lemma createPeerConnection_existing s p pc :
  peerConnections s !! p = Some pc → createPeerConnection p s = (pc, s).
Proof.
  intros Hp. unfold createPeerConnection, mbind, Sync_bind, gets. by rewrite Hp.
Qed.

Lemma createPeerConnection_new s p :
  peerConnections s !! p = None →
  createPeerConnection p s = (length (heap s), register p s).
Proof.
  intros Hp. unfold createPeerConnection, mbind, Sync_bind, gets. rewrite Hp.
  unfold register, fresh_connection.
  destruct (localStream s) as [stream |] eqn:Hstream.
  - cbn. rewrite Hstream.
    erewrite forEach_addTrack by (cbn; reflexivity).
    cbn. rewrite !alter_app_last. cbn. by destruct s.
  - cbn. by rewrite Hstream.
Qed.

(** *** Invariants of programs *)

Lemma preserves_gets (I : Client → Prop) {A} (f : Client → A) : preserves I (gets f).
Proof. by intros s. Qed.

Lemma preserves_bind (I : Client → Prop) {A B} (m : Sync A) (f : A → Sync B) :
  preserves I m → (∀ x, preserves I (f x)) → preserves I (m ≫= f).
Proof.
  intros Hm Hf s Hs. unfold mbind, Sync_bind.
  specialize (Hm s Hs). destruct (m s) as [x s1]. by apply Hf.
Qed.

Lemma preserves_forEach (I : Client → Prop) {A} (l : list A) (f : A → Sync unit) :
  (∀ x, x ∈ l → preserves I (f x)) → preserves I (forEach l f).
Proof.
  induction l as [| x l IH]; intros Hf; [by intros s |].
  cbn [forEach]. apply preserves_bind.
  - apply Hf. left.
  - intros _. apply IH. intros y Hy. apply Hf. by right.
Qed.

Lemma all_sync_bind (I : Client → Prop) {A B} (p : Prog A) (f : A → Prog B) :
  all_sync I p → (∀ a, all_sync I (f a)) → all_sync I (p ≫= f).
Proof.
  intros Hp Hf. unfold mbind, Prog_bind.
  induction p as [a | | X m k IH | op k IH]; cbn in *.
  - apply Hf.
  - done.
  - destruct Hp as [Hm Hk]. split; [done |]. intros x. by apply IH.
  - intros o. by apply IH.
Qed.

Lemma all_sync_sync (I : Client → Prop) {A} (m : Sync A) :
  preserves I m → all_sync I (sync m).
Proof. intros Hm. by split. Qed.

Lemma all_sync_await (I : Client → Prop) (op : Op) : all_sync I (await op).
Proof. intros o. by destruct o. Qed.

Lemma all_sync_try_catch (I : Client → Prop) (p : Prog unit) :
  all_sync I p → all_sync I (try_catch p).
Proof.
  induction p as [a | | X m k IH | op k IH]; cbn; try done.
  - intros [Hm Hk]. split; [done |]. intros x. by apply IH.
  - intros Hk o. by apply IH.
Qed.

(** A program whose synchronous steps keep [I] keeps it, whatever the
    browser answers, as long as logging an [await] keeps it. *)
Lemma run_preserves (I : Client → Prop) {A} (p : Prog A) :
  (∀ s op b, I s → I (set_trace (trace s ++ [Awaited op b]) s)) →
  all_sync I p →
  ∀ browser s, I s → I (run browser p s).2.
Proof.
  intros Hlog Hp browser.
  induction p as [a | | X m k IH | op k IH]; intros s Hs; cbn in *.
  - done.
  - done.
  - destruct Hp as [Hm Hk]. specialize (Hm s Hs).
    destruct (m s) as [x s1]. by apply IH.
  - apply IH; [apply Hp | by apply Hlog].
Qed.

(** *** The registry and the heap agree *)

Lemma registry_ok_frame s s' :
  heap s' = heap s → peerConnections s' = peerConnections s →
  remoteVideos s' = remoteVideos s → registry_ok s → registry_ok s'.
Proof.
  intros Hh Hp Hv [H1 H2 H3 H4 H5].
  split; rewrite ?Hh, ?Hp, ?Hv; done.
Qed.

Lemma registry_ok_init : registry_ok init.
Proof.
  split; cbn.
  - intros p pc. by rewrite lookup_empty.
  - intros p q pc. by rewrite lookup_empty.
  - intros pc c. by rewrite lookup_nil.
  - intros pc c l. by rewrite lookup_nil.
  - intros p. rewrite lookup_empty. by intros [? ?].
Qed.

Lemma registry_ok_register s p :
  peerConnections s !! p = None → registry_ok s → registry_ok (register p s).
Proof.
  intros Hp [Hlive Hinj Hall Hlis Hvid].
  assert (∀ q pc, peerConnections s !! q = Some pc → pc < length (heap s)) as Hlt.
  { intros q pc Hq. destruct (Hlive q pc Hq) as (c & Hc & _).
    by eapply lookup_lt_Some. }
  split; cbn.
  - intros q pc. destruct (decide (q = p)) as [-> | Hne].
    + rewrite lookup_insert_eq. intros [= <-].
      exists (fresh_connection s p). split; [| done].
      by rewrite lookup_app_r, Nat.sub_diag.
    + rewrite lookup_insert_ne by done. intros Hq.
      destruct (Hlive q pc Hq) as (c & Hc & Hopen). exists c.
      split; [| done]. rewrite lookup_app_l; [done | by eapply lookup_lt_Some].
  - intros q q' pc.
    destruct (decide (q = p)) as [-> | Hq], (decide (q' = p)) as [-> | Hq'];
      rewrite ?lookup_insert_eq, ?lookup_insert_ne by done.
    + done.
    + intros [= <-] Hq2. apply Hlt in Hq2. lia.
    + intros Hq1 [= <-]. apply Hlt in Hq1. lia.
    + apply Hinj.
  - intros pc c Hc Hopen.
    destruct (decide (pc < length (heap s))) as [Hpc | Hpc].
    + rewrite lookup_app_l in Hc by done.
      destruct (Hall pc c Hc Hopen) as [q Hq]. exists q.
      rewrite lookup_insert_ne; [done |]. intros ->. congruence.
    + exists p. rewrite lookup_insert_eq. f_equal.
      apply lookup_lt_Some in Hc. rewrite length_app in Hc. cbn in Hc. lia.
  - intros pc c l Hc Hopen Hl.
    destruct (decide (pc < length (heap s))) as [Hpc | Hpc].
    + rewrite lookup_app_l in Hc by done.
      pose proof (Hlis pc c l Hc Hopen Hl) as Hq.
      rewrite lookup_insert_ne; [done |]. intros Heq. rewrite <- Heq in Hq. congruence.
    + assert (pc = length (heap s)) as ->.
      { apply lookup_lt_Some in Hc. rewrite length_app in Hc. cbn in Hc. lia. }
      rewrite lookup_app_r, Nat.sub_diag in Hc by done. injection Hc as <-.
      unfold fresh_connection in Hl. cbn in Hl.
      destruct (localStream s); [| by apply elem_of_nil in Hl].
      apply elem_of_cons in Hl as [-> | Hl]; [by rewrite lookup_insert_eq |].
      apply list_elem_of_singleton in Hl as ->. by rewrite lookup_insert_eq.
  - intros q Hq. apply Hvid in Hq.
    destruct (decide (q = p)) as [-> | Hne];
      [by rewrite lookup_insert_eq | by rewrite lookup_insert_ne].
Qed.

Lemma registry_ok_createPeerConnection p :
  preserves registry_ok (createPeerConnection p).
Proof.
  intros s Hs. destruct (peerConnections s !! p) as [pc |] eqn:Hp.
  - by rewrite (createPeerConnection_existing s p pc).
  - rewrite createPeerConnection_new by done. by apply registry_ok_register.
Qed.

Lemma on_peer_left_unfold p s :
  on_peer_left p s = (tt, drop_video p (close_connection p s)).
Proof.
  unfold on_peer_left, close_connection, drop_video, pc_close, log, update_pc,
    modify, mbind, Sync_bind, gets.
  destruct (peerConnections s !! p) as [pc |]; cbn;
    destruct (remoteVideos s !! p); reflexivity.
Qed.

Lemma registry_ok_close_connection p s :
  registry_ok s →
  (∀ q, q ≠ p → is_Some (remoteVideos s !! q) →
        is_Some (peerConnections (close_connection p s) !! q))
  ∧ (∀ q pc, peerConnections (close_connection p s) !! q = Some pc →
       ∃ c, heap (close_connection p s) !! pc = Some c ∧ closed c = false)
  ∧ (∀ q q' pc, peerConnections (close_connection p s) !! q = Some pc →
       peerConnections (close_connection p s) !! q' = Some pc → q = q')
  ∧ (∀ pc c, heap (close_connection p s) !! pc = Some c → closed c = false →
       ∃ q, peerConnections (close_connection p s) !! q = Some pc)
  ∧ (∀ pc c l, heap (close_connection p s) !! pc = Some c → closed c = false →
       l ∈ listeners c →
       peerConnections (close_connection p s) !! listener_peer l = Some pc).
Proof.
  intros [Hlive Hinj Hall Hlis Hvid]. unfold close_connection.
  destruct (peerConnections s !! p) as [pc0 |] eqn:Hp; cbn.
  2:{ split_and!; try done. intros q _ Hq. by apply Hvid. }
  assert (∀ pc c, alter (λ c, {| configuration := configuration c; closed := true;
                                  senders := senders c; listeners := listeners c |})
                    pc0 (heap s) !! pc = Some c →
                  closed c = false → pc ≠ pc0 ∧ heap s !! pc = Some c) as Halt.
  { intros pc c Hc Hopen. destruct (decide (pc = pc0)) as [-> | Hne].
    - rewrite list_lookup_alter_eq in Hc.
      destruct (heap s !! pc0); cbn in Hc; [| done].
      injection Hc as <-. done.
    - by rewrite list_lookup_alter_ne in Hc. }
  split_and!.
  - intros q Hne Hq. rewrite lookup_delete_ne by done. by apply Hvid.
  - intros q pc. destruct (decide (q = p)) as [-> | Hne];
      [by rewrite lookup_delete_eq | rewrite lookup_delete_ne by done].
    intros Hq. destruct (Hlive q pc Hq) as (c & Hc & Hopen). exists c.
    split; [| done]. rewrite list_lookup_alter_ne; [done |].
    intros <-. apply Hne. by eapply Hinj.
  - intros q q' pc.
    destruct (decide (q = p)) as [-> | Hq]; [by rewrite lookup_delete_eq |].
    destruct (decide (q' = p)) as [-> | Hq']; [by rewrite (lookup_delete_eq _ p) |].
    rewrite !lookup_delete_ne by done. apply Hinj.
  - intros pc c Hc Hopen. destruct (Halt pc c Hc Hopen) as [Hne Hc'].
    destruct (Hall pc c Hc' Hopen) as [q Hq]. exists q.
    rewrite lookup_delete_ne; [done |]. intros <-. congruence.
  - intros pc c l Hc Hopen Hl. destruct (Halt pc c Hc Hopen) as [Hne Hc'].
    pose proof (Hlis pc c l Hc' Hopen Hl) as Hq.
    rewrite lookup_delete_ne; [done |]. intros Heq. rewrite <- Heq in Hq. congruence.
Qed.

Lemma heap_drop_video p s : heap (drop_video p s) = heap s.
Proof. unfold drop_video. by destruct (remoteVideos s !! p). Qed.

Lemma peerConnections_drop_video p s :
  peerConnections (drop_video p s) = peerConnections s.
Proof. unfold drop_video. by destruct (remoteVideos s !! p). Qed.

Lemma remoteVideos_drop_video p s :
  remoteVideos (drop_video p s) = delete p (remoteVideos s).
Proof.
  unfold drop_video. destruct (remoteVideos s !! p) eqn:Hp; [done |].
  symmetry. by apply delete_id.
Qed.

Lemma remoteVideos_close_connection p s :
  remoteVideos (close_connection p s) = remoteVideos s.
Proof. unfold close_connection. by destruct (peerConnections s !! p). Qed.

Lemma registry_ok_on_peer_left p : preserves registry_ok (on_peer_left p).
Proof.
  intros s Hs. rewrite on_peer_left_unfold. cbn [snd].
  destruct (registry_ok_close_connection p s Hs) as (Hvid & Hlive & Hinj & Hall & Hlis).
  split; rewrite ?heap_drop_video, ?peerConnections_drop_video,
           ?remoteVideos_drop_video; try done.
  intros q. destruct (decide (q = p)) as [-> | Hne].
  - rewrite lookup_delete_eq. by intros [? ?].
  - rewrite lookup_delete_ne, remoteVideos_close_connection by done. by apply Hvid.
Qed.

(** *** Events fired on a connection *)

Lemma preserves_fire (I : Client → Prop) pc (body : Listener → Sync unit) :
  (∀ c l, l ∈ listeners c →
     preserves (λ s, I s ∧ heap s !! pc = Some c ∧ closed c = false) (body l)) →
  preserves I (fire pc body).
Proof.
  intros Hbody s Hs. unfold fire, mbind, Sync_bind, gets.
  destruct (heap s !! pc) as [c |] eqn:Hc; [| done].
  destruct (closed c) eqn:Hopen; [done |].
  apply (preserves_forEach (λ s, I s ∧ heap s !! pc = Some c ∧ closed c = false)
           (listeners c) body); [| done].
  intros l Hl. by apply Hbody.
Qed.

Lemma on_track_fields p streams s :
  let s' := (on_track p streams s).2 in
  heap s' = heap s ∧ peerConnections s' = peerConnections s
  ∧ trace s' = trace s
  ∧ (∀ q, q ≠ p → remoteVideos s' !! q = remoteVideos s !! q).
Proof.
  unfold on_track, mbind, Sync_bind, gets, modify.
  destruct (remoteVideos s !! p) as [v |] eqn:Hp; cbn; split_and!; try done.
  - intros q Hq. by rewrite lookup_alter_ne.
  - intros q Hq. by rewrite lookup_alter_ne, lookup_insert_ne.
Qed.

Lemma on_icecandidate_fields p candidate s :
  let s' := (on_icecandidate p candidate s).2 in
  heap s' = heap s ∧ peerConnections s' = peerConnections s
  ∧ remoteVideos s' = remoteVideos s
  ∧ (trace s' = trace s
     ∨ trace s' = trace s ++
         [Emitted (SignalTo (roomId s)
            {| type := "candidate"; sdp := None;
               candidate := candidate; to := Some p |})]).
Proof.
  unfold on_icecandidate, mbind, Sync_bind, gets. cbn.
  destruct (bool_decide (is_Some candidate) && truthy (roomId s)); cbn; auto.
Qed.

Lemma registry_ok_on_track pc c p streams :
  TrackListener p ∈ listeners c →
  preserves (λ s, registry_ok s ∧ heap s !! pc = Some c ∧ closed c = false)
    (on_track p streams).
Proof.
  intros Hl s (Hs & Hc & Hopen).
  destruct (on_track_fields p streams s) as (Hh & Hp & _ & Hv).
  rewrite Hh. split; [| done].
  pose proof (reg_listeners s Hs pc c _ Hc Hopen Hl) as Hreg. cbn in Hreg.
  destruct Hs as [Hlive Hinj Hall Hlis Hvid].
  split; rewrite ?Hh, ?Hp; try done.
  intros q Hq. destruct (decide (q = p)) as [-> | Hne]; [by rewrite Hreg |].
  rewrite Hv in Hq by done. by apply Hvid.
Qed.

Lemma registry_ok_on_track_event pc streams :
  preserves registry_ok (on_track_event pc streams).
Proof.
  apply preserves_fire. intros c [p | p] Hl; [| by intros s].
  by apply registry_ok_on_track.
Qed.

Lemma registry_ok_on_icecandidate_event pc candidate :
  preserves registry_ok (on_icecandidate_event pc candidate).
Proof.
  apply preserves_fire. intros c [p | p] Hl; [by intros s |].
  intros s (Hs & Hc & Hopen).
  destruct (on_icecandidate_fields p candidate s) as (Hh & Hp & Hv & _).
  rewrite Hh. split; [| done]. by apply (registry_ok_frame s).
Qed.

(** *** The other handlers leave the registry, the heap and the videos alone *)

Lemma registry_ok_modify f :
  (∀ s, heap (f s) = heap s ∧ peerConnections (f s) = peerConnections s
        ∧ remoteVideos (f s) = remoteVideos s) →
  preserves registry_ok (modify f).
Proof.
  intros Hf s Hs. destruct (Hf s) as (? & ? & ?). by apply (registry_ok_frame s).
Qed.

Lemma registry_ok_log e : preserves registry_ok (log e).
Proof. by apply registry_ok_modify. Qed.

Lemma registry_ok_on_toggle_cam : preserves registry_ok on_toggle_cam.
Proof.
  intros s Hs. unfold on_toggle_cam, mbind, Sync_bind, gets, modify.
  destruct (localStream s) as [stream |]; [| done].
  destruct (set_first_video _ _); [| done].
  by apply (registry_ok_frame s).
Qed.

Lemma registry_ok_on_ice_config servers : preserves registry_ok (on_ice_config servers).
Proof.
  intros s Hs. destruct servers as [l |]; [| done]. by apply (registry_ok_frame s).
Qed.

Lemma registry_ok_makeCall p : all_sync registry_ok (makeCall p).
Proof.
  unfold makeCall.
  apply all_sync_bind; [apply all_sync_sync, registry_ok_createPeerConnection |].
  intros pc. apply all_sync_bind; [apply all_sync_await |].
  intros offer. apply all_sync_bind; [apply all_sync_await |].
  intros _. apply all_sync_bind; [by apply all_sync_sync, preserves_gets |].
  intros room. apply all_sync_sync, registry_ok_log.
Qed.

Lemma registry_ok_handleOffer from sdp : all_sync registry_ok (handleOffer from sdp).
Proof.
  unfold handleOffer.
  apply all_sync_bind; [apply all_sync_sync, registry_ok_createPeerConnection |].
  intros pc. apply all_sync_bind; [apply all_sync_await |].
  intros _. apply all_sync_bind; [apply all_sync_await |].
  intros answer. apply all_sync_bind; [apply all_sync_await |].
  intros _. apply all_sync_bind; [by apply all_sync_sync, preserves_gets |].
  intros room. apply all_sync_sync, registry_ok_log.
Qed.

Lemma all_sync_handleAnswer (I : Client → Prop) from sdp :
  all_sync I (handleAnswer from sdp).
Proof.
  unfold handleAnswer.
  apply all_sync_bind; [by apply all_sync_sync, preserves_gets |].
  intros [pc |]; [apply all_sync_await | done].
Qed.

Lemma all_sync_handleCandidate (I : Client → Prop) from candidate :
  all_sync I (handleCandidate from candidate).
Proof.
  unfold handleCandidate.
  apply all_sync_bind; [by apply all_sync_sync, preserves_gets |].
  intros [pc |]; [apply all_sync_try_catch, all_sync_await | done].
Qed.

Lemma registry_ok_on_signal from data : all_sync registry_ok (on_signal from data).
Proof.
  unfold on_signal.
  destruct (String.eqb (type data) "offer"); [apply registry_ok_handleOffer |].
  destruct (String.eqb (type data) "answer"); [apply all_sync_handleAnswer |].
  destruct (String.eqb (type data) "candidate"); [apply all_sync_handleCandidate |].
  done.
Qed.

Lemma registry_ok_initMedia : all_sync registry_ok initMedia.
Proof.
  unfold initMedia. apply all_sync_bind; [apply all_sync_await |].
  intros stream. apply all_sync_bind; [by apply all_sync_sync, registry_ok_modify |].
  intros _. by apply all_sync_sync, registry_ok_modify.
Qed.

Lemma registry_ok_on_join_click value : all_sync registry_ok (on_join_click value).
Proof.
  unfold on_join_click.
  apply all_sync_bind; [by apply all_sync_sync, registry_ok_modify |].
  intros _. apply all_sync_bind; [by apply all_sync_sync, preserves_gets |].
  intros room. destruct (negb (truthy room)); [apply all_sync_sync, registry_ok_log |].
  apply all_sync_bind; [apply registry_ok_initMedia |].
  intros _. apply all_sync_bind; [by apply all_sync_sync, preserves_gets |].
  intros room'. apply all_sync_sync, registry_ok_log.
Qed.

Lemma registry_ok_handler ev : all_sync registry_ok (handler ev).
Proof.
  destruct ev as [servers | value | | [p | from data | p] | pc streams | pc candidate];
    cbn [handler].
  - apply all_sync_sync, registry_ok_on_ice_config.
  - apply registry_ok_on_join_click.
  - apply all_sync_sync, registry_ok_on_toggle_cam.
  - apply registry_ok_makeCall.
  - apply registry_ok_on_signal.
  - apply all_sync_sync, registry_ok_on_peer_left.
  - apply all_sync_sync, registry_ok_on_track_event.
  - apply all_sync_sync, registry_ok_on_icecandidate_event.
Qed.

Lemma stable_registry_ok : stable registry_ok.
Proof.
  split.
  - intros s s' Hh Hp Hv _ Hs. by apply (registry_ok_frame s).
  - intros e s _ Hs. by apply (registry_ok_frame s).
Qed.

(** *** Handlers that interleave *)

Lemma run_sync {A} browser (m : Sync A) s :
  run browser (sync m) s = (Returned (m s).1, (m s).2).
Proof. cbn. by destruct (m s). Qed.

Lemma advance_keeps (I : Client → Prop) (p : Prog unit) s :
  all_sync I p → I s → I (advance p s).1.
Proof.
  revert s. induction p as [a | | X m k IH | op k IH]; intros s Hp Hs; cbn in *;
    try done.
  destruct Hp as [Hm Hk]. specialize (Hm s Hs).
  destruct (m s) as [x s1]. by apply IH.
Qed.

Lemma passive_cont {A X} (m : Sync X) (k : X → Prog A) x :
  passive (Do m k) → passive (k x).
Proof. intros Hp I HI. destruct (Hp I HI) as [_ Hk]. apply Hk. Qed.

Lemma passive_suspends {A} (p : Prog A) : passive p → suspends_passive p.
Proof.
  induction p as [a | | X m k IH | op k IH]; intros Hp; cbn; try done.
  - intros x. by eapply IH, passive_cont.
  - intros o I HI. by apply (Hp I HI).
Qed.

Lemma advance_task_passive (p : Prog unit) s t :
  suspends_passive p → (advance p s).2 = Some t → ∀ o, passive (resume t o).
Proof.
  revert s. induction p as [a | | X m k IH | op k IH]; intros s Hp; cbn in *;
    try done.
  - destruct (m s) as [x s1]. by apply IH.
  - intros [= <-]. exact Hp.
Qed.

Lemma passive_bind {A B} (p : Prog A) (f : A → Prog B) :
  passive p → (∀ a, passive (f a)) → passive (p ≫= f).
Proof. intros Hp Hf I HI. apply all_sync_bind; [by apply Hp | intros a; by apply Hf]. Qed.

Lemma passive_await op : passive (await op).
Proof. intros I HI. apply all_sync_await. Qed.

Lemma passive_gets {A} (f : Client → A) : passive (sync (gets f)).
Proof. intros I HI. by apply all_sync_sync, preserves_gets. Qed.

Lemma passive_log e : not_candidate e → passive (sync (log e)).
Proof.
  intros He I HI. apply all_sync_sync. intros s Hs.
  exact (stable_log I HI e s He Hs).
Qed.

Lemma passive_modify f :
  (∀ s, heap (f s) = heap s ∧ peerConnections (f s) = peerConnections s
        ∧ remoteVideos (f s) = remoteVideos s ∧ trace (f s) = trace s) →
  passive (sync (modify f)).
Proof.
  intros Hf I HI. apply all_sync_sync. intros s Hs.
  destruct (Hf s) as (? & ? & ? & ?). by apply (stable_frame I HI s).
Qed.

Lemma suspends_passive_bind_sync {A B} (m : Sync A) (f : A → Prog B) :
  (∀ x, suspends_passive (f x)) → suspends_passive (sync m ≫= f).
Proof. intros Hf. cbn. exact Hf. Qed.

Lemma suspends_passive_makeCall p : suspends_passive (makeCall p).
Proof.
  unfold makeCall. apply suspends_passive_bind_sync. intros pc.
  apply passive_suspends, passive_bind; [apply passive_await |].
  intros offer. apply passive_bind; [apply passive_await |].
  intros _. apply passive_bind; [apply passive_gets |].
  intros room. apply passive_log. by intros ?? [= _ <-].
Qed.

Lemma suspends_passive_handleOffer from sdp : suspends_passive (handleOffer from sdp).
Proof.
  unfold handleOffer. apply suspends_passive_bind_sync. intros pc.
  apply passive_suspends, passive_bind; [apply passive_await |].
  intros _. apply passive_bind; [apply passive_await |].
  intros answer. apply passive_bind; [apply passive_await |].
  intros _. apply passive_bind; [apply passive_gets |].
  intros room. apply passive_log. by intros ?? [= _ <-].
Qed.

Lemma passive_handleAnswer from sdp : passive (handleAnswer from sdp).
Proof. intros I HI. apply all_sync_handleAnswer. Qed.

Lemma passive_handleCandidate from candidate : passive (handleCandidate from candidate).
Proof. intros I HI. apply all_sync_handleCandidate. Qed.

Lemma passive_on_join_click value : passive (on_join_click value).
Proof.
  unfold on_join_click. apply passive_bind; [by apply passive_modify |].
  intros _. apply passive_bind; [apply passive_gets |].
  intros room. destruct (negb (truthy room)); [apply passive_log; by intros ?? |].
  apply passive_bind.
  { unfold initMedia. apply passive_bind; [apply passive_await |].
    intros stream. apply passive_bind; [by apply passive_modify |].
    intros _. by apply passive_modify. }
  intros _. apply passive_bind; [apply passive_gets |].
  intros room'. apply passive_log. by intros ??.
Qed.

Lemma suspends_passive_handler ev : suspends_passive (handler ev).
Proof.
  destruct ev as [servers | value | | [p | from data | p] | pc streams | pc candidate];
    cbn [handler]; try done.
  - apply passive_suspends, passive_on_join_click.
  - apply suspends_passive_makeCall.
  - unfold on_signal.
    destruct (String.eqb (type data) "offer"); [apply suspends_passive_handleOffer |].
    destruct (String.eqb (type data) "answer");
      [apply passive_suspends, passive_handleAnswer |].
    destruct (String.eqb (type data) "candidate");
      [apply passive_suspends, passive_handleCandidate | done].
Qed.

Lemma tasks_passive_spawn p s others :
  suspends_passive p →
  Forall (λ t, ∀ o, passive (resume t o)) others →
  tasks_passive (spawn p s others).
Proof.
  intros Hp Hothers. unfold tasks_passive, spawn. cbn.
  apply Forall_app. split; [done |].
  destruct (advance p s).2 as [t |] eqn:Ht; cbn; [| constructor].
  constructor; [| constructor]. by eapply advance_task_passive.
Qed.

Lemma tasks_passive_step st l : tasks_passive l → tasks_passive (step st l).
Proof.
  intros Hl. destruct st as [ev | i browser]; cbn [step].
  - apply tasks_passive_spawn; [apply suspends_passive_handler | done].
  - destruct (pending l !! i) as [t |] eqn:Ht; [| done].
    apply tasks_passive_spawn.
    + apply passive_suspends. eapply Forall_lookup_1 in Hl; [| exact Ht]. apply Hl.
    + unfold tasks_passive in Hl. by apply Forall_delete.
Qed.

Lemma tasks_passive_run_steps steps l :
  tasks_passive l → tasks_passive (run_steps steps l).
Proof.
  revert l. induction steps as [| st steps IH]; intros l Hl; [done |].
  cbn. by apply IH, tasks_passive_step.
Qed.

Lemma tasks_passive_reachable l : reachable_loop l → tasks_passive l.
Proof. intros [steps ->]. apply tasks_passive_run_steps. constructor. Qed.

(** A stable property that the handler of every admitted event keeps is
    kept by every turn of the loop, however the handlers interleave. *)
Lemma step_keeps (I : Client → Prop) st l :
  stable I → tasks_passive l →
  (∀ ev, st = External ev → all_sync I (handler ev)) →
  I (client l) → I (client (step st l)).
Proof.
  intros HI Hl Hev Hs. destruct st as [ev | i browser]; cbn [step].
  - unfold spawn. cbn. apply advance_keeps; [by apply Hev | done].
  - destruct (pending l !! i) as [t |] eqn:Ht; [| done].
    unfold spawn. cbn. apply advance_keeps.
    + eapply Forall_lookup_1 in Hl; [| exact Ht]. by apply Hl.
    + apply (stable_log I HI); [by intros ?? | done].
Qed.

Lemma run_steps_app steps1 steps2 l :
  run_steps (steps1 ++ steps2) l = run_steps steps2 (run_steps steps1 l).
Proof. revert l. induction steps1 as [| st steps1 IH]; intros l; [done |]. apply IH. Qed.

(** Running a handler to its end is one of the schedules of the loop: the
    one in which the browser settles each of its calls before anything
    else happens. *)
Lemma run_is_schedule browser (p : Prog unit) s others :
  ∃ n, run_steps (replicate n (Settle (length others) browser)) (spawn p s others)
       = {| client := (run browser p s).2; pending := others |}.
Proof.
  revert s. induction p as [a | | X m k IH | op k IH]; intros s.
  - exists 0. unfold spawn. cbn. by rewrite app_nil_r.
  - exists 0. unfold spawn. cbn. by rewrite app_nil_r.
  - destruct (m s) as [x s1] eqn:Hm. destruct (IH x s1) as [n Hn]. exists n.
    unfold spawn in *. cbn. by rewrite Hm.
  - destruct (IH (browser op)
                (set_trace (trace s ++ [Awaited op (is_fulfilled (browser op))]) s))
      as [n Hn].
    exists (S n). cbn [replicate run_steps]. unfold spawn at 1. cbn [advance fst snd].
    cbn [step client pending].
    change (option_list (Some {| awaited := op; resume := k |}))
      with [ {| awaited := op; resume := k |} ].
    rewrite lookup_app_r, Nat.sub_diag by done. cbn [lookup list_lookup awaited resume].
    assert (delete (length others) (others ++ [ {| awaited := op; resume := k |} ])
            = others) as ->.
    { clear. induction others as [| t others IH]; [done |]. cbn. f_equal. exact IH. }
    exact Hn.
Qed.

Lemma handle_is_schedule browser ev l :
  ∃ steps, run_steps steps l
           = {| client := handle browser ev (client l); pending := pending l |}.
Proof.
  destruct (run_is_schedule browser (handler ev) (client l) (pending l)) as [n Hn].
  by exists (External ev :: replicate n (Settle (length (pending l)) browser)).
Qed.

Lemma reachable_handle browser ev s : reachable s → reachable (handle browser ev s).
Proof.
  intros (l & [steps ->] & ->).
  destruct (handle_is_schedule browser ev (run_steps steps start)) as [steps' Hl].
  exists (run_steps steps' (run_steps steps start)). split.
  - exists (steps ++ steps'). by rewrite run_steps_app.
  - by rewrite Hl.
Qed.

Lemma registry_ok_run_steps steps l :
  tasks_passive l → registry_ok (client l) → registry_ok (client (run_steps steps l)).
Proof.
  revert l. induction steps as [| st steps IH]; intros l Hl Hs; [done |].
  cbn. apply IH; [by apply tasks_passive_step |].
  apply step_keeps; [apply stable_registry_ok | done | | done].
  intros ev _. apply registry_ok_handler.
Qed.

Lemma registry_ok_reachable s : reachable s → registry_ok s.
Proof.
  intros (l & [steps ->] & ->).
  apply registry_ok_run_steps; [constructor | apply registry_ok_init].
Qed.

(** *** Signals from a peer without a connection *)

Lemma sent_set_trace_app s e :
  sent (set_trace (trace s ++ [e]) s) =
  sent s ++ match e with Emitted msg => [msg] | _ => [] end.
Proof. unfold sent. cbn. rewrite omap_app. by destruct e. Qed.

(** C5. An answer or a candidate from a peer that has no connection in the
    registry is dropped: the handler returns and the client is as it was.
    A candidate for a registered connection is passed to it, and the
    handler returns normally whether the browser takes the candidate or
    rejects it: only the call is logged, the connection stays open and
    registered and nothing is sent. *)
Theorem stale_signals_are_dropped (browser : Browser) (s : Client)
    (from : string) (data : SignalData) :
  (type data = "answer" → peerConnections s !! from = None →
     run browser (on_signal from data) s = (Returned tt, s)
     ∧ handle browser (FromServer (Signal from data)) s = s)
  ∧ (type data = "candidate" → peerConnections s !! from = None →
     run browser (on_signal from data) s = (Returned tt, s)
     ∧ handle browser (FromServer (Signal from data)) s = s)
  ∧ (type data = "candidate" → ∀ pc, peerConnections s !! from = Some pc →
     let call := AddIceCandidate pc (candidate data) in
     let s' := set_trace (trace s ++ [Awaited call (is_fulfilled (browser call))]) s in
     run browser (on_signal from data) s = (Returned tt, s')
     ∧ peerConnections s' !! from = Some pc
     ∧ heap s' = heap s
     ∧ peerConnections s' = peerConnections s
     ∧ remoteVideos s' = remoteVideos s
     ∧ sent s' = sent s).
Proof.
  split_and!.
  - intros Hty Hpc. unfold handle. cbn [handler]. unfold on_signal. rewrite Hty. cbn.
    unfold gets. cbn. by rewrite Hpc.
  - intros Hty Hpc. unfold handle. cbn [handler]. unfold on_signal. rewrite Hty. cbn.
    unfold gets. cbn. by rewrite Hpc.
  - intros Hty pc Hpc call s'. split_and!; try done.
    + unfold on_signal. rewrite Hty. cbn. unfold gets. cbn. rewrite Hpc. cbn.
      fold call. by destruct (browser call) as [[] |].
    + unfold s'. by rewrite sent_set_trace_app, app_nil_r.
Qed.

Lemma stale_signals_are_dropped_witness :
  run Scenario.reject_all (on_signal "B" Scenario.answer_of_B) Scenario.client_A
    = (Returned tt, Scenario.client_A)
  ∧ run Scenario.reject_all (on_signal "B" Scenario.candidate_of_B) Scenario.client_A
    = (Returned tt, Scenario.client_A)
  ∧ (run Scenario.reject_all (on_signal "B" Scenario.candidate_of_B)
       Scenario.client_A_called_B).1 = Returned tt.
Proof.
  pose proof (stale_signals_are_dropped Scenario.reject_all Scenario.client_A
                "B" Scenario.answer_of_B) as (Hanswer & _ & _).
  pose proof (stale_signals_are_dropped Scenario.reject_all Scenario.client_A
                "B" Scenario.candidate_of_B) as (_ & Hcandidate & _).
  pose proof (stale_signals_are_dropped Scenario.reject_all Scenario.client_A_called_B
                "B" Scenario.candidate_of_B) as (_ & _ & Hcaught).
  split_and!.
  - apply Hanswer; reflexivity.
  - apply Hcandidate; reflexivity.
  - destruct (Hcaught eq_refl 0) as [-> _]; reflexivity.
Defined.

(** *** A peer leaves *)

Lemma close_connection_idemp p s :
  close_connection p (drop_video p (close_connection p s)) =
  drop_video p (close_connection p s).
Proof.
  unfold close_connection at 1. rewrite peerConnections_drop_video.
  unfold close_connection. destruct (peerConnections s !! p) eqn:Hp; cbn.
  - by rewrite lookup_delete_eq.
  - by rewrite Hp.
Qed.

(** C6. Handling [peer-left] for the same peer a second time changes
    nothing: after the first time the peer has no connection in the
    registry and no video in the map, every connection that was registered
    under it is closed, and the second run leaves the whole client, heap
    and page included, as the first left it. *)
Theorem peer_left_idempotent (browser : Browser) (s : Client) (p : string) :
  let s1 := handle browser (FromServer (PeerLeft p)) s in
  handle browser (FromServer (PeerLeft p)) s1 = s1
  ∧ on_peer_left p s1 = (tt, s1)
  ∧ peerConnections s1 !! p = None
  ∧ remoteVideos s1 !! p = None
  ∧ (∀ pc c, peerConnections s !! p = Some pc → heap s !! pc = Some c →
       closed <$> heap s1 !! pc = Some true).
Proof.
  intros s1.
  assert (s1 = drop_video p (close_connection p s)) as ->
    by (unfold s1, handle; cbn [handler]; by rewrite run_sync, on_peer_left_unfold).
  unfold handle. cbn [handler]. rewrite run_sync. cbn [snd].
  assert (peerConnections (drop_video p (close_connection p s)) !! p = None) as Hpc.
  { rewrite peerConnections_drop_video. unfold close_connection.
    destruct (peerConnections s !! p) eqn:Hp; cbn; [by rewrite lookup_delete_eq | done]. }
  assert (remoteVideos (drop_video p (close_connection p s)) !! p = None) as Hv.
  { rewrite remoteVideos_drop_video. by rewrite lookup_delete_eq. }
  assert (on_peer_left p (drop_video p (close_connection p s)) =
          (tt, drop_video p (close_connection p s))) as Hagain.
  { rewrite on_peer_left_unfold, close_connection_idemp.
    f_equal. unfold drop_video at 1. by rewrite Hv. }
  split_and!; try done.
  - by rewrite Hagain.
  - intros pc c Hp Hc. rewrite heap_drop_video. unfold close_connection.
    rewrite Hp. cbn. by rewrite list_lookup_alter_eq, Hc.
Qed.

Lemma peer_left_idempotent_witness :
  let s1 := handle Scenario.fulfil_all (FromServer (PeerLeft "B"))
              Scenario.client_A_called_B in
  handle Scenario.fulfil_all (FromServer (PeerLeft "B")) s1 = s1
  ∧ closed <$> heap s1 !! 0 = Some true.
Proof.
  pose proof (peer_left_idempotent Scenario.fulfil_all
                Scenario.client_A_called_B "B") as (Hidem & _ & _ & _ & Hclosed).
  split; [exact Hidem |].
  eapply Hclosed; reflexivity.
Defined.

(** *** One connection per peer *)

(** C7. In every state the client reaches, [createPeerConnection(p)]
    returns the connection registered under [p] and changes nothing when
    there is one; otherwise it puts exactly one new connection on the
    heap, with every track of the local stream attached (none when there
    is no local stream), and registers it under [p], leaving the other
    connections and registrations as they were.  Before and after, the
    registry and the heap agree: each registered identifier names an open
    connection of its own, each open connection is registered, and no two
    open connections carry listeners built for the same peer. *)
Theorem get_or_create (s : Client) (p : string) :
  reachable s →
  let pc := (createPeerConnection p s).1 in
  let s' := (createPeerConnection p s).2 in
  registry_ok s ∧ registry_ok s'
  ∧ peerConnections s' !! p = Some pc
  ∧ (∀ pc0, peerConnections s !! p = Some pc0 → pc = pc0 ∧ s' = s)
  ∧ (peerConnections s !! p = None →
       pc = length (heap s)
       ∧ heap s' = heap s ++ [fresh_connection s p]
       ∧ length (heap s') = S (length (heap s))
       ∧ peerConnections s' = <[p := pc]> (peerConnections s)
       ∧ (∀ stream, localStream s = Some stream →
            senders (fresh_connection s p) = track_id <$> tracks stream)
       ∧ (localStream s = None → senders (fresh_connection s p) = []))
  ∧ (∀ q, q ≠ p → peerConnections s' !! q = peerConnections s !! q)
  ∧ (∀ pc1 pc2 c1 c2 l1 l2,
       heap s' !! pc1 = Some c1 → closed c1 = false → l1 ∈ listeners c1 →
       heap s' !! pc2 = Some c2 → closed c2 = false → l2 ∈ listeners c2 →
       listener_peer l1 = listener_peer l2 → pc1 = pc2).
Proof.
  intros Hreach pc s'.
  pose proof (registry_ok_reachable s Hreach) as Hok.
  pose proof (registry_ok_createPeerConnection p s Hok) as Hok'. fold s' in Hok'.
  assert (peerConnections s !! p = None →
          pc = length (heap s) ∧ s' = register p s) as Hnew.
  { intros Hp. unfold pc, s'. by rewrite createPeerConnection_new. }
  assert (∀ pc0, peerConnections s !! p = Some pc0 → pc = pc0 ∧ s' = s) as Hold.
  { intros pc0 Hp. unfold pc, s'. by rewrite (createPeerConnection_existing s p pc0). }
  split_and!; try done.
  - destruct (peerConnections s !! p) as [pc0 |] eqn:Hp.
    + destruct (Hold pc0 eq_refl) as [-> ->]. done.
    + destruct (Hnew eq_refl) as [-> ->]. cbn. by rewrite lookup_insert_eq.
  - intros Hp. destruct (Hnew Hp) as [-> ->]. cbn. split_and!; try done.
    + rewrite length_app. cbn. lia.
    + intros stream Hs. unfold fresh_connection. by rewrite Hs.
    + intros Hs. unfold fresh_connection. by rewrite Hs.
  - intros q Hq. destruct (peerConnections s !! p) as [pc0 |] eqn:Hp.
    + by destruct (Hold pc0 eq_refl) as [_ ->].
    + destruct (Hnew eq_refl) as [_ ->]. cbn. by rewrite lookup_insert_ne.
  - intros pc1 pc2 c1 c2 l1 l2 Hc1 Ho1 Hl1 Hc2 Ho2 Hl2 Heq.
    pose proof (reg_listeners s' Hok' pc1 c1 l1 Hc1 Ho1 Hl1) as H1.
    pose proof (reg_listeners s' Hok' pc2 c2 l2 Hc2 Ho2 Hl2) as H2.
    rewrite Heq in H1. congruence.
Qed.

Lemma reachable_client_A : reachable Scenario.client_A.
Proof. eexists. split; [by eexists | reflexivity]. Qed.

Lemma get_or_create_witness :
  reachable Scenario.client_A
  ∧ heap (createPeerConnection "B" Scenario.client_A).2
    = [ {| configuration := []; closed := false; senders := [0; 1];
           listeners := [TrackListener "B"; IceCandidateListener "B"] |} ]
  ∧ createPeerConnection "B" (createPeerConnection "B" Scenario.client_A).2
    = (0, (createPeerConnection "B" Scenario.client_A).2).
Proof.
  pose proof (get_or_create Scenario.client_A "B" reachable_client_A)
    as (_ & _ & _ & _ & Hnew & _).
  split_and!.
  - exact reachable_client_A.
  - destruct Hnew as (_ & -> & _); reflexivity.
  - reflexivity.
Defined.

(** *** Answering an offer *)

(** The run of [handleOffer] in which the browser fulfils the three calls. *)
Lemma offer_answered (browser : Browser) (s : Client) (from : string)
    (data : SignalData) (answer : Desc) :
  let pc := (createPeerConnection from s).1 in
  let s1 := (createPeerConnection from s).2 in
  let offer := {| desc_type := "offer"; desc_sdp := sdp data |} in
  let envelope :=
    SignalTo (roomId s) {| type := "answer"; sdp := desc_sdp answer;
                           candidate := None; to := Some from |} in
  type data = "offer" →
  browser (SetRemoteDescription pc offer) = Fulfilled tt →
  browser (CreateAnswer pc) = Fulfilled answer →
  browser (SetLocalDescription pc answer) = Fulfilled tt →
  run browser (on_signal from data) s =
    (Returned tt,
     set_trace (trace s1 ++ [Awaited (SetRemoteDescription pc offer) true;
                             Awaited (CreateAnswer pc) true;
                             Awaited (SetLocalDescription pc answer) true;
                             Emitted envelope]) s1)
  ∧ peerConnections s1 !! from = Some pc
  ∧ sent (handle browser (FromServer (Signal from data)) s) = sent s ++ [envelope]
  ∧ is_signal_to "answer" from envelope = true.
Proof.
  intros pc s1 offer envelope Hty Hremote Hanswer Hlocal.
  assert (run browser (on_signal from data) s =
    (Returned tt,
     set_trace (trace s1 ++ [Awaited (SetRemoteDescription pc offer) true;
                             Awaited (CreateAnswer pc) true;
                             Awaited (SetLocalDescription pc answer) true;
                             Emitted envelope]) s1)) as Hrun.
  { unfold on_signal. rewrite Hty. cbn.
    fold pc s1. destruct (createPeerConnection from s) as [pc' s1'] eqn:Hcreate.
    cbn in pc, s1. subst pc s1. fold offer. rewrite Hremote. cbn.
    rewrite Hanswer. cbn. rewrite Hlocal. cbn.
    unfold gets, socket_emit, log, modify. cbn.
    rewrite <- !app_assoc. cbn.
    assert (roomId s1' = roomId s) as Hroom.
    { destruct (peerConnections s !! from) as [pc0 |] eqn:Hp.
      - rewrite (createPeerConnection_existing s from pc0) in Hcreate by done.
        congruence.
      - rewrite createPeerConnection_new in Hcreate by done.
        injection Hcreate as _ <-. done. }
    unfold envelope. rewrite <- Hroom. by destruct s1'. }
  assert (sent s1 = sent s) as Hsent.
  { unfold s1. destruct (peerConnections s !! from) as [pc0 |] eqn:Hp.
    - by rewrite (createPeerConnection_existing s from pc0).
    - rewrite createPeerConnection_new by done. unfold sent. cbn.
      rewrite omap_app. cbn. by rewrite app_nil_r. }
  split_and!.
  - done.
  - unfold pc, s1. destruct (peerConnections s !! from) as [pc0 |] eqn:Hp.
    + by rewrite (createPeerConnection_existing s from pc0).
    + rewrite createPeerConnection_new by done. cbn. by rewrite lookup_insert_eq.
  - unfold handle. cbn [handler]. rewrite Hrun. cbn [snd]. unfold sent at 1. cbn.
    rewrite omap_app. fold (sent s1). by rewrite Hsent.
  - cbn. by rewrite bool_decide_eq_true_2.
Qed.

(** A rejected call ends [handleOffer]: it throws and sends nothing. *)
Lemma offer_not_answered (browser : Browser) (s : Client) (from : string)
    (data : SignalData) :
  let pc := (createPeerConnection from s).1 in
  let offer := {| desc_type := "offer"; desc_sdp := sdp data |} in
  type data = "offer" →
  (browser (SetRemoteDescription pc offer) = Rejected
   ∨ browser (CreateAnswer pc) = Rejected
   ∨ ∃ answer, browser (CreateAnswer pc) = Fulfilled answer
               ∧ browser (SetLocalDescription pc answer) = Rejected) →
  (run browser (on_signal from data) s).1 = Threw
  ∧ sent (handle browser (FromServer (Signal from data)) s) = sent s.
Proof.
  intros pc offer Hty Hrej.
  assert (sent (createPeerConnection from s).2 = sent s) as Hsent.
  { destruct (peerConnections s !! from) as [pc0 |] eqn:Hp.
    - by rewrite (createPeerConnection_existing s from pc0).
    - rewrite createPeerConnection_new by done. unfold sent. cbn.
      rewrite omap_app. cbn. by rewrite app_nil_r. }
  unfold handle. cbn [handler]. unfold on_signal. rewrite Hty. cbn.
  fold pc. destruct (createPeerConnection from s) as [pc' s1'] eqn:Hcreate.
  cbn in pc, Hsent. subst pc. fold offer.
  destruct (browser (SetRemoteDescription pc' offer)) as [[] |] eqn:Hremote; cbn.
  2:{ split; [done |]. unfold sent at 1. cbn. rewrite omap_app. cbn.
      fold (sent s1'). by rewrite app_nil_r. }
  destruct (browser (CreateAnswer pc')) as [answer |] eqn:Hanswer; cbn.
  2:{ split; [done |]. unfold sent at 1. cbn. rewrite !omap_app. cbn.
      fold (sent s1'). by rewrite !app_nil_r. }
  destruct (browser (SetLocalDescription pc' answer)) as [[] |] eqn:Hlocal; cbn.
  2:{ split; [done |]. unfold sent at 1. cbn. rewrite !omap_app. cbn.
      fold (sent s1'). by rewrite !app_nil_r. }
  exfalso. destruct Hrej as [? | [? | (a & Ha & Hl)]]; try done.
  injection Ha as <-. congruence.
Qed.

(** C8, as the code has it.  For an offer from [from], [handleOffer]
    takes the connection of [from] out of the registry, or creates it, and
    then, in this order, sets the offer as remote description, creates an
    answer, sets it as local description, and sends one [answer] envelope
    addressed to [from] and nothing else, provided the browser fulfils the
    three calls.  When the browser rejects one of them the handler throws
    there: the later calls are not made and no envelope is sent. *)
Theorem offer_is_answered (browser : Browser) (s : Client) (from : string)
    (data : SignalData) :
  type data = "offer" →
  let pc := (createPeerConnection from s).1 in
  let s1 := (createPeerConnection from s).2 in
  let offer := {| desc_type := "offer"; desc_sdp := sdp data |} in
  peerConnections s1 !! from = Some pc
  ∧ (∀ answer,
       browser (SetRemoteDescription pc offer) = Fulfilled tt →
       browser (CreateAnswer pc) = Fulfilled answer →
       browser (SetLocalDescription pc answer) = Fulfilled tt →
       let envelope :=
         SignalTo (roomId s) {| type := "answer"; sdp := desc_sdp answer;
                                candidate := None; to := Some from |} in
       run browser (on_signal from data) s =
         (Returned tt,
          set_trace (trace s1 ++ [Awaited (SetRemoteDescription pc offer) true;
                                  Awaited (CreateAnswer pc) true;
                                  Awaited (SetLocalDescription pc answer) true;
                                  Emitted envelope]) s1)
       ∧ sent (handle browser (FromServer (Signal from data)) s) = sent s ++ [envelope]
       ∧ is_signal_to "answer" from envelope = true)
  ∧ ((browser (SetRemoteDescription pc offer) = Rejected
      ∨ browser (CreateAnswer pc) = Rejected
      ∨ ∃ answer, browser (CreateAnswer pc) = Fulfilled answer
                  ∧ browser (SetLocalDescription pc answer) = Rejected) →
     (run browser (on_signal from data) s).1 = Threw
     ∧ sent (handle browser (FromServer (Signal from data)) s) = sent s).
Proof.
  intros Hty pc s1 offer. split_and!.
  - unfold pc, s1. destruct (peerConnections s !! from) as [pc0 |] eqn:Hp.
    + by rewrite (createPeerConnection_existing s from pc0).
    + rewrite createPeerConnection_new by done. cbn. by rewrite lookup_insert_eq.
  - intros answer Hremote Hanswer Hlocal envelope.
    destruct (offer_answered browser s from data answer Hty Hremote Hanswer Hlocal)
      as (Hrun & _ & Hsent & Hto).
    done.
  - intros Hrej. by apply offer_not_answered.
Qed.

Lemma offer_is_answered_witness :
  sent (handle Scenario.fulfil_all (FromServer (Signal "B" Scenario.offer_of_B))
          Scenario.client_A)
  = [JoinRoom "r1";
     SignalTo (Some "r1") {| type := "answer"; sdp := Some "v=0 a";
                             candidate := None; to := Some "B" |}].
Proof.
  pose proof (offer_is_answered Scenario.fulfil_all Scenario.client_A "B"
                Scenario.offer_of_B eq_refl) as (_ & Hfulfilled & _).
  destruct (Hfulfilled {| desc_type := "answer"; desc_sdp := Some "v=0 a" |}
              eq_refl eq_refl eq_refl) as (_ & Hsent & _).
  rewrite Hsent. reflexivity.
Defined.

(** C8 as stated fails: when the browser rejects the description of the
    offer, no answer is sent. *)
Lemma offer_rejected_counterexample :
  ¬ (∀ (browser : Browser) (s : Client) (from : string) (data : SignalData),
       type data = "offer" →
       ∃ envelope,
         sent (handle browser (FromServer (Signal from data)) s) = sent s ++ [envelope]
         ∧ is_signal_to "answer" from envelope = true).
Proof.
  intros Hclaim.
  destruct (Hclaim Scenario.reject_all Scenario.client_A "B" Scenario.offer_of_B
              eq_refl) as (envelope & Hsent & _).
  vm_compute in Hsent. discriminate Hsent.
Qed.

(** *** Calling a peer *)

(** On [peer-joined(p)] the client takes or creates the connection of [p],
    creates an offer, sets it as local description and sends one [offer]
    envelope addressed to [p], when the browser fulfils the two calls. *)
Lemma call_sends_offer (browser : Browser) (s : Client) (p : string) (offer : Desc) :
  let pc := (createPeerConnection p s).1 in
  browser (CreateOffer pc) = Fulfilled offer →
  browser (SetLocalDescription pc offer) = Fulfilled tt →
  sent (handle browser (FromServer (PeerJoined p)) s) =
  sent s ++ [SignalTo (roomId s) {| type := "offer"; sdp := desc_sdp offer;
                                    candidate := None; to := Some p |}].
Proof.
  intros pc Hoffer Hlocal.
  assert (sent (createPeerConnection p s).2 = sent s
          ∧ roomId (createPeerConnection p s).2 = roomId s) as [Hsent Hroom].
  { destruct (peerConnections s !! p) as [pc0 |] eqn:Hp.
    - by rewrite (createPeerConnection_existing s p pc0).
    - rewrite createPeerConnection_new by done. split; [| done].
      unfold sent. cbn. rewrite omap_app. cbn. by rewrite app_nil_r. }
  unfold handle. cbn [handler]. unfold on_peer_joined, makeCall. cbn.
  fold pc. destruct (createPeerConnection p s) as [pc' s1] eqn:Hcreate.
  cbn in pc, Hsent, Hroom. subst pc. rewrite Hoffer. cbn. rewrite Hlocal. cbn.
  unfold sent at 1. cbn. rewrite !omap_app. cbn. fold (sent s1).
  by rewrite Hsent, Hroom, !app_nil_r.
Qed.

End ClientSpec.

Module NoMedia.
Import Client ClientSpec.

(** *** What every handler keeps *)

Section keeps.
Context (I : Client → Prop) (ok : Effect → Prop) (may_create : string → Prop).

Hypothesis keeps_frame : ∀ s s',
  heap s' = heap s → peerConnections s' = peerConnections s →
  remoteVideos s' = remoteVideos s → trace s' = trace s → I s → I s'.
Hypothesis keeps_log : ∀ e s, ok e → I s → I (set_trace (trace s ++ [e]) s).
Hypothesis keeps_create : ∀ q, may_create q → preserves I (createPeerConnection q).
Hypothesis ok_not_candidate : ∀ e,
  (∀ room data, e = Emitted (SignalTo room data) → type data ≠ "candidate") → ok e.

Lemma keeps_modify f :
  (∀ s, heap (f s) = heap s ∧ peerConnections (f s) = peerConnections s
        ∧ remoteVideos (f s) = remoteVideos s ∧ trace (f s) = trace s) →
  preserves I (modify f).
Proof.
  intros Hf s Hs. destruct (Hf s) as (? & ? & ? & ?). by apply (keeps_frame s).
Qed.

Lemma keeps_effect e :
  (∀ room data, e = Emitted (SignalTo room data) → type data ≠ "candidate") →
  preserves I (log e).
Proof. intros He s Hs. apply keeps_log; [by apply ok_not_candidate | done]. Qed.

Lemma keeps_makeCall q : may_create q → all_sync I (makeCall q).
Proof.
  intros Hq. unfold makeCall.
  apply all_sync_bind; [by apply all_sync_sync, keeps_create |].
  intros pc. apply all_sync_bind; [apply all_sync_await |].
  intros offer. apply all_sync_bind; [apply all_sync_await |].
  intros _. apply all_sync_bind; [by apply all_sync_sync, preserves_gets |].
  intros room. apply all_sync_sync, keeps_effect. by intros ?? [= _ <-].
Qed.

Lemma keeps_handleOffer q sdp : may_create q → all_sync I (handleOffer q sdp).
Proof.
  intros Hq. unfold handleOffer.
  apply all_sync_bind; [by apply all_sync_sync, keeps_create |].
  intros pc. apply all_sync_bind; [apply all_sync_await |].
  intros _. apply all_sync_bind; [apply all_sync_await |].
  intros answer. apply all_sync_bind; [apply all_sync_await |].
  intros _. apply all_sync_bind; [by apply all_sync_sync, preserves_gets |].
  intros room. apply all_sync_sync, keeps_effect. by intros ?? [= _ <-].
Qed.

Lemma keeps_on_signal q data :
  (String.eqb (type data) "offer" = true → may_create q) →
  all_sync I (on_signal q data).
Proof.
  intros Hq. unfold on_signal.
  destruct (String.eqb (type data) "offer"); [by apply keeps_handleOffer, Hq |].
  destruct (String.eqb (type data) "answer"); [apply all_sync_handleAnswer |].
  destruct (String.eqb (type data) "candidate"); [apply all_sync_handleCandidate |].
  done.
Qed.

Lemma keeps_on_join_click value : all_sync I (on_join_click value).
Proof.
  unfold on_join_click.
  apply all_sync_bind; [by apply all_sync_sync, keeps_modify |].
  intros _. apply all_sync_bind; [by apply all_sync_sync, preserves_gets |].
  intros room. destruct (negb (truthy room)).
  { apply all_sync_sync, keeps_effect. by intros ??. }
  apply all_sync_bind.
  { unfold initMedia. apply all_sync_bind; [apply all_sync_await |].
    intros stream. apply all_sync_bind; [by apply all_sync_sync, keeps_modify |].
    intros _. by apply all_sync_sync, keeps_modify. }
  intros _. apply all_sync_bind; [by apply all_sync_sync, preserves_gets |].
  intros room'. apply all_sync_sync, keeps_effect. by intros ??.
Qed.

Lemma keeps_on_toggle_cam : preserves I on_toggle_cam.
Proof.
  intros s Hs. unfold on_toggle_cam, mbind, Sync_bind, gets, modify.
  destruct (localStream s) as [stream |]; [| done].
  destruct (set_first_video _ _); [| done].
  by apply (keeps_frame s).
Qed.

Lemma keeps_on_ice_config servers : preserves I (on_ice_config servers).
Proof.
  intros s Hs. destruct servers as [l |]; [| done]. by apply (keeps_frame s).
Qed.

End keeps.

(** *** A connection without listeners stays without *)

Lemma bare_frame pc s s' : heap s' = heap s → bare pc s → bare pc s'.
Proof. intros Hh. unfold bare. by rewrite Hh. Qed.

Lemma bare_createPeerConnection pc q : preserves (bare pc) (createPeerConnection q).
Proof.
  intros s (c & Hc & Hs & Hl).
  destruct (peerConnections s !! q) as [pc0 |] eqn:Hq.
  - rewrite (createPeerConnection_existing s q pc0) by done. by exists c.
  - rewrite createPeerConnection_new by done. exists c. cbn.
    split; [| done]. rewrite lookup_app_l; [done | by eapply lookup_lt_Some].
Qed.

Lemma bare_on_peer_left pc q : preserves (bare pc) (on_peer_left q).
Proof.
  intros s (c & Hc & Hs & Hl). rewrite on_peer_left_unfold. cbn [snd].
  unfold bare. rewrite heap_drop_video. unfold close_connection.
  destruct (peerConnections s !! q) as [pc0 |]; cbn; [| by exists c].
  destruct (decide (pc0 = pc)) as [-> | Hne].
  - rewrite list_lookup_alter_eq, Hc. cbn. by eexists.
  - rewrite list_lookup_alter_ne by done. by exists c.
Qed.

Lemma bare_on_track_event pc pc' streams :
  preserves (bare pc) (on_track_event pc' streams).
Proof.
  apply preserves_fire. intros c [p | p] Hl; [| by intros s].
  intros s (Hs & Hc & Hopen).
  destruct (on_track_fields p streams s) as (Hh & _). rewrite Hh.
  split; [| done]. by apply (bare_frame pc s).
Qed.

Lemma bare_on_icecandidate_event pc pc' candidate :
  preserves (bare pc) (on_icecandidate_event pc' candidate).
Proof.
  apply preserves_fire. intros c [p | p] Hl; [by intros s |].
  intros s (Hs & Hc & Hopen).
  destruct (on_icecandidate_fields p candidate s) as (Hh & _). rewrite Hh.
  split; [| done]. by apply (bare_frame pc s).
Qed.

Lemma stable_bare pc : stable (bare pc).
Proof.
  split.
  - intros s s' Hh _ _ _. by apply bare_frame.
  - intros e s _. by apply bare_frame.
Qed.

Lemma bare_handler pc ev : all_sync (bare pc) (handler ev).
Proof.
  pose proof (stable_frame _ (stable_bare pc)) as Hframe.
  assert (∀ e s0, True → bare pc s0 → bare pc (set_trace (trace s0 ++ [e]) s0))
    as Hlog by (intros e s0 _; by apply bare_frame).
  assert (∀ q, True → preserves (bare pc) (createPeerConnection q)) as Hcreate
    by (intros q _; apply bare_createPeerConnection).
  destruct ev as [servers | value | | [p | from data | p] | pc' streams | pc' candidate];
    cbn [handler].
  - by apply all_sync_sync, keeps_on_ice_config.
  - by apply keeps_on_join_click with (ok := λ _, True).
  - by apply all_sync_sync, keeps_on_toggle_cam.
  - by apply keeps_makeCall with (ok := λ _, True) (may_create := λ _, True).
  - by apply keeps_on_signal with (ok := λ _, True) (may_create := λ _, True).
  - apply all_sync_sync, bare_on_peer_left.
  - apply all_sync_sync, bare_on_track_event.
  - apply all_sync_sync, bare_on_icecandidate_event.
Qed.

Lemma bare_run_steps pc steps l :
  tasks_passive l → bare pc (client l) → bare pc (client (run_steps steps l)).
Proof.
  revert l. induction steps as [| st steps IH]; intros l Hl Hs; [done |].
  cbn. apply IH; [by apply tasks_passive_step |].
  apply step_keeps; [apply stable_bare | done | | done].
  intros ev _. apply bare_handler.
Qed.

(** An event fired on such a connection runs no code. *)
Lemma fire_bare pc body s : bare pc s → fire pc body s = (tt, s).
Proof.
  intros (c & Hc & _ & Hl). unfold fire, mbind, Sync_bind, gets.
  rewrite Hc, Hl. by destruct (closed c).
Qed.

Lemma handle_bare_track pc browser streams s :
  bare pc s → handle browser (TrackEvent pc streams) s = s.
Proof.
  intros Hs. unfold handle. cbn [handler]. rewrite run_sync.
  unfold on_track_event. by rewrite fire_bare.
Qed.

Lemma handle_bare_icecandidate pc browser candidate s :
  bare pc s → handle browser (IceCandidateEvent pc candidate) s = s.
Proof.
  intros Hs. unfold handle. cbn [handler]. rewrite run_sync.
  unfold on_icecandidate_event. by rewrite fire_bare.
Qed.

(** *** Nothing shows of a peer whose connection has no listener *)

Lemma heap_close_connection_open q s pc c :
  heap (close_connection q s) !! pc = Some c → closed c = false →
  heap s !! pc = Some c.
Proof.
  unfold close_connection. destruct (peerConnections s !! q) as [pc0 |]; [| done].
  cbn. intros Hc Hopen. destruct (decide (pc0 = pc)) as [-> | Hne].
  - rewrite list_lookup_alter_eq in Hc.
    destruct (heap s !! pc); cbn in Hc; [| done]. injection Hc as <-. done.
  - by rewrite list_lookup_alter_ne in Hc.
Qed.

Lemma sent_close_connection q s : sent (close_connection q s) = sent s.
Proof.
  unfold close_connection. destruct (peerConnections s !! q); [| done].
  unfold sent. cbn. rewrite omap_app. cbn. by rewrite app_nil_r.
Qed.

Lemma sent_drop_video q s : sent (drop_video q s) = sent s.
Proof. unfold drop_video. by destruct (remoteVideos s !! q). Qed.

Lemma sent_register q s : sent (register q s) = sent s.
Proof. unfold sent. cbn. rewrite omap_app. cbn. by rewrite app_nil_r. Qed.

Section quiet.
Context (p : string) (before : list ClientMsg).

Lemma harmless_not_candidate e :
  (∀ room data, e = Emitted (SignalTo room data) → type data ≠ "candidate") →
  harmless p e.
Proof.
  intros He msg ->. destruct msg as [room | room data]; [done |].
  cbn. specialize (He room data eq_refl).
  apply String.eqb_neq in He. by rewrite He.
Qed.

Lemma quiet_frame gone s s' :
  heap s' = heap s → peerConnections s' = peerConnections s →
  remoteVideos s' = remoteVideos s → trace s' = trace s →
  quiet p before gone s → quiet p before gone s'.
Proof.
  intros Hh Hp Hv Ht [Hok Hvid Hsent Hlis Hreg].
  split; rewrite ?Hh, ?Hp, ?Hv; try done.
  - by apply (registry_ok_frame s).
  - unfold sent. by rewrite Ht.
Qed.

Lemma quiet_log gone e s :
  harmless p e → quiet p before gone s →
  quiet p before gone (set_trace (trace s ++ [e]) s).
Proof.
  intros He [Hok Hvid Hsent Hlis Hreg]. split; try done.
  - by apply (registry_ok_frame s).
  - rewrite sent_set_trace_app. unfold candidates_to. rewrite filter_app.
    fold (candidates_to p (sent s)). rewrite Hsent.
    destruct e as [| | | msg |]; try by rewrite app_nil_r.
    rewrite filter_cons_False, filter_nil, app_nil_r; [done |].
    rewrite (He msg eq_refl). done.
Qed.

Lemma quiet_createPeerConnection gone q :
  (gone = true → q ≠ p) →
  preserves (quiet p before gone) (createPeerConnection q).
Proof.
  intros Hmay s Hs. destruct (peerConnections s !! q) as [pc0 |] eqn:Hq.
  { by rewrite (createPeerConnection_existing s q pc0). }
  rewrite createPeerConnection_new by done. cbn [snd].
  destruct Hs as [Hok Hvid Hsent Hlis Hreg].
  assert (q ≠ p) as Hne.
  { destruct gone; [by apply Hmay |].
    destruct (Hreg eq_refl) as [pc Hpc]. congruence. }
  split.
  - by apply registry_ok_register.
  - done.
  - by rewrite sent_register.
  - cbn. intros pc c l Hc Hopen Hl.
    destruct (decide (pc < length (heap s))) as [Hpc | Hpc].
    + rewrite lookup_app_l in Hc by done. by eapply Hlis.
    + assert (pc = length (heap s)) as ->.
      { apply lookup_lt_Some in Hc. rewrite length_app in Hc. cbn in Hc. lia. }
      rewrite lookup_app_r, Nat.sub_diag in Hc by done. injection Hc as <-.
      unfold fresh_connection in Hl. cbn in Hl.
      destruct (localStream s); [| by apply elem_of_nil in Hl].
      apply elem_of_cons in Hl as [-> | Hl]; [done |].
      by apply list_elem_of_singleton in Hl as ->.
  - cbn. intros Hg. rewrite lookup_insert_ne by done. by apply Hreg.
Qed.

Lemma quiet_on_peer_left gone q s :
  quiet p before gone s →
  quiet p before (gone || bool_decide (q = p)) (on_peer_left q s).2.
Proof.
  intros Hs. pose proof (registry_ok_on_peer_left q s (quiet_registry _ _ _ _ Hs)) as Hok'.
  rewrite on_peer_left_unfold in *. cbn [snd] in *.
  destruct Hs as [Hok Hvid Hsent Hlis Hreg]. split.
  - done.
  - rewrite remoteVideos_drop_video, remoteVideos_close_connection.
    destruct (decide (q = p)) as [-> | Hne];
      [by rewrite lookup_delete_eq | by rewrite lookup_delete_ne].
  - by rewrite sent_drop_video, sent_close_connection.
  - rewrite heap_drop_video. intros pc c l Hc Hopen Hl.
    eapply Hlis; [| done..]. by eapply heap_close_connection_open.
  - intros Hg. apply orb_false_iff in Hg as [-> Hq].
    apply bool_decide_eq_false in Hq.
    rewrite peerConnections_drop_video. unfold close_connection.
    destruct (peerConnections s !! q); cbn; [| by apply Hreg].
    rewrite lookup_delete_ne by done. by apply Hreg.
Qed.

Lemma quiet_on_track_event gone pc streams :
  preserves (quiet p before gone) (on_track_event pc streams).
Proof.
  apply preserves_fire. intros c [q | q] Hl; [| by intros s].
  intros s (Hs & Hc & Hopen).
  pose proof (registry_ok_on_track pc c q streams Hl s
                (conj (quiet_registry _ _ _ _ Hs) (conj Hc Hopen))) as (Hok' & _).
  destruct (on_track_fields q streams s) as (Hh & Hp & Ht & Hv).
  rewrite Hh. split; [| done].
  destruct Hs as [Hok Hvid Hsent Hlis Hreg].
  pose proof (Hlis pc c _ Hc Hopen Hl) as Hne. cbn in Hne.
  split; rewrite ?Hh, ?Hp; try done.
  - by rewrite Hv.
  - unfold sent. by rewrite Ht.
Qed.

Lemma quiet_on_icecandidate_event gone pc candidate :
  preserves (quiet p before gone) (on_icecandidate_event pc candidate).
Proof.
  apply preserves_fire. intros c [q | q] Hl; [by intros s |].
  intros s (Hs & Hc & Hopen).
  pose proof (quiet_listeners _ _ _ _ Hs pc c _ Hc Hopen Hl) as Hne. cbn in Hne.
  destruct (on_icecandidate_fields q candidate s) as (Hh & Hp & Hv & [Ht | Ht]).
  - rewrite Hh. split; [| done]. by apply (quiet_frame gone s).
  - rewrite Hh. split; [| done].
    apply (quiet_frame gone (set_trace (trace s ++
             [Emitted (SignalTo (roomId s)
                {| type := "candidate"; sdp := None;
                   candidate := candidate; to := Some q |})]) s)); try done.
    apply quiet_log; [| done].
    intros msg [= <-]. cbn. apply bool_decide_eq_false_2. congruence.
Qed.

Lemma stable_quiet gone : stable (quiet p before gone).
Proof.
  split.
  - intros s s'. apply quiet_frame.
  - intros e s He. apply quiet_log. by apply harmless_not_candidate.
Qed.

Lemma quiet_handler gone ev :
  (gone = true → asks_connection p ev = false) →
  is_peer_left p ev = false →
  all_sync (quiet p before gone) (handler ev).
Proof.
  intros Hev Hleft.
  destruct ev as [servers | value | | [q | from data | q] | pc streams | pc candidate];
    cbn [handler].
  - apply all_sync_sync, keeps_on_ice_config. apply quiet_frame.
  - apply keeps_on_join_click with (ok := harmless p).
    + apply quiet_frame.
    + intros e s0. apply quiet_log.
    + apply harmless_not_candidate.
  - apply all_sync_sync, keeps_on_toggle_cam. apply quiet_frame.
  - apply keeps_makeCall with (ok := harmless p)
                               (may_create := λ q, gone = true → q ≠ p).
    + intros e s0. apply quiet_log.
    + apply quiet_createPeerConnection.
    + apply harmless_not_candidate.
    + intros Hg. specialize (Hev Hg). cbn in Hev.
      by apply bool_decide_eq_false in Hev.
  - apply keeps_on_signal with (ok := harmless p)
                                (may_create := λ q, gone = true → q ≠ p).
    + intros e s0. apply quiet_log.
    + apply quiet_createPeerConnection.
    + apply harmless_not_candidate.
    + intros Hty Hg. specialize (Hev Hg). cbn in Hev.
      rewrite Hty, andb_true_r in Hev. by apply bool_decide_eq_false in Hev.
  - apply all_sync_sync. intros s Hs.
    pose proof (quiet_on_peer_left gone q s Hs) as Hq.
    cbn in Hleft. by rewrite Hleft, orb_false_r in Hq.
  - apply all_sync_sync, quiet_on_track_event.
  - apply all_sync_sync, quiet_on_icecandidate_event.
Qed.

Lemma quiet_step gone st l :
  tasks_passive l →
  (∀ ev, st = External ev → gone = true → asks_connection p ev = false) →
  quiet p before gone (client l) →
  quiet p before
    (gone || match st with External ev => is_peer_left p ev | Settle _ _ => false end)
    (client (step st l)).
Proof.
  intros Hl Hev Hs.
  destruct st as [ev | i browser].
  - destruct (is_peer_left p ev) eqn:Hleft.
    + destruct ev as [| | | [q | q data | q] | |]; try done.
      cbn in Hleft. apply bool_decide_eq_true in Hleft as ->.
      cbn [step handler]. unfold spawn. cbn.
      pose proof (quiet_on_peer_left gone p (client l) Hs) as Hq.
      rewrite bool_decide_eq_true_2 in Hq by done.
      by destruct (on_peer_left p (client l)).
    + rewrite orb_false_r. apply step_keeps; [apply stable_quiet | done | | done].
      intros ev' [= <-]. apply quiet_handler; [by apply Hev | done].
  - rewrite orb_false_r. apply step_keeps; [apply stable_quiet | done | | done].
    by intros ev' [=].
Qed.

Lemma quiet_run_steps gone steps l :
  tasks_passive l → stays_away p gone steps → quiet p before gone (client l) →
  ∃ gone', quiet p before gone' (client (run_steps steps l)).
Proof.
  revert gone l. induction steps as [| st steps IH]; intros gone l Hl Haway Hs.
  - by exists gone.
  - cbn [run_steps].
    eapply (IH (gone || match st with
                       | External ev => is_peer_left p ev
                       | Settle _ _ => false
                       end)).
    + by apply tasks_passive_step.
    + destruct st as [ev | i browser]; cbn in Haway.
      * by destruct Haway.
      * by rewrite orb_false_r.
    + apply quiet_step; [done | | done].
      intros ev -> Hg. cbn in Haway. by destruct Haway as [Hev _]; apply Hev.
Qed.

End quiet.

(** *** A connection created before the camera is on *)

Lemma advance_bind_sync {A} (m : Sync A) (f : A → Prog unit) s :
  advance (sync m ≫= f) s = advance (f (m s).1) (m s).2.
Proof. cbn. by destruct (m s). Qed.

Lemma all_sync_bind_sync_inv (I : Client → Prop) {A B} (m : Sync A)
    (f : A → Prog B) :
  all_sync I (sync m ≫= f) → ∀ x, all_sync I (f x).
Proof. cbn. by intros [_ Hk]. Qed.

(** The handler of an event that asks for the connection of an
    unregistered peer first registers one; what it does then, up to its
    first [await], keeps whatever held after the registration. *)
Lemma asked_connection_advance ev s p (I : Client → Prop) :
  asks_connection p ev = true →
  peerConnections s !! p = None →
  (∀ e s0, harmless p e → I s0 → I (set_trace (trace s0 ++ [e]) s0)) →
  (∀ s0, I s0 → is_Some (peerConnections s0 !! p)) →
  I (register p s) → I (advance (handler ev) s).1.
Proof.
  intros Hev Hp Hlog Hreg Hs.
  assert (∀ q, q = p → preserves I (createPeerConnection q)) as Hcreate.
  { intros q -> s0 Hs0. destruct (Hreg s0 Hs0) as [pc Hpc].
    by rewrite (createPeerConnection_existing s0 p pc). }
  destruct ev as [| | | [q | q data | q] | |]; try done; cbn in Hev.
  - apply bool_decide_eq_true in Hev as ->. cbn [handler].
    pose proof (keeps_makeCall I (harmless p) (λ q, q = p) Hlog Hcreate
                  (harmless_not_candidate p) p eq_refl) as Hall.
    unfold on_peer_joined. unfold makeCall in *.
    rewrite advance_bind_sync, createPeerConnection_new by done. cbn [fst snd].
    apply advance_keeps; [| done].
    apply (all_sync_bind_sync_inv I _ _ Hall).
  - apply andb_true_iff in Hev as [Hq Hty]. apply bool_decide_eq_true in Hq as ->.
    cbn [handler]. unfold on_signal. rewrite Hty.
    pose proof (keeps_handleOffer I (harmless p) (λ q, q = p) Hlog Hcreate
                  (harmless_not_candidate p) p (sdp data) eq_refl) as Hall.
    unfold handleOffer in *.
    rewrite advance_bind_sync, createPeerConnection_new by done. cbn [fst snd].
    apply advance_keeps; [| done].
    apply (all_sync_bind_sync_inv I _ _ Hall).
Qed.

(** C10. Let the client be in a state it can reach, without local stream
    and without a connection for [p], and let it then be asked for one (an
    announce of [p] or an offer from it).  The connection is created and
    registered, with no track attached and no listener.  It stays so
    whatever happens next and however the handlers interleave, the camera
    being turned on included: a [track] or an [icecandidate] event fired on
    it runs no code.  And as long as the server does not bring [p] back
    after announcing its departure, [p] gets no video element and no
    candidate envelope is sent to it. *)
Theorem connection_without_media (l : Loop) (ev : Event) (p : string) :
  reachable_loop l →
  localStream (client l) = None →
  peerConnections (client l) !! p = None →
  asks_connection p ev = true →
  let s := client l in
  let pc := length (heap s) in
  let l1 := step (External ev) l in
  createPeerConnection p s = (pc, register p s)
  ∧ peerConnections (client l1) !! p = Some pc
  ∧ heap (client l1) !! pc = Some {| configuration := iceServers s; closed := false;
                                     senders := []; listeners := [] |}
  ∧ ∀ steps, let s2 := client (run_steps steps l1) in
      bare pc s2
      ∧ (∀ browser streams, handle browser (TrackEvent pc streams) s2 = s2)
      ∧ (∀ browser candidate,
           handle browser (IceCandidateEvent pc candidate) s2 = s2)
      ∧ (stays_away p false steps →
           remoteVideos s2 !! p = None
           ∧ candidates_to p (sent s2) = candidates_to p (sent s)).
Proof.
  intros Hreach Hstream Hp Hev s pc l1.
  change (client l) with s in Hstream, Hp.
  assert (registry_ok s) as Hok by (apply registry_ok_reachable; by exists l).
  pose proof (tasks_passive_reachable l Hreach) as Htasks.
  assert (tasks_passive l1) as Htasks1 by by apply tasks_passive_step.
  set (I := λ s', heap s' = heap (register p s)
                  ∧ peerConnections s' = peerConnections (register p s)
                  ∧ quiet p (candidates_to p (sent s)) false s').
  assert (I (client l1)) as (Hh1 & Hp1 & Hq1).
  { unfold l1. cbn [step]. unfold spawn. cbn [client]. fold s.
    apply (asked_connection_advance ev s p I); try done.
    - intros e s0 He (? & ? & ?). split_and!; try done. by apply quiet_log.
    - intros s0 (_ & -> & _). cbn. by rewrite lookup_insert_eq.
    - split_and!; try done. split.
      + by apply registry_ok_register.
      + cbn. destruct (remoteVideos s !! p) eqn:Hv; [| done].
        destruct (reg_videos s Hok p) as [? ?]; [by eexists | congruence].
      + by rewrite sent_register.
      + cbn. intros pc' c l0 Hc Hopen Hl.
        destruct (decide (pc' < length (heap s))) as [Hpc | Hpc].
        * rewrite lookup_app_l in Hc by done.
          pose proof (reg_listeners s Hok pc' c l0 Hc Hopen Hl). congruence.
        * assert (pc' = length (heap s)) as ->.
          { apply lookup_lt_Some in Hc. rewrite length_app in Hc. cbn in Hc. lia. }
          rewrite lookup_app_r, Nat.sub_diag in Hc by done. injection Hc as <-.
          unfold fresh_connection in Hl. cbn in Hl. rewrite Hstream in Hl.
          by apply elem_of_nil in Hl.
      + cbn. by rewrite lookup_insert_eq. }
  assert (heap (client l1) !! pc
          = Some {| configuration := iceServers s; closed := false;
                    senders := []; listeners := [] |}) as Hpc.
  { rewrite Hh1. cbn. rewrite lookup_app_r, Nat.sub_diag by done.
    unfold fresh_connection. by rewrite Hstream. }
  split_and!.
  - by apply createPeerConnection_new.
  - rewrite Hp1. cbn. by rewrite lookup_insert_eq.
  - done.
  - intros steps s2.
    assert (bare pc s2) as Hbare.
    { apply bare_run_steps; [done |]. by eexists. }
    split_and!.
    + done.
    + intros browser streams. by apply handle_bare_track.
    + intros browser candidate. by apply handle_bare_icecandidate.
    + intros Haway.
      destruct (quiet_run_steps p _ false steps l1 Htasks1 Haway Hq1) as [gone' Hq2].
      split; [by eapply quiet_video | by eapply quiet_sent].
Qed.

Lemma connection_without_media_witness :
  let l1 := step (External (FromServer (Signal "B" Scenario.offer_of_B))) start in
  let s2 := client (run_steps Scenario.camera_turned_on_later l1) in
  localStream s2 = Some Scenario.camera
  ∧ remoteVideos s2 !! "B" = None
  ∧ candidates_to "B" (sent s2) = [].
Proof.
  intros l1 s2.
  assert (reachable_loop start) as Hstart by (by exists []).
  pose proof (connection_without_media start
                (FromServer (Signal "B" Scenario.offer_of_B)) "B"
                Hstart eq_refl eq_refl eq_refl) as (_ & _ & _ & Hever).
  destruct (Hever Scenario.camera_turned_on_later) as (_ & _ & _ & Hquiet).
  split; [reflexivity |]. apply Hquiet. cbn. repeat split; discriminate.
Defined.

End NoMedia.

(** * Properties of the system *)

Module System.
Import SocketIO Client.

(** C1, as the code has it.  When B joins a room A is already in, the
    server announces A to B once, and B to A once unless A has joined the
    private room of B: then A is not told.  The handler of the announce
    is the same on both sides: B sends an offer addressed to A, and A
    sends an offer addressed to B, each as soon as its browser has
    fulfilled its two calls.  Both sides initiate. *)
Theorem both_sides_initiate (a : Adapter) (A B r : string) (cA cB : Client)
    (browserA browserB : Browser) (offerA offerB : Desc) :
  Server.wf a → A ∈ room_members a r → A ≠ B →
  let out := Server.deliveries (Server.on_join B r) a in
  let pcA := (createPeerConnection B cA).1 in
  let pcB := (createPeerConnection A cB).1 in
  browserA (CreateOffer pcA) = Fulfilled offerA →
  browserA (SetLocalDescription pcA offerA) = Fulfilled tt →
  browserB (CreateOffer pcB) = Fulfilled offerB →
  browserB (SetLocalDescription pcB offerB) = Fulfilled tt →
  Server.received B (PeerJoined A) out = 1
  ∧ Server.received A (PeerJoined B) out
    = (if bool_decide (A ∈ room_members a B) then 0 else 1)
  ∧ sent (handle browserB (FromServer (PeerJoined A)) cB) =
    sent cB ++ [SignalTo (roomId cB)
                  {| type := "offer"; sdp := desc_sdp offerB;
                     candidate := None; to := Some A |}]
  ∧ sent (handle browserA (FromServer (PeerJoined B)) cA) =
    sent cA ++ [SignalTo (roomId cA)
                  {| type := "offer"; sdp := desc_sdp offerA;
                     candidate := None; to := Some B |}].
Proof.
  intros Hwf HA Hne out pcA pcB HoA HlA HoB HlB.
  destruct (ServerSpec.join_announces_both a B r A Hwf HA Hne) as [HB HA'].
  split_and!; [done | done | |].
  - by apply ClientSpec.call_sends_offer.
  - by apply ClientSpec.call_sends_offer.
Qed.

Lemma both_sides_initiate_witness :
  Server.deliveries (Server.on_join "B" "r1") Scenario.one_in_r1
    = [("B", PeerJoined "A"); ("A", PeerJoined "B")]
  ∧ offers_to "A" (sent (handle Scenario.fulfil_all (FromServer (PeerJoined "A"))
                           Scenario.client_A))
    = [SignalTo (Some "r1") {| type := "offer"; sdp := Some "v=0 o";
                               candidate := None; to := Some "A" |}]
  ∧ offers_to "B" (sent (handle Scenario.fulfil_all (FromServer (PeerJoined "B"))
                           Scenario.client_A))
    = [SignalTo (Some "r1") {| type := "offer"; sdp := Some "v=0 o";
                               candidate := None; to := Some "B" |}].
Proof.
  assert ("A" ∈ room_members Scenario.one_in_r1 "r1") as HA by (vm_compute; left).
  assert ("A" ≠ "B") as Hne by done.
  pose proof (both_sides_initiate Scenario.one_in_r1 "A" "B" "r1"
                Scenario.client_A Scenario.client_A
                Scenario.fulfil_all Scenario.fulfil_all
                {| desc_type := "offer"; desc_sdp := Some "v=0 o" |}
                {| desc_type := "offer"; desc_sdp := Some "v=0 o" |}
                (ServerSpec.wf_state_after _) HA Hne
                eq_refl eq_refl eq_refl eq_refl) as (_ & _ & HB & HA').
  split_and!.
  - vm_compute. reflexivity.
  - rewrite HB. vm_compute. reflexivity.
  - rewrite HA'. vm_compute. reflexivity.
Defined.

(** C1 as stated fails: A is in r1 when B joins, the server announces B
    to A, and A sends an offer addressed to B. *)
Lemma existing_member_initiates_counterexample :
  ¬ (∀ (a : Adapter) (A B r : string) (cA : Client) (browser : Browser)
       (msg : ServerMsg),
       Server.wf a → A ∈ room_members a r → A ≠ B →
       (A, msg) ∈ Server.deliveries (Server.on_join B r) a →
       offers_to B (sent (handle browser (FromServer msg) cA))
       = offers_to B (sent cA)).
Proof.
  intros Hclaim.
  specialize (Hclaim Scenario.one_in_r1 "A" "B" "r1" Scenario.client_A
                Scenario.fulfil_all (PeerJoined "B") (ServerSpec.wf_state_after _)).
  assert (offers_to "B" (sent (handle Scenario.fulfil_all
                                 (FromServer (PeerJoined "B")) Scenario.client_A))
          = [SignalTo (Some "r1") {| type := "offer"; sdp := Some "v=0 o";
                                     candidate := None; to := Some "B" |}]) as Hsent
    by (vm_compute; reflexivity).
  assert (offers_to "B" (sent Scenario.client_A) = []) as Hnone
    by (vm_compute; reflexivity).
  rewrite Hsent, Hnone in Hclaim. discriminate Hclaim.
  - vm_compute. left.
  - done.
  - vm_compute. right. left.
Qed.

End System.

(** * Further properties *)

Module ServerFacts.
Import SocketIO Server ServerSpec ServerCases.

(** *** The ICE endpoint, configured *)

(** X1. The hardcoded servers are the response exactly when neither a STUN
    URL nor a complete TURN triple is configured.  Otherwise the response
    is the configured servers alone, the STUN server first: one or two
    entries, none of them a hardcoded one. *)
Theorem ice_json_configured (env : Env) :
  let stun := {| urls := UrlList [default "" (STUN_URL env)];
                 username := None; credential := None |} in
  let turn := {| urls := UrlList [default "" (TURN_URL env)];
                 username := TURN_USERNAME env; credential := TURN_PASSWORD env |} in
  let has_stun := truthy (STUN_URL env) in
  let has_turn :=
    truthy (TURN_URL env) && truthy (TURN_USERNAME env) && truthy (TURN_PASSWORD env) in
  (ice_json env = fallback_servers ↔ has_stun = false ∧ has_turn = false)
  ∧ (has_stun = true ∨ has_turn = true →
       ice_json env = (if has_stun then [stun] else []) ++ (if has_turn then [turn] else [])
       ∧ length (ice_json env) ≤ 2
       ∧ ∀ server, server ∈ ice_json env → server ∉ fallback_servers).
Proof.
  intros stun turn has_stun has_turn.
  assert (∀ server, server ∈ [stun; turn] → server ∉ fallback_servers) as Hnot.
  { intros server Hs Hf. unfold fallback_servers in Hf.
    assert (∃ us, urls server = UrlList us) as [us Hus].
    { apply elem_of_cons in Hs as [-> | Hs]; [by eexists |].
      apply list_elem_of_singleton in Hs as ->. by eexists. }
    repeat (apply elem_of_cons in Hf as [-> | Hf]; [done |]).
    by apply elem_of_nil in Hf. }
  unfold ice_json. fold has_stun has_turn stun turn.
  destruct has_stun, has_turn; cbn; split.
  - split; [done | by intros [? ?]].
  - intros _. split_and!; [done | lia |]. intros server Hs. apply Hnot. set_solver.
  - split; [done | by intros [? ?]].
  - intros _. split_and!; [done | lia |]. intros server Hs. apply Hnot. set_solver.
  - split; [done | by intros [? ?]].
  - intros _. split_and!; [done | lia |]. intros server Hs. apply Hnot. set_solver.
  - done.
  - by intros [? | ?].
Qed.

Lemma ice_json_configured_witness :
  ice_json turn_only
  = [ {| urls := UrlList ["turn:localhost:3478"];
         username := Some "user"; credential := Some "secret" |} ].
Proof.
  destruct (ice_json_configured turn_only) as [_ Hconf].
  destruct Hconf as (-> & _); [by right | reflexivity].
Defined.

(** X2. A TURN configuration that lacks its URL, its user name or its
    password (unset or empty) is ignored as a whole: the response is the
    one given with no TURN variable at all.  No response carries a user
    name without a credential, or a credential without a user name. *)
Theorem ice_json_partial_turn (env : Env) :
  (truthy (TURN_URL env) = false ∨ truthy (TURN_USERNAME env) = false
   ∨ truthy (TURN_PASSWORD env) = false →
   ice_json env = ice_json {| STUN_URL := STUN_URL env; TURN_URL := None;
                                TURN_USERNAME := None; TURN_PASSWORD := None |})
  ∧ (∀ server, server ∈ ice_json env →
       truthy (username server) = truthy (credential server)).
Proof.
  split.
  - intros Hpart. unfold ice_json. cbn.
    assert (truthy (TURN_URL env) && truthy (TURN_USERNAME env)
            && truthy (TURN_PASSWORD env) = false) as ->; [| done].
    destruct Hpart as [-> | [-> | ->]]; [done | |];
      rewrite ?andb_false_r; done.
  - intros server. unfold ice_json.
    destruct (truthy (STUN_URL env));
      destruct (truthy (TURN_URL env) && truthy (TURN_USERNAME env)
                && truthy (TURN_PASSWORD env)) eqn:Hturn; cbn;
      try apply andb_true_iff in Hturn as [Hturn Hpass];
      try apply andb_true_iff in Hturn as [Hurl Huser];
      intros Hs;
      repeat (apply elem_of_cons in Hs as [-> | Hs]; [cbn; congruence |]);
      by apply elem_of_nil in Hs.
Qed.

Lemma ice_json_partial_turn_witness :
  ice_json turn_without_password
  = [ {| urls := UrlList ["stun:localhost:3478"];
         username := None; credential := None |} ].
Proof.
  destruct (ice_json_partial_turn turn_without_password) as [Hpart _].
  rewrite Hpart; [reflexivity | right; right; reflexivity].
Defined.

(** *** Joining, again *)

Lemma filter_keeps_all {A} (P : A → Prop) `{!∀ x, Decision (P x)} (l : list A) :
  length (filter P l) = length l ↔ ∀ x, x ∈ l → P x.
Proof.
  induction l as [| y l IH].
  - split; [| done]. intros _ x Hx. by apply elem_of_nil in Hx.
  - destruct (decide (P y)) as [Hy | Hy].
    + rewrite filter_cons_True by done. cbn [length]. split.
      * intros Hlen x Hx. apply elem_of_cons in Hx as [-> | Hx]; [done |].
        apply IH; [lia | done].
      * intros Hall. f_equal. apply IH. intros x Hx. apply Hall. by right.
    + rewrite filter_cons_False by done. cbn [length]. split.
      * intros Hlen. pose proof (length_filter P l) as Hle. lia.
      * intros Hall. exfalso. apply Hy, Hall. left.
Qed.

Lemma filter_none (socket : string) (l : list string) :
  filter (λ m, m ≠ socket) l = [] ↔ ∀ m, m ∈ l → m = socket.
Proof.
  split.
  - intros Hnil m Hm. destruct (decide (m = socket)) as [| Hne]; [done |].
    assert (m ∈ filter (λ m, m ≠ socket) l) as Hin by by apply list_elem_of_filter.
    rewrite Hnil in Hin. by apply elem_of_nil in Hin.
  - intros Hall. destruct (filter _ _) as [| m l'] eqn:Hf; [done |].
    assert (m ∈ filter (λ m, m ≠ socket) l) as Hin by (rewrite Hf; left).
    apply list_elem_of_filter in Hin as [Hne Hin]. by apply Hall in Hin.
Qed.

(** What a join of a connected socket sends. *)
Lemma join_deliveries (a : Adapter) (socket roomId : string) :
  socket ∈ room_members a socket →
  let others := filter (λ m, m ≠ socket) (room_members a roomId) in
  deliveries (on_join socket roomId) a
  = ((λ m, (socket, PeerJoined m)) <$> others)
    ++ ((λ m, (m, PeerJoined socket)) <$>
          filter (λ m, m ∉ room_members a socket) others).
Proof.
  intros Hconn others. unfold deliveries. rewrite on_join_unfold. cbn [snd].
  by rewrite notified_connected.
Qed.

(** X3. A join of a connected socket into a room with [n] members other
    than the socket sends [n] announces to the socket and one notice to
    each of these members that is not in the private room of the socket:
    between [n] and [2 * n] messages, and [2 * n] exactly when none of
    them has joined that private room.  It sends none exactly when the
    room does not exist, is empty, or holds the joining socket alone; the
    socket is then the only member of the room. *)
Theorem join_message_count (a : Adapter) (socket roomId : string) :
  socket ∈ room_members a socket →
  let others := filter (λ m, m ≠ socket) (room_members a roomId) in
  let notified := filter (λ m, m ∉ room_members a socket) others in
  let out := deliveries (on_join socket roomId) a in
  length out = length others + length notified
  ∧ length others ≤ length out ≤ 2 * length others
  ∧ (length out = 2 * length others ↔
     ∀ m, m ∈ others → m ∉ room_members a socket)
  ∧ (out = [] ↔ ∀ m, m ∈ room_members a roomId → m = socket)
  ∧ (rooms a !! roomId = None → out = [])
  ∧ (others = [] → NoDup (room_members a roomId) →
     room_members (state_of (on_join socket roomId) a) roomId = [socket]).
Proof.
  intros Hconn others notified out.
  assert (out = ((λ m, (socket, PeerJoined m)) <$> others)
                ++ ((λ m, (m, PeerJoined socket)) <$> notified)) as Hout
    by by apply join_deliveries.
  assert (length out = length others + length notified) as Hlen
    by (by rewrite Hout, length_app, !length_fmap).
  pose proof (length_filter (λ m, m ∉ room_members a socket) others) as Hle.
  fold notified in Hle.
  pose proof (filter_none socket (room_members a roomId)) as Hnone.
  fold others in Hnone.
  split_and!.
  - done.
  - lia.
  - lia.
  - rewrite <- (filter_keeps_all (λ m, m ∉ room_members a socket) others).
    fold notified. lia.
  - rewrite <- Hnone, Hout. split.
    + intros Happ. apply app_eq_nil in Happ as [H1 _]. by apply fmap_nil_inv in H1.
    + intros Hnil. unfold notified. by rewrite Hnil.
  - intros Hroom. rewrite Hout. unfold notified, others, room_members, members_of.
    by rewrite Hroom.
  - intros Hnil Hnd. unfold state_of. rewrite on_join_unfold. cbn [fst snd].
    rewrite room_members_addAll, decide_True by done.
    pose proof (proj1 Hnone Hnil) as Hall.
    destruct (room_members a roomId) as [| m l] eqn:Hm; [done |].
    assert (m = socket) as -> by (apply Hall; left).
    destruct l as [| m' l].
    + unfold set_add. by rewrite bool_decide_eq_true_2 by left.
    + exfalso. assert (m' = socket) as -> by (apply Hall; right; left).
      apply NoDup_cons in Hnd as [Hnd _]. apply Hnd. left.
Qed.

Lemma join_message_count_witness :
  deliveries (on_join "A" "r1") (state_after [Connect "A"]) = []
  ∧ room_members (state_of (on_join "A" "r1") (state_after [Connect "A"])) "r1" = ["A"]
  ∧ length (deliveries (on_join "B" "r1") Scenario.one_in_r1) = 2
  ∧ length (deliveries (on_join "B" "r1") Scenario.A_in_room_of_B) = 1.
Proof.
  assert ("A" ∈ room_members (state_after [Connect "A"]) "A") as HA
    by (vm_compute; left).
  assert ("B" ∈ room_members Scenario.one_in_r1 "B") as HB by (vm_compute; left).
  assert ("B" ∈ room_members Scenario.A_in_room_of_B "B") as HB'
    by (vm_compute; left).
  destruct (join_message_count (state_after [Connect "A"]) "A" "r1" HA)
    as (_ & _ & _ & _ & Hnew & Halone).
  destruct (join_message_count Scenario.one_in_r1 "B" "r1" HB) as (Htwo & _).
  destruct (join_message_count Scenario.A_in_room_of_B "B" "r1" HB') as (Hone & _).
  split_and!.
  - apply Hnew. reflexivity.
  - apply Halone; [reflexivity | constructor].
  - rewrite Htwo. vm_compute. reflexivity.
  - rewrite Hone. vm_compute. reflexivity.
Defined.

Lemma addAll_member (a : Adapter) (socket roomId : string) :
  wf a → socket ∈ room_members a roomId → addAll socket roomId a = a.
Proof.
  intros Hwf Hin.
  pose proof (proj1 (wf_consistent a Hwf roomId socket) Hin) as Hin'.
  unfold addAll, set_add. rewrite !bool_decide_eq_true_2 by done.
  unfold room_members, socket_rooms, members_of in *.
  destruct (rooms a !! roomId) as [l |] eqn:Hr; [| by apply elem_of_nil in Hin].
  destruct (sids a !! socket) as [l' |] eqn:Hs; [| by apply elem_of_nil in Hin'].
  cbn. rewrite !insert_id by done. by destruct a.
Qed.

(** X4. A connected socket that joins a room it is already in changes no
    membership, but the announces are sent again: it is told once more of
    every other member, and every other member that is not in its private
    room is told once more of it. *)
Theorem rejoin_repeats_announces (a : Adapter) (socket roomId : string) :
  wf a → socket ∈ room_members a socket → socket ∈ room_members a roomId →
  let others := filter (λ m, m ≠ socket) (room_members a roomId) in
  let notified := filter (λ m, m ∉ room_members a socket) others in
  let out := deliveries (on_join socket roomId) a in
  state_of (on_join socket roomId) a = a
  ∧ out = ((λ m, (socket, PeerJoined m)) <$> others)
          ++ ((λ m, (m, PeerJoined socket)) <$> notified)
  ∧ (∀ m, m ∈ room_members a roomId → m ≠ socket →
       received socket (PeerJoined m) out = 1
       ∧ received m (PeerJoined socket) out
         = (if bool_decide (m ∈ room_members a socket) then 0 else 1)).
Proof.
  intros Hwf Hconn Hin others notified out. split_and!.
  - unfold state_of. rewrite on_join_unfold. cbn [fst snd]. by apply addAll_member.
  - by apply join_deliveries.
  - intros m Hm Hne. by apply join_announces_both.
Qed.

Lemma rejoin_repeats_announces_witness :
  state_of (on_join "B" "r1") Scenario.two_in_r1 = Scenario.two_in_r1
  ∧ deliveries (on_join "B" "r1") Scenario.two_in_r1
    = [("B", PeerJoined "A"); ("A", PeerJoined "B")]
  ∧ deliveries (on_join "B" "r1") Scenario.A_follows_B = [("B", PeerJoined "A")].
Proof.
  assert ("B" ∈ room_members Scenario.two_in_r1 "B") as Hconn
    by (vm_compute; left).
  assert ("B" ∈ room_members Scenario.two_in_r1 "r1") as HB
    by (vm_compute; right; left).
  assert ("B" ∈ room_members Scenario.A_follows_B "B") as Hconn'
    by (vm_compute; left).
  assert ("B" ∈ room_members Scenario.A_follows_B "r1") as HB'
    by (vm_compute; right; left).
  destruct (rejoin_repeats_announces Scenario.two_in_r1 "B" "r1"
              (wf_state_after _) Hconn HB) as (Hstate & Hout & _).
  destruct (rejoin_repeats_announces Scenario.A_follows_B "B" "r1"
              (wf_state_after _) Hconn' HB') as (_ & Hout' & _).
  split_and!; [exact Hstate | |].
  - rewrite Hout. vm_compute. reflexivity.
  - rewrite Hout'. vm_compute. reflexivity.
Defined.

(** *** Coming and going *)

Lemma set_delete_set_add (x : string) (l : list string) :
  x ∉ l → set_delete x (set_add x l) = l.
Proof.
  intros Hx. unfold set_add, set_delete. rewrite bool_decide_eq_false_2 by done.
  rewrite filter_app, filter_cons_False, filter_nil, app_nil_r by (intros ?; done).
  induction l as [| y l IH]; [done |].
  apply not_elem_of_cons in Hx as [Hne Hx].
  rewrite filter_cons_True by done. f_equal. by apply IH.
Qed.

(** A socket without rooms is a member of none. *)
Lemma absent_in_no_room (a : Adapter) (c r : string) :
  wf a → socket_rooms a c = [] → c ∉ room_members a r.
Proof.
  intros Hwf Hc Hin. apply (wf_consistent a Hwf) in Hin.
  rewrite Hc in Hin. by apply elem_of_nil in Hin.
Qed.

(** X5. A client that connects, joins a room and disconnects: every
    member of the room is told once of its arrival and once of its
    departure, and all memberships end as they were before it came.  Only
    a member that was already in the room named by the identifier of the
    client, before that identifier existed, is told of neither. *)
Theorem join_then_disconnect (a : Adapter) (B r m : string) :
  wf a → socket_rooms a B = [] → r ≠ B → m ∈ room_members a r →
  let a1 := state_of (connect B) a in
  let a2 := state_of (on_join B r) a1 in
  let a3 := state_of (disconnect B) a2 in
  let told := if bool_decide (m ∈ room_members a B) then 0 else 1 in
  received m (PeerJoined B) (deliveries (on_join B r) a1) = told
  ∧ received m (PeerLeft B) (deliveries (disconnect B) a2) = told
  ∧ (∀ r', room_members a3 r' = room_members a r')
  ∧ (∀ c, socket_rooms a3 c = socket_rooms a c).
Proof.
  intros Hwf HB Hr Hm a1 a2 a3 told.
  assert (a1 = addAll B B a) as Ha1 by done.
  assert (a2 = addAll B r a1) as Ha2
    by (unfold a2, state_of; by rewrite on_join_unfold).
  assert (a3 = delAll B a2) as Ha3
    by (unfold a3, state_of; by rewrite disconnect_unfold).
  assert (wf a1) as Hwf1 by (rewrite Ha1; by apply wf_addAll).
  assert (wf a2) as Hwf2 by (rewrite Ha2; by apply wf_addAll).
  assert (m ≠ B) as Hne.
  { intros ->. by apply (absent_in_no_room a B r). }
  assert (room_members a1 r = room_members a r) as Hr1
    by (by rewrite Ha1, room_members_addAll, decide_False).
  assert (socket_rooms a2 B = [B; r]) as Hrooms.
  { rewrite Ha2, socket_rooms_addAll, decide_True by done.
    rewrite Ha1, socket_rooms_addAll, decide_True, HB by done.
    unfold set_add. cbn.
    rewrite bool_decide_eq_false_2; [done |].
    intros Hin. apply list_elem_of_singleton in Hin. done. }
  assert (m ∈ room_members a1 B ↔ m ∈ room_members a B) as Hpriv1.
  { rewrite Ha1, room_members_addAll, decide_True by done.
    rewrite elem_of_set_add. naive_solver. }
  assert (m ∈ room_members a2 B ↔ m ∈ room_members a B) as Hpriv2
    by (by rewrite Ha2, room_members_addAll, decide_False).
  split_and!.
  - destruct (join_announces_both a1 B r m) as [_ ->]; [done | by rewrite Hr1 | done |].
    unfold told. apply (f_equal (λ b : bool, if b then 0 else 1)).
    by apply bool_decide_ext.
  - unfold deliveries. rewrite disconnect_unfold. cbn [snd].
    unfold deliveries. rewrite on_disconnecting_unfold. cbn [snd].
    rewrite received_notify by done.
    rewrite (bool_decide_ext _ _ Hpriv2). unfold told.
    case_bool_decide; [done |].
    rewrite Hrooms.
    rewrite filter_cons_False by (intros ?; done).
    rewrite (filter_cons_True _ r) by done. rewrite filter_nil.
    rewrite filter_cons_True; [done |].
    rewrite Ha2, room_members_addAll, decide_True by done.
    apply elem_of_set_add. right. by rewrite Hr1.
  - intros r'. rewrite Ha3, room_members_delAll, Hrooms.
    destruct (decide (r' = r)) as [-> | Hr'].
    + rewrite decide_True by (right; left).
      rewrite Ha2, room_members_addAll, decide_True by done. rewrite Hr1.
      apply set_delete_set_add. by apply absent_in_no_room.
    + destruct (decide (r' = B)) as [-> | HrB].
      * rewrite decide_True by left.
        rewrite Ha2, room_members_addAll, decide_False by done.
        rewrite Ha1, room_members_addAll, decide_True by done.
        apply set_delete_set_add. by apply absent_in_no_room.
      * rewrite decide_False.
        2:{ intros Hin. apply elem_of_cons in Hin as [? | Hin]; [done |].
            by apply list_elem_of_singleton in Hin. }
        rewrite Ha2, room_members_addAll, decide_False by done.
        by rewrite Ha1, room_members_addAll, decide_False.
  - intros c. rewrite Ha3, socket_rooms_delAll.
    destruct (decide (c = B)) as [-> | Hc]; [done |].
    rewrite Ha2, socket_rooms_addAll, decide_False by done.
    by rewrite Ha1, socket_rooms_addAll, decide_False.
Qed.

Lemma join_then_disconnect_witness :
  let a := state_after [Connect "A"; JoinReq "A" "r1"] in
  received "A" (PeerLeft "B") (deliveries (disconnect "B") B_joined_r1) = 1
  ∧ room_members (state_of (disconnect "B") B_joined_r1) "r1" = room_members a "r1".
Proof.
  intros a.
  assert (socket_rooms a "B" = []) as HB by reflexivity.
  assert ("r1" ≠ "B") as Hr by done.
  assert ("A" ∈ room_members a "r1") as HA by (vm_compute; left).
  destruct (join_then_disconnect a "B" "r1" "A" (wf_state_after _) HB Hr HA)
    as (_ & Hleft & Hrooms & _).
  split; [exact Hleft | exact (Hrooms "r1")].
Defined.

(** A request of another socket sends nothing to a socket that is in no
    room, and leaves it in no room. *)
Lemma absent_handle (a : Adapter) (c : string) (req : Request) :
  wf a → socket_rooms a c = [] → requester req ≠ c →
  socket_rooms (state_of (handle req) a) c = []
  ∧ ∀ msg, (c, msg) ∉ deliveries (handle req) a.
Proof.
  intros Hwf Hc Hreq.
  pose proof (absent_in_no_room a c) as Habs.
  destruct req as [id | id roomId | id roomId data | id]; cbn in Hreq;
    unfold state_of, deliveries; cbn [handle].
  - cbn. split; [| intros msg Hin; by apply elem_of_nil in Hin].
    by rewrite socket_rooms_addAll, decide_False.
  - rewrite on_join_unfold. cbn [fst snd]. split.
    + by rewrite socket_rooms_addAll, decide_False.
    + intros msg. rewrite elem_of_app, !list_elem_of_fmap.
      intros [(x & [= Hx _] & _) | (x & [= <- _] & Hx)]; [done |].
      apply list_elem_of_filter in Hx as [_ Hx].
      rewrite room_members_addAll, decide_True in Hx by done.
      apply elem_of_set_add in Hx as [? | Hx]; [done |]. by eapply Habs.
  - rewrite on_signal_unfold. cbn [fst snd]. split; [done |].
    intros msg. destruct (truthy (to data)); rewrite list_elem_of_fmap.
    + intros (x & [= <- _] & Hx). by eapply Habs.
    + intros (x & [= <- _] & Hx). apply list_elem_of_filter in Hx as [_ Hx].
      by eapply Habs.
  - rewrite disconnect_unfold. cbn [fst snd]. split.
    + by rewrite socket_rooms_delAll, decide_False.
    + intros msg. unfold deliveries. rewrite on_disconnecting_unfold. cbn [snd].
      rewrite list_elem_of_bind. intros (r & Hd & _).
      apply list_elem_of_fmap in Hd as (x & [= <- _] & Hx).
      apply list_elem_of_filter in Hx as [_ Hx]. by eapply Habs.
Qed.

Lemma run_cons (req : Request) (reqs : list Request) (a : Adapter) :
  deliveries (run (req :: reqs)) a
  = deliveries (handle req) a ++ deliveries (run reqs) (state_of (handle req) a).
Proof. unfold run, deliveries at 1. by rewrite forEach_cons. Qed.

(** X6. Once a client has disconnected, nothing the other sockets ask of
    the server is delivered to it: no announce, no notice, and no envelope
    either, directed or not. *)
Theorem disconnected_receives_nothing (a : Adapter) (c : string)
    (reqs : list Request) :
  wf a → Forall (λ req, requester req ≠ c) reqs →
  ∀ msg, (c, msg) ∉ deliveries (run reqs) (state_of (disconnect c) a).
Proof.
  intros Hwf Hreqs.
  assert (wf (state_of (disconnect c) a)) as Hwf'
    by (unfold state_of; rewrite disconnect_unfold; by apply wf_delAll).
  assert (socket_rooms (state_of (disconnect c) a) c = []) as Hc.
  { unfold state_of. rewrite disconnect_unfold. cbn [fst snd].
    by rewrite socket_rooms_delAll, decide_True. }
  revert Hwf' Hc. generalize (state_of (disconnect c) a). clear Hwf a.
  induction Hreqs as [| req reqs Hreq Hreqs IH]; intros a Hwf Hc msg.
  - intros Hin. by apply elem_of_nil in Hin.
  - rewrite run_cons, elem_of_app.
    destruct (absent_handle a c req Hwf Hc Hreq) as [Hc' Hnone].
    intros [Hin | Hin]; [by eapply Hnone |].
    eapply IH; [by apply wf_handle | done | done].
Qed.

Lemma disconnected_receives_nothing_witness :
  ("B", Signal "A" Scenario.to_B)
    ∉ deliveries (run [SignalReq "A" "r1" Scenario.to_B; JoinReq "A" "r2"])
        (state_of (disconnect "B") Scenario.two_in_two_rooms).
Proof.
  apply (disconnected_receives_nothing Scenario.two_in_two_rooms "B"
           [SignalReq "A" "r1" Scenario.to_B; JoinReq "A" "r2"]
           (wf_state_after _)).
  repeat constructor; done.
Defined.

End ServerFacts.

Module MediaFacts.
Import Client ClientSpec Media.

(** *** The camera button *)

Lemma set_first_video_None v (l : list MediaStreamTrack) :
  set_first_video v l = None ↔ Forall (λ t, kind t = AudioTrack) l.
Proof.
  induction l as [| t l IH]; cbn.
  - split; [constructor | done].
  - destruct (kind t) eqn:Hk.
    + rewrite fmap_None, IH. split.
      * intros Hl. by constructor.
      * intros Hl. by apply Forall_cons in Hl as [_ ?].
    + split; [done |]. intros Hl. apply Forall_cons in Hl as [Ht _]. congruence.
Qed.

Lemma set_first_video_Some v (before : list MediaStreamTrack) t after :
  Forall (λ t, kind t = AudioTrack) before → kind t = VideoTrack →
  set_first_video v (before ++ t :: after)
  = Some (before ++ with_enabled v t :: after).
Proof.
  intros Hb Ht. induction Hb as [| a before Ha Hb IH]; cbn.
  - unfold with_enabled. by rewrite Ht.
  - by rewrite Ha, IH.
Qed.

Lemma handle_toggle browser s :
  handle browser ClickToggleCam s = (on_toggle_cam s).2.
Proof. unfold handle. cbn [handler]. by rewrite run_sync. Qed.

Lemma on_toggle_cam_video s stream (before after : list MediaStreamTrack) t :
  localStream s = Some stream →
  tracks stream = before ++ t :: after →
  Forall (λ t, kind t = AudioTrack) before → kind t = VideoTrack →
  let on := negb (camEnabled s) in
  let s' := (on_toggle_cam s).2 in
  camEnabled s' = on
  ∧ localStream s'
    = Some {| stream_id := stream_id stream;
              tracks := before ++ with_enabled on t :: after |}
  ∧ toggleCamBtn_textContent s' = Some (cam_label on)
  ∧ trace s' = trace s ∧ heap s' = heap s
  ∧ peerConnections s' = peerConnections s ∧ remoteVideos s' = remoteVideos s
  ∧ roomId s' = roomId s.
Proof.
  intros Hs Ht Hb Hk on s'. unfold s'.
  unfold on_toggle_cam, mbind, Sync_bind, gets, modify. rewrite Hs, Ht.
  rewrite set_first_video_Some by done. cbn. unfold cam_label. fold on.
  by destruct on.
Qed.

(** X7. A click on the camera button does nothing at all, the button's
    text included, exactly when there is no local stream or the local
    stream has no video track. *)
Theorem toggle_needs_video_track (browser : Browser) (s : Client) :
  handle browser ClickToggleCam s = s ↔
  match localStream s with
  | None => True
  | Some stream => Forall (λ t, kind t = AudioTrack) (tracks stream)
  end.
Proof.
  rewrite handle_toggle. unfold on_toggle_cam, mbind, Sync_bind, gets, modify.
  destruct (localStream s) as [stream |] eqn:Hs; [| done].
  destruct (set_first_video (negb (camEnabled s)) (tracks stream)) as [tracks' |] eqn:Hv.
  - cbn. split.
    + intros Heq. apply (f_equal camEnabled) in Heq. cbn in Heq.
      by destruct (camEnabled s).
    + intros Hall. apply set_first_video_None with (v := negb (camEnabled s)) in Hall.
      congruence.
  - cbn. split; [| done]. intros _. by eapply set_first_video_None.
Qed.

(** X8. With a video track in the local stream, a click flips
    [camEnabled], writes the new value to the first video track and to
    nothing else (the audio tracks and any further video track stay as
    they are), and sets the button's text.  It sends nothing and touches
    no connection. *)
Theorem toggle_first_video_track (browser : Browser) (s : Client)
    (stream : MediaStream) (before after : list MediaStreamTrack)
    (t : MediaStreamTrack) :
  localStream s = Some stream →
  tracks stream = before ++ t :: after →
  Forall (λ t, kind t = AudioTrack) before → kind t = VideoTrack →
  let on := negb (camEnabled s) in
  let s' := handle browser ClickToggleCam s in
  camEnabled s' = on
  ∧ localStream s'
    = Some {| stream_id := stream_id stream;
              tracks := before ++ with_enabled on t :: after |}
  ∧ toggleCamBtn_textContent s' = Some (cam_label on)
  ∧ trace s' = trace s ∧ heap s' = heap s
  ∧ peerConnections s' = peerConnections s ∧ remoteVideos s' = remoteVideos s
  ∧ roomId s' = roomId s.
Proof.
  intros Hs Ht Hb Hk on s'. unfold s'. rewrite handle_toggle.
  by apply on_toggle_cam_video.
Qed.

Lemma toggle_first_video_track_witness :
  let s' := handle Scenario.fulfil_all ClickToggleCam Scenario.client_A in
  camEnabled s' = false
  ∧ localStream s'
    = Some {| stream_id := "cam";
              tracks := [ {| track_id := 0; kind := AudioTrack; enabled := true |};
                          {| track_id := 1; kind := VideoTrack; enabled := false |} ] |}.
Proof.
  intros s'.
  destruct (toggle_first_video_track Scenario.fulfil_all Scenario.client_A
              Scenario.camera
              [ {| track_id := 0; kind := AudioTrack; enabled := true |} ] []
              {| track_id := 1; kind := VideoTrack; enabled := true |}
              eq_refl eq_refl) as (Hcam & Hstream & _).
  - by repeat constructor.
  - reflexivity.
  - split; [exact Hcam | exact Hstream].
Defined.

(** X9. Two clicks bring [camEnabled] and the button's text back; the
    first video track then carries the value of [camEnabled], whatever it
    carried before.  So the stream is as it was exactly when the track
    agreed with [camEnabled]. *)
Theorem toggle_twice (browser : Browser) (s : Client)
    (stream : MediaStream) (before after : list MediaStreamTrack)
    (t : MediaStreamTrack) :
  localStream s = Some stream →
  tracks stream = before ++ t :: after →
  Forall (λ t, kind t = AudioTrack) before → kind t = VideoTrack →
  let s2 := handle browser ClickToggleCam (handle browser ClickToggleCam s) in
  camEnabled s2 = camEnabled s
  ∧ toggleCamBtn_textContent s2 = Some (cam_label (camEnabled s))
  ∧ localStream s2
    = Some {| stream_id := stream_id stream;
              tracks := before ++ with_enabled (camEnabled s) t :: after |}
  ∧ (localStream s2 = localStream s ↔ enabled t = camEnabled s).
Proof.
  intros Hs Ht Hb Hk s2. unfold s2. rewrite !handle_toggle.
  destruct (on_toggle_cam_video s stream before after t Hs Ht Hb Hk)
    as (Hcam1 & Hs1 & _).
  destruct (on_toggle_cam_video (on_toggle_cam s).2
              {| stream_id := stream_id stream;
                 tracks := before ++ with_enabled (negb (camEnabled s)) t :: after |}
              before after (with_enabled (negb (camEnabled s)) t)
              Hs1 eq_refl Hb Hk) as (Hcam2 & Hs2 & Hlabel & _).
  rewrite Hcam1, negb_involutive in *.
  split_and!; [done | done | by rewrite Hs2 |].
  rewrite Hs2, Hs. destruct stream as [id ts]. cbn in *. subst ts. split.
  - intros [= Heq]. apply app_inv_head in Heq. injection Heq as Heq.
    apply (f_equal enabled) in Heq. by rewrite <- Heq.
  - intros He. do 4 f_equal. unfold with_enabled. destruct t. cbn in *. by subst.
Qed.

Lemma toggle_twice_witness :
  let s2 := handle Scenario.fulfil_all ClickToggleCam
              (handle Scenario.fulfil_all ClickToggleCam Scenario.client_A) in
  camEnabled s2 = true ∧ localStream s2 = Some Scenario.camera.
Proof.
  intros s2.
  destruct (toggle_twice Scenario.fulfil_all Scenario.client_A
              Scenario.camera
              [ {| track_id := 0; kind := AudioTrack; enabled := true |} ] []
              {| track_id := 1; kind := VideoTrack; enabled := true |}
              eq_refl eq_refl) as (Hcam & _ & Hstream & _).
  - by repeat constructor.
  - reflexivity.
  - split; [exact Hcam | exact Hstream].
Defined.

End MediaFacts.

Module JoinFacts.
Import Client ClientSpec Media.

(** *** Trimming *)

Lemma without_prefix_length (p s rest : string) :
  without_prefix p s = Some rest →
  String.length s = String.length p + String.length rest.
Proof.
  revert s. induction p as [| c p IH]; intros s; cbn.
  - by intros [= ->].
  - destruct s as [| d s]; [done |]. destruct (Ascii.eqb c d); [| done].
    intros Hrest. cbn. f_equal. by apply IH.
Qed.

Lemma strip_one_length (ws : list string) (s rest : string) :
  Forall (λ w, w ≠ "") ws → strip_one ws s = Some rest →
  String.length rest < String.length s.
Proof.
  induction 1 as [| w ws Hw Hws IH]; cbn; [done |].
  destruct (without_prefix w s) as [r |] eqn:Hr; [| done].
  intros [= ->]. apply without_prefix_length in Hr.
  destruct w as [| c w]; [done |]. cbn in Hr. lia.
Qed.

(** With the length of the string as fuel, nothing is left to strip. *)
Lemma strip_all_done (ws : list string) (fuel : nat) (s : string) :
  Forall (λ w, w ≠ "") ws → String.length s ≤ fuel →
  strip_one ws (strip_all ws fuel s) = None.
Proof.
  intros Hws. revert s. induction fuel as [| fuel IH]; intros s Hs; cbn.
  - destruct (strip_one ws s) as [rest |] eqn:Hrest; [| done].
    apply strip_one_length in Hrest; [lia | done].
  - destruct (strip_one ws s) as [rest |] eqn:Hrest; [| done].
    apply IH. apply strip_one_length in Hrest; [lia | done].
Qed.

Lemma length_rev_app (s acc : string) :
  String.length (String.rev_app s acc) = String.length s + String.length acc.
Proof.
  revert acc. induction s as [| c s IH]; intros acc; [done |].
  cbn. rewrite IH. cbn. lia.
Qed.

(** [trim] leaves no white space at either end: neither the start of
    [trim_start s] nor the end of [trim_end s] is one of the sequences. *)
Lemma trim_leaves_none (s : string) :
  strip_one white_space (trim_start s) = None
  ∧ ∃ r, trim_end s = String.rev r
         ∧ strip_one (String.rev <$> white_space) r = None.
Proof.
  split.
  - apply strip_all_done; [| done].
    apply (bool_decide_unpack _). vm_compute. exact I.
  - eexists. split; [reflexivity |]. apply strip_all_done.
    + apply (bool_decide_unpack _). vm_compute. exact I.
    + unfold String.rev. rewrite length_rev_app. cbn. lia.
Qed.

(** *** The join button *)





(** X11. A click on join with a room typed in asks for the camera first.
    When the browser grants it, the stream becomes the local stream and the
    source of the local video, and one [join] for the trimmed room is sent;
    the connections that exist keep the tracks they had, and [camEnabled]
    is not applied to the new stream.  When the browser refuses, the
    handler throws: no [join] is sent and the local stream stays as it was,
    though [roomId] is already set. *)
Theorem join_click_media (browser : Browser) (s : Client) (value : string) :
  trim value ≠ "" →
  let room := trim value in
  let s' := handle browser (ClickJoin value) s in
  (∀ stream, browser GetUserMedia = Fulfilled stream →
     run browser (on_join_click value) s = (Returned tt, s')
     ∧ s' = set_trace (trace s ++ [Awaited GetUserMedia true; Emitted (JoinRoom room)])
              (set_localVideo_srcObject (Some (stream_id stream))
                 (set_localStream (Some stream) (set_roomId (Some room) s)))
     ∧ sent s' = sent s ++ [JoinRoom room]
     ∧ localStream s' = Some stream
     ∧ heap s' = heap s ∧ camEnabled s' = camEnabled s)
  ∧ (browser GetUserMedia = Rejected →
     run browser (on_join_click value) s = (Threw, s')
     ∧ s' = set_trace (trace s ++ [Awaited GetUserMedia false])
              (set_roomId (Some room) s)
     ∧ sent s' = sent s
     ∧ localStream s' = localStream s
     ∧ roomId s' = Some room).
Proof.
  intros Hroom room s'.
  assert (truthy (Some room) = true) as Htruthy.
  { cbn. apply negb_true_iff. by apply String.eqb_neq. }
  split.
  - intros stream Hmedia.
    assert (run browser (on_join_click value) s
            = (Returned tt,
               set_trace (trace s ++ [Awaited GetUserMedia true; Emitted (JoinRoom room)])
                 (set_localVideo_srcObject (Some (stream_id stream))
                    (set_localStream (Some stream) (set_roomId (Some room) s)))))
      as Hrun.
    { unfold on_join_click. cbn. fold room. cbn in Htruthy. rewrite Htruthy. cbn.
      rewrite Hmedia. cbn. by rewrite <- app_assoc. }
    assert (s' = (run browser (on_join_click value) s).2) as Hs' by done.
    rewrite Hrun in Hs'. cbn [snd] in Hs'.
    split_and!; rewrite ?Hrun, ?Hs'; try done.
    unfold sent. cbn. rewrite omap_app. cbn. done.
  - intros Hmedia.
    assert (run browser (on_join_click value) s
            = (Threw, set_trace (trace s ++ [Awaited GetUserMedia false])
                        (set_roomId (Some room) s))) as Hrun.
    { unfold on_join_click. cbn. fold room. cbn in Htruthy. rewrite Htruthy. cbn.
      by rewrite Hmedia. }
    assert (s' = (run browser (on_join_click value) s).2) as Hs' by done.
    rewrite Hrun in Hs'. cbn [snd] in Hs'.
    split_and!; rewrite ?Hrun, ?Hs'; try done.
    unfold sent. cbn. rewrite omap_app. cbn. by rewrite app_nil_r.
Qed.

Lemma join_click_media_witness :
  let value := nbsp +:+ " r2" +:+ ideographic_space in
  sent (handle Scenario.fulfil_all (ClickJoin value) Scenario.client_A)
    = [JoinRoom "r1"; JoinRoom "r2"]
  ∧ sent (handle Scenario.reject_all (ClickJoin value) Scenario.client_A)
    = [JoinRoom "r1"].
Proof.
  intros value.
  assert (trim value ≠ "") as Hroom by (vm_compute; discriminate).
  destruct (join_click_media Scenario.fulfil_all Scenario.client_A value Hroom)
    as [Hgranted _].
  destruct (join_click_media Scenario.reject_all Scenario.client_A value Hroom)
    as [_ Hrefused].
  destruct (Hgranted Scenario.camera eq_refl) as (_ & _ & -> & _).
  destruct (Hrefused eq_refl) as (_ & _ & -> & _).
  split; vm_compute; reflexivity.
Defined.

(** *** Two clicks on join *)

Lemma lookup_middle {A} (l1 l2 : list A) x : (l1 ++ x :: l2) !! length l1 = Some x.
Proof. by rewrite lookup_app_r, Nat.sub_diag. Qed.

(** X12. The [join] is sent for the room that [roomId] holds when the
    camera is granted, not for the one typed at the click: when the user
    clicks join for a second room while the browser still asks for the
    camera, the handler of the first click, once resumed, sends [join] for
    the second room (the empty string if the field was blank then), and
    none for the first. *)
Theorem join_sends_latest_room (l : Loop) (v1 v2 : string) (browser : Browser)
    (stream : MediaStream) :
  trim v1 ≠ "" → browser GetUserMedia = Fulfilled stream →
  let first := length (pending l) in
  let l3 := run_steps [External (ClickJoin v1); External (ClickJoin v2);
                       Settle first browser] l in
  sent (client l3) = sent (client l) ++ [JoinRoom (trim v2)]
  ∧ roomId (client l3) = Some (trim v2).
Proof.
  intros Hroom Hmedia first l3. unfold l3, first. cbn [run_steps].
  apply String.eqb_neq in Hroom.
  cbn [step handler]. unfold spawn at 3, on_join_click at 2. cbn.
  rewrite Hroom. cbn.
  destruct (String.eqb (trim v2) "") eqn:Hv2; cbn;
    rewrite <- app_assoc; cbn [app]; rewrite lookup_middle; cbn;
    rewrite Hmedia; cbn; unfold sent; cbn; rewrite !omap_app; cbn.
  - by rewrite !app_nil_r.
  - by rewrite !app_nil_r.
Qed.

Lemma join_sends_latest_room_witness :
  sent (client (run_steps [External (ClickJoin "r1");
                           External (ClickJoin (nbsp +:+ "r2" +:+ nbsp));
                           Settle 0 Scenario.fulfil_all] start))
  = [JoinRoom "r2"]
  ∧ sent (client (run_steps [External (ClickJoin "r1"); External (ClickJoin nbsp);
                             Settle 0 Scenario.fulfil_all] start))
    = [JoinRoom ""].
Proof.
  assert (trim "r1" ≠ "") as Hroom by (vm_compute; discriminate).
  destruct (join_sends_latest_room start "r1" (nbsp +:+ "r2" +:+ nbsp)
              Scenario.fulfil_all Scenario.camera Hroom eq_refl) as [Hsent _].
  destruct (join_sends_latest_room start "r1" nbsp
              Scenario.fulfil_all Scenario.camera Hroom eq_refl) as [Hblank _].
  split.
  - etrans; [exact Hsent | vm_compute; reflexivity].
  - etrans; [exact Hblank | vm_compute; reflexivity].
Defined.

End JoinFacts.

Module ReachFacts.
Import Client ClientSpec NoMedia Media Page.

(** *** Invariants of the event loop *)

Section invariant.
Context (I : Client → Prop).
Hypothesis I_handler : ∀ ev, all_sync I (handler ev).
Hypothesis I_await : ∀ s op b, I s → I (set_trace (trace s ++ [Awaited op b]) s).

Lemma advance_task_keeps (p : Prog unit) s t :
  all_sync I p → (advance p s).2 = Some t → ∀ o, all_sync I (resume t o).
Proof.
  revert s. induction p as [a | | X m k IH | op k IH]; intros s Hp; cbn in *;
    try done.
  - destruct Hp as [_ Hk]. destruct (m s) as [x s1]. by apply IH.
  - intros [= <-]. exact Hp.
Qed.

Lemma invariant_spawn (p : Prog unit) s others :
  all_sync I p → I s →
  Forall (λ t, ∀ o, all_sync I (resume t o)) others →
  I (client (spawn p s others))
  ∧ Forall (λ t, ∀ o, all_sync I (resume t o)) (pending (spawn p s others)).
Proof.
  intros Hp Hs Hothers. unfold spawn. cbn. split; [by apply advance_keeps |].
  apply Forall_app. split; [done |].
  destruct (advance p s).2 as [t |] eqn:Ht; cbn; [| constructor].
  constructor; [| constructor]. by eapply advance_task_keeps.
Qed.

Lemma invariant_step st l :
  I (client l) → Forall (λ t, ∀ o, all_sync I (resume t o)) (pending l) →
  I (client (step st l))
  ∧ Forall (λ t, ∀ o, all_sync I (resume t o)) (pending (step st l)).
Proof.
  intros Hs Hl. destruct st as [ev | i browser]; cbn [step].
  - by apply invariant_spawn.
  - destruct (pending l !! i) as [t |] eqn:Ht; [| done].
    apply invariant_spawn.
    + eapply Forall_lookup_1 in Hl; [| exact Ht]. apply Hl.
    + by apply I_await.
    + by apply Forall_delete.
Qed.

Lemma invariant_run_steps steps l :
  I (client l) → Forall (λ t, ∀ o, all_sync I (resume t o)) (pending l) →
  I (client (run_steps steps l)).
Proof.
  revert l. induction steps as [| st steps IH]; intros l Hs Hl; [done |].
  cbn. destruct (invariant_step st l Hs Hl) as [Hs' Hl']. by apply IH.
Qed.

(** What holds at the start and is kept by every synchronous stretch of
    every handler holds in every state the client reaches. *)
Lemma invariant_reachable s : I init → reachable s → I s.
Proof.
  intros Hinit (l & [steps ->] & ->).
  apply invariant_run_steps; [done | constructor].
Qed.

End invariant.

(** *** Connections keep the listeners they were created with *)

Lemma all_wired_frame s s' : heap s' = heap s → all_wired s → all_wired s'.
Proof. intros Hh. unfold all_wired. by rewrite Hh. Qed.

Lemma all_wired_createPeerConnection q : preserves all_wired (createPeerConnection q).
Proof.
  intros s Hs. destruct (peerConnections s !! q) as [pc0 |] eqn:Hq.
  { by rewrite (createPeerConnection_existing s q pc0). }
  rewrite createPeerConnection_new by done. unfold all_wired. cbn. intros pc c Hc.
  destruct (decide (pc < length (heap s))) as [Hpc | Hpc].
  - rewrite lookup_app_l in Hc by done. by eapply Hs.
  - assert (pc = length (heap s)) as ->.
    { apply lookup_lt_Some in Hc. rewrite length_app in Hc. cbn in Hc. lia. }
    rewrite lookup_app_r, Nat.sub_diag in Hc by done. injection Hc as <-.
    unfold wired, fresh_connection. cbn.
    destruct (localStream s); [right; by eexists | by left].
Qed.

Lemma all_wired_on_peer_left q : preserves all_wired (on_peer_left q).
Proof.
  intros s Hs. rewrite on_peer_left_unfold. cbn [snd].
  unfold all_wired. rewrite heap_drop_video. unfold close_connection.
  destruct (peerConnections s !! q) as [pc0 |]; cbn; [| done].
  intros pc c. destruct (decide (pc = pc0)) as [-> | Hne].
  - rewrite list_lookup_alter_eq.
    destruct (heap s !! pc0) as [c0 |] eqn:Hc0; cbn; [| done].
    intros [= <-]. apply (Hs pc0 c0 Hc0).
  - rewrite list_lookup_alter_ne by done. apply Hs.
Qed.

Lemma all_wired_handler ev : all_sync all_wired (handler ev).
Proof.
  assert (∀ s s', heap s' = heap s → peerConnections s' = peerConnections s →
            remoteVideos s' = remoteVideos s → trace s' = trace s →
            all_wired s → all_wired s') as Hframe
    by (intros s s' Hh _ _ _; by apply all_wired_frame).
  assert (∀ e s0, True → all_wired s0 → all_wired (set_trace (trace s0 ++ [e]) s0))
    as Hlog by (intros e s0 _; by apply all_wired_frame).
  assert (∀ q, True → preserves all_wired (createPeerConnection q)) as Hcreate
    by (intros q _; apply all_wired_createPeerConnection).
  destruct ev as [servers | value | | [p | from data | p] | pc' streams | pc' candidate];
    cbn [handler].
  - by apply all_sync_sync, keeps_on_ice_config.
  - by apply keeps_on_join_click with (ok := λ _, True).
  - by apply all_sync_sync, keeps_on_toggle_cam.
  - by apply keeps_makeCall with (ok := λ _, True) (may_create := λ _, True).
  - by apply keeps_on_signal with (ok := λ _, True) (may_create := λ _, True).
  - apply all_sync_sync, all_wired_on_peer_left.
  - apply all_sync_sync, preserves_fire. intros c [q | q] Hl; [| by intros s].
    intros s (Hs & Hc & Hopen).
    destruct (on_track_fields q streams s) as (Hh & _). rewrite Hh.
    split; [| done]. by apply (all_wired_frame s).
  - apply all_sync_sync, preserves_fire. intros c [q | q] Hl; [by intros s |].
    intros s (Hs & Hc & Hopen).
    destruct (on_icecandidate_fields q candidate s) as (Hh & _). rewrite Hh.
    split; [| done]. by apply (all_wired_frame s).
Qed.

Lemma all_wired_reachable s : reachable s → all_wired s.
Proof.
  apply invariant_reachable.
  - apply all_wired_handler.
  - intros s0 op b. by apply all_wired_frame.
  - intros pc c. cbn. by rewrite lookup_nil.
Qed.

(** The listeners of a registered connection that has any. *)
Lemma registered_listeners s p pc c :
  reachable s → peerConnections s !! p = Some pc → heap s !! pc = Some c →
  listeners c ≠ [] →
  closed c = false ∧ listeners c = [TrackListener p; IceCandidateListener p].
Proof.
  intros Hreach Hp Hc Hl.
  pose proof (registry_ok_reachable s Hreach) as Hok.
  destruct (reg_live s Hok p pc Hp) as (c' & Hc' & Hopen).
  assert (c' = c) as -> by congruence. split; [done |].
  destruct (all_wired_reachable s Hreach pc c Hc) as [[_ Hnone] | [q Hq]]; [done |].
  assert (TrackListener q ∈ listeners c) as Hin by (rewrite Hq; left).
  pose proof (reg_listeners s Hok pc c _ Hc Hopen Hin) as Hreg. cbn in Hreg.
  assert (q = p) as -> by by eapply (reg_inj s Hok).
  done.
Qed.

(** X13. In every state the client reaches, a candidate that the browser
    finds on a connection created with the camera on is sent as one
    [candidate] envelope addressed to the peer the connection is
    registered for, when [roomId] is set; the end-of-candidates event (no
    candidate) and a candidate found while [roomId] is empty send nothing.
    Nothing else changes. *)
Theorem candidate_is_forwarded (browser : Browser) (s : Client) (p : string)
    (pc : nat) (c : RTCPeerConnection) (found : option string) :
  reachable s → peerConnections s !! p = Some pc → heap s !! pc = Some c →
  listeners c ≠ [] →
  let s' := handle browser (IceCandidateEvent pc found) s in
  (is_Some found → truthy (roomId s) = true →
     s' = set_trace
            (trace s ++ [Emitted (SignalTo (roomId s)
                           {| type := "candidate"; sdp := None;
                              candidate := found; to := Some p |})]) s)
  ∧ (found = None ∨ truthy (roomId s) = false → s' = s).
Proof.
  intros Hreach Hp Hc Hl s'.
  destruct (registered_listeners s p pc c Hreach Hp Hc Hl) as [Hopen Hlis].
  assert (s' = (on_icecandidate p found s).2) as ->.
  { unfold s', handle. cbn [handler]. rewrite run_sync.
    unfold on_icecandidate_event, fire, mbind, Sync_bind, gets.
    rewrite Hc, Hopen, Hlis. cbn. unfold mbind, Sync_bind, mret, Sync_ret.
    by destruct (on_icecandidate p found s) as [[] s1]. }
  unfold on_icecandidate, mbind, Sync_bind, gets. split.
  - intros Hfound Hroom. by rewrite (bool_decide_eq_true_2 _ Hfound), Hroom.
  - intros [-> | Hroom].
    + rewrite bool_decide_eq_false_2; [done |]. by intros [? ?].
    + by rewrite Hroom, andb_false_r.
Qed.

Lemma candidate_is_forwarded_witness :
  sent (handle Scenario.fulfil_all (IceCandidateEvent 0 (Some "c1"))
          Scenario.client_A_called_B)
  = sent Scenario.client_A_called_B
    ++ [SignalTo (Some "r1") {| type := "candidate"; sdp := None;
                                candidate := Some "c1"; to := Some "B" |}].
Proof.
  assert (reachable Scenario.client_A_called_B) as Hreach
    by apply reachable_handle, reachable_client_A.
  assert (peerConnections Scenario.client_A_called_B !! "B" = Some 0) as Hp
    by (vm_compute; reflexivity).
  assert (heap Scenario.client_A_called_B !! 0
          = Some {| configuration := []; closed := false; senders := [0; 1];
                    listeners := [TrackListener "B"; IceCandidateListener "B"] |})
    as Hc by (vm_compute; reflexivity).
  assert (truthy (roomId Scenario.client_A_called_B) = true) as Hroom
    by (vm_compute; reflexivity).
  destruct (candidate_is_forwarded Scenario.fulfil_all Scenario.client_A_called_B
              "B" 0 _ (Some "c1") Hreach Hp Hc) as [Hsent _]; [done |].
  rewrite Hsent; [| by eexists | exact Hroom].
  vm_compute. reflexivity.
Defined.

(** X14. In every state the client reaches, the first [track] event of a
    connection created with the camera on adds one wrapper, titled with
    the first six characters of the peer's identifier, to the remote
    container and registers its video under the peer; every later one
    only replaces the stream the video plays.  The video plays the first
    stream of the event.  Nothing is sent and no connection changes. *)
Theorem track_shows_video (browser : Browser) (s : Client) (p : string)
    (pc : nat) (c : RTCPeerConnection) (streams : list string) :
  reachable s → peerConnections s !! p = Some pc → heap s !! pc = Some c →
  listeners c ≠ [] →
  let s' := handle browser (TrackEvent pc streams) s in
  (remoteVideos s !! p = None →
     remoteVideos s'
     = <[p := {| parentElement := nextElement s; srcObject := head streams |}]>
         (remoteVideos s)
     ∧ remoteContainer s'
       = remoteContainer s
         ++ [ {| element_id := nextElement s;
                 title := "Peer " +:+ String.substring 0 6 p |} ])
  ∧ (∀ video, remoteVideos s !! p = Some video →
       remoteVideos s'
       = <[p := {| parentElement := parentElement video; srcObject := head streams |}]>
           (remoteVideos s)
       ∧ remoteContainer s' = remoteContainer s)
  ∧ trace s' = trace s ∧ heap s' = heap s ∧ peerConnections s' = peerConnections s.
Proof.
  intros Hreach Hp Hc Hl s'.
  destruct (registered_listeners s p pc c Hreach Hp Hc Hl) as [Hopen Hlis].
  assert (s' = (on_track p streams s).2) as ->.
  { unfold s', handle. cbn [handler]. rewrite run_sync.
    unfold on_track_event, fire, mbind, Sync_bind, gets.
    rewrite Hc, Hopen, Hlis. cbn. unfold mbind, Sync_bind, mret, Sync_ret.
    by destruct (on_track p streams s) as [[] s1]. }
  destruct (on_track_fields p streams s) as (Hh & Hpcs & Ht & _).
  split_and!; try done.
  - intros Hnone. unfold on_track, mbind, Sync_bind, gets, modify. rewrite Hnone. cbn.
    split; [| done]. by rewrite alter_insert_eq.
  - intros video Hv. unfold on_track, mbind, Sync_bind, gets, modify. rewrite Hv. cbn.
    split; [| done]. apply map_eq. intros q.
    destruct (decide (q = p)) as [-> | Hne].
    + by rewrite lookup_alter_eq, lookup_insert_eq, Hv.
    + by rewrite lookup_alter_ne, lookup_insert_ne.
Qed.

Lemma track_shows_video_witness :
  remoteContainer client_A_sees_B = [ {| element_id := 0; title := "Peer B" |} ]
  ∧ remoteContainer
      (handle Scenario.fulfil_all (TrackEvent 0 ["remote"]) client_A_sees_B)
    = [ {| element_id := 0; title := "Peer B" |} ].
Proof.
  assert (reachable Scenario.client_A_called_B) as Hreach
    by apply reachable_handle, reachable_client_A.
  assert (reachable client_A_sees_B) as Hreach'
    by by apply reachable_handle.
  set (c := {| configuration := []; closed := false; senders := [0; 1];
               listeners := [TrackListener "B"; IceCandidateListener "B"] |}).
  assert (listeners c ≠ []) as Hl by done.
  assert (peerConnections Scenario.client_A_called_B !! "B" = Some 0) as Hp
    by (vm_compute; reflexivity).
  assert (heap Scenario.client_A_called_B !! 0 = Some c) as Hc
    by (vm_compute; reflexivity).
  assert (peerConnections client_A_sees_B !! "B" = Some 0) as Hp'
    by (vm_compute; reflexivity).
  assert (heap client_A_sees_B !! 0 = Some c) as Hc'
    by (vm_compute; reflexivity).
  assert (remoteVideos Scenario.client_A_called_B !! "B" = None) as Hnone
    by (vm_compute; reflexivity).
  assert (remoteVideos client_A_sees_B !! "B"
          = Some {| parentElement := 0; srcObject := Some "remote" |}) as Hsome
    by (vm_compute; reflexivity).
  destruct (track_shows_video Scenario.fulfil_all Scenario.client_A_called_B
              "B" 0 c ["remote"] Hreach Hp Hc Hl) as (Hfirst & _).
  destruct (track_shows_video Scenario.fulfil_all client_A_sees_B
              "B" 0 c ["remote"] Hreach' Hp' Hc' Hl) as (_ & Hlater & _).
  destruct (Hfirst Hnone) as [_ Hone].
  destruct (Hlater _ Hsome) as [_ Hsame].
  assert (remoteContainer client_A_sees_B = [ {| element_id := 0; title := "Peer B" |} ])
    as Hpage.
  { unfold client_A_sees_B. rewrite Hone. vm_compute. reflexivity. }
  split; [exact Hpage |]. rewrite Hsame. exact Hpage.
Defined.

End ReachFacts.

Module PageFacts.
Import Client ClientSpec NoMedia Media Page ReachFacts.

(** *** One wrapper per remote video *)

Lemma page_ok_frame s s' :
  remoteContainer s' = remoteContainer s → remoteVideos s' = remoteVideos s →
  nextElement s' = nextElement s → page_ok s → page_ok s'.
Proof. intros Hc Hv Hn [H1 H2 H3]. split; rewrite ?Hc, ?Hv, ?Hn; done. Qed.

Lemma page_ok_sync {A} (m : Sync A) :
  (∀ s, remoteContainer (m s).2 = remoteContainer s
        ∧ remoteVideos (m s).2 = remoteVideos s
        ∧ nextElement (m s).2 = nextElement s) →
  preserves page_ok m.
Proof. intros Hm s Hs. destruct (Hm s) as (? & ? & ?). by apply (page_ok_frame s). Qed.

Lemma page_ok_createPeerConnection q : preserves page_ok (createPeerConnection q).
Proof.
  apply page_ok_sync. intros s.
  destruct (peerConnections s !! q) as [pc0 |] eqn:Hq.
  - by rewrite (createPeerConnection_existing s q pc0).
  - by rewrite createPeerConnection_new.
Qed.

Lemma page_ok_log e : preserves page_ok (log e).
Proof. by apply page_ok_sync. Qed.

Lemma filter_all {A} (P : A → Prop) `{∀ x, Decision (P x)} (l : list A) :
  Forall P l → filter P l = l.
Proof.
  induction 1 as [| x l Hx Hl IH]; [done |].
  rewrite filter_cons_True by done. by rewrite IH.
Qed.

(** The wrappers of a map of videos from which one entry is taken. *)
Lemma wrappers_delete (videos : gmap string HTMLVideoElement) p video :
  videos !! p = Some video →
  (λ pv, wrapper_of pv.1 pv.2) <$> map_to_list videos
  ≡ₚ wrapper_of p video
     :: ((λ pv, wrapper_of pv.1 pv.2) <$> map_to_list (delete p videos)).
Proof. intros Hp. by rewrite <- (map_to_list_delete videos p video Hp). Qed.

Lemma page_ok_drop_video p s : page_ok s → page_ok (drop_video p s).
Proof.
  intros [Hw Hnd Hfresh]. unfold drop_video.
  destruct (remoteVideos s !! p) as [video |] eqn:Hp; [| done].
  set (rest := (λ pv, wrapper_of pv.1 pv.2) <$> map_to_list (delete p (remoteVideos s))).
  assert (remoteContainer s ≡ₚ wrapper_of p video :: rest) as Hperm
    by (by rewrite Hw, (wrappers_delete _ p video Hp)).
  assert (NoDup (parentElement video :: (element_id <$> rest))) as Hnd'.
  { change (NoDup (element_id <$> (wrapper_of p video :: rest))).
    by rewrite <- Hperm. }
  apply NoDup_cons in Hnd' as [Hnotin Hnd'].
  assert (filter (λ w, element_id w ≠ parentElement video) (remoteContainer s) ≡ₚ rest)
    as Hfilter.
  { rewrite Hperm, filter_cons_False by (cbn; intros Hne; by apply Hne).
    rewrite filter_all; [done |].
    apply Forall_forall. intros w Hin Heq. apply Hnotin.
    rewrite <- Heq. apply list_elem_of_fmap. by exists w. }
  split; cbn.
  - done.
  - by rewrite Hfilter.
  - apply Forall_forall. intros w Hin. apply list_elem_of_filter in Hin as [_ Hin].
    by eapply Forall_forall in Hfresh.
Qed.

Lemma page_ok_on_peer_left q : preserves page_ok (on_peer_left q).
Proof.
  intros s Hs. rewrite on_peer_left_unfold. cbn [snd].
  apply page_ok_drop_video. apply (page_ok_frame s); [| | | done];
    unfold close_connection; by destruct (peerConnections s !! q).
Qed.

Lemma alter_as_insert (videos : gmap string HTMLVideoElement) p video f :
  videos !! p = Some video → alter f p videos = <[p := f video]> (delete p videos).
Proof.
  intros Hp. apply map_eq. intros q. destruct (decide (q = p)) as [-> | Hne].
  - by rewrite lookup_alter_eq, lookup_insert_eq, Hp.
  - by rewrite lookup_alter_ne, lookup_insert_ne, lookup_delete_ne.
Qed.

Lemma page_ok_on_track q streams : preserves page_ok (on_track q streams).
Proof.
  intros s [Hw Hnd Hfresh]. unfold on_track, mbind, Sync_bind, gets, modify.
  destruct (remoteVideos s !! q) as [video |] eqn:Hq; cbn.
  - split; cbn; [| done | done].
    rewrite Hw, (wrappers_delete _ q video Hq).
    rewrite (alter_as_insert _ q video) by done.
    rewrite map_to_list_insert by by rewrite lookup_delete_eq.
    done.
  - rewrite alter_insert_eq. split; cbn.
    + rewrite map_to_list_insert by done. rewrite fmap_cons. cbn.
      rewrite <- Hw. unfold wrapper_of. cbn. by rewrite Permutation_app_comm.
    + rewrite fmap_app. cbn. apply NoDup_app. split_and!; [done | | apply NoDup_singleton].
      intros n Hin Hn. apply list_elem_of_singleton in Hn as ->.
      apply list_elem_of_fmap in Hin as (w & Heq & Hin).
      eapply Forall_forall in Hfresh; [| exact Hin]. lia.
    + apply Forall_app. split.
      * eapply Forall_impl; [exact Hfresh |]. cbn. intros w ?. lia.
      * constructor; [cbn; lia | constructor].
Qed.

Lemma page_ok_handler ev : all_sync page_ok (handler ev).
Proof.
  destruct ev as [servers | value | | [p | from data | p] | pc streams | pc candidate];
    cbn [handler].
  - apply all_sync_sync, page_ok_sync. intros s. by destruct servers.
  - unfold on_join_click.
    apply all_sync_bind; [by apply all_sync_sync, page_ok_sync |].
    intros _. apply all_sync_bind; [by apply all_sync_sync, preserves_gets |].
    intros room. destruct (negb (truthy room)); [apply all_sync_sync, page_ok_log |].
    apply all_sync_bind.
    { unfold initMedia. apply all_sync_bind; [apply all_sync_await |].
      intros stream. apply all_sync_bind; [by apply all_sync_sync, page_ok_sync |].
      intros _. by apply all_sync_sync, page_ok_sync. }
    intros _. apply all_sync_bind; [by apply all_sync_sync, preserves_gets |].
    intros room'. apply all_sync_sync, page_ok_log.
  - apply all_sync_sync, page_ok_sync. intros s.
    unfold on_toggle_cam, mbind, Sync_bind, gets, modify.
    destruct (localStream s) as [stream |]; [| done].
    by destruct (set_first_video _ _).
  - unfold on_peer_joined, makeCall.
    apply all_sync_bind; [apply all_sync_sync, page_ok_createPeerConnection |].
    intros pc. apply all_sync_bind; [apply all_sync_await |].
    intros offer. apply all_sync_bind; [apply all_sync_await |].
    intros _. apply all_sync_bind; [by apply all_sync_sync, preserves_gets |].
    intros room. apply all_sync_sync, page_ok_log.
  - unfold on_signal.
    destruct (String.eqb (type data) "offer").
    { unfold handleOffer.
      apply all_sync_bind; [apply all_sync_sync, page_ok_createPeerConnection |].
      intros pc. apply all_sync_bind; [apply all_sync_await |].
      intros _. apply all_sync_bind; [apply all_sync_await |].
      intros answer. apply all_sync_bind; [apply all_sync_await |].
      intros _. apply all_sync_bind; [by apply all_sync_sync, preserves_gets |].
      intros room. apply all_sync_sync, page_ok_log. }
    destruct (String.eqb (type data) "answer"); [apply all_sync_handleAnswer |].
    destruct (String.eqb (type data) "candidate"); [apply all_sync_handleCandidate |].
    done.
  - apply all_sync_sync, page_ok_on_peer_left.
  - apply all_sync_sync, preserves_fire. intros c [q | q] Hl; [| by intros s].
    intros s (Hs & Hc & Hopen).
    destruct (on_track_fields q streams s) as (Hh & _). rewrite Hh.
    split; [| done]. by apply page_ok_on_track.
  - apply all_sync_sync, preserves_fire. intros c [q | q] Hl; [by intros s |].
    intros s (Hs & Hc & Hopen).
    destruct (on_icecandidate_fields q candidate s) as (Hh & _). rewrite Hh.
    split; [| done]. revert Hs. apply page_ok_sync. intros s0.
    unfold on_icecandidate, mbind, Sync_bind, gets.
    by destruct (bool_decide (is_Some candidate) && truthy (roomId s0)).
Qed.

Lemma page_ok_reachable s : reachable s → page_ok s.
Proof.
  apply invariant_reachable.
  - apply page_ok_handler.
  - intros s0 op b. by apply page_ok_frame.
  - split; cbn; [by rewrite map_to_list_empty | constructor | constructor].
Qed.

(** X15. In every state the client reaches, however its handlers
    interleave, the remote container holds exactly one wrapper for each
    entry of [remoteVideos] and nothing else: as many wrappers as videos,
    no wrapper twice, each video inside the wrapper titled for its peer,
    and each video belonging to a peer that has a connection. *)
Theorem one_wrapper_per_video (s : Client) :
  reachable s →
  length (remoteContainer s) = size (remoteVideos s)
  ∧ NoDup (element_id <$> remoteContainer s)
  ∧ (∀ p video, remoteVideos s !! p = Some video →
       {| element_id := parentElement video;
          title := "Peer " +:+ String.substring 0 6 p |} ∈ remoteContainer s
       ∧ is_Some (peerConnections s !! p))
  ∧ (∀ w, w ∈ remoteContainer s →
       ∃ p video, remoteVideos s !! p = Some video
                  ∧ element_id w = parentElement video
                  ∧ title w = "Peer " +:+ String.substring 0 6 p).
Proof.
  intros Hreach. destruct (page_ok_reachable s Hreach) as [Hw Hnd _].
  pose proof (registry_ok_reachable s Hreach) as Hok.
  split_and!.
  - by rewrite Hw, length_fmap, length_map_to_list.
  - done.
  - intros p video Hp. split.
    + rewrite Hw. apply list_elem_of_fmap. exists (p, video).
      split; [done |]. by apply elem_of_map_to_list.
    + apply (reg_videos s Hok). by eexists.
  - intros w Hin. rewrite Hw in Hin.
    apply list_elem_of_fmap in Hin as ([p video] & -> & Hin).
    apply elem_of_map_to_list in Hin. by exists p, video.
Qed.

Lemma one_wrapper_per_video_witness :
  length (remoteContainer client_A_sees_B) = size (remoteVideos client_A_sees_B)
  ∧ size (remoteVideos client_A_sees_B) = 1.
Proof.
  assert (reachable client_A_sees_B) as Hreach
    by apply reachable_handle, reachable_handle, reachable_client_A.
  destruct (one_wrapper_per_video client_A_sees_B Hreach) as (Hlen & _).
  split; [exact Hlen |]. rewrite <- Hlen. vm_compute. reflexivity.
Defined.

(** X16. In every state the client reaches, [peer-left] for [p] takes the
    wrapper of the video of [p] out of the remote container and nothing
    else, closes the connection of [p], and leaves the connection, the
    video and the wrapper of every other peer as they were.  Nothing is
    sent. *)
Theorem peer_left_removes_one (browser : Browser) (s : Client) (p : string) :
  reachable s →
  let s' := handle browser (FromServer (PeerLeft p)) s in
  (∀ video, remoteVideos s !! p = Some video →
     remoteContainer s'
     = filter (λ w, element_id w ≠ parentElement video) (remoteContainer s)
     ∧ S (length (remoteContainer s')) = length (remoteContainer s))
  ∧ (remoteVideos s !! p = None → remoteContainer s' = remoteContainer s)
  ∧ (∀ q, q ≠ p →
       peerConnections s' !! q = peerConnections s !! q
       ∧ remoteVideos s' !! q = remoteVideos s !! q
       ∧ (∀ pc, peerConnections s !! q = Some pc → heap s' !! pc = heap s !! pc)
       ∧ (∀ video, remoteVideos s !! q = Some video →
            wrapper_of q video ∈ remoteContainer s'))
  ∧ (∀ pc, peerConnections s !! p = Some pc → closed <$> heap s' !! pc = Some true)
  ∧ sent s' = sent s.
Proof.
  intros Hreach s'.
  assert (s' = drop_video p (close_connection p s)) as Hs'
    by (unfold s', handle; cbn [handler]; by rewrite run_sync, on_peer_left_unfold).
  pose proof (registry_ok_reachable s Hreach) as Hok.
  assert (reachable s') as Hreach' by by apply reachable_handle.
  destruct (page_ok_reachable s Hreach) as [Hw Hnd _].
  destruct (page_ok_reachable s' Hreach') as [Hw' _ _].
  assert (remoteVideos s' = delete p (remoteVideos s)) as Hvideos
    by (by rewrite Hs', remoteVideos_drop_video, remoteVideos_close_connection).
  assert (remoteContainer (close_connection p s) = remoteContainer s) as Hcont
    by (unfold close_connection; by destruct (peerConnections s !! p)).
  split_and!.
  - intros video Hp. split.
    + rewrite Hs'. unfold drop_video.
      by rewrite remoteVideos_close_connection, Hp, <- Hcont.
    + rewrite Hw', Hw, Hvideos, !length_fmap, !length_map_to_list.
      rewrite map_size_delete, Hp.
      assert (size (remoteVideos s) ≠ 0) as Hsize.
      { apply map_size_non_empty_iff. intros Hempty.
        by rewrite Hempty, lookup_empty in Hp. }
      lia.
  - intros Hp. rewrite Hs'. unfold drop_video.
    by rewrite remoteVideos_close_connection, Hp.
  - intros q Hne.
    assert (peerConnections s' !! q = peerConnections s !! q) as Hpcs.
    { rewrite Hs', peerConnections_drop_video. unfold close_connection.
      destruct (peerConnections s !! p); cbn; [by rewrite lookup_delete_ne | done]. }
    assert (remoteVideos s' !! q = remoteVideos s !! q) as Hvq
      by (by rewrite Hvideos, lookup_delete_ne).
    split_and!; [done | done | |].
    + intros pc Hq. rewrite Hs', heap_drop_video. unfold close_connection.
      destruct (peerConnections s !! p) as [pc0 |] eqn:Hp; [| done]. cbn.
      rewrite list_lookup_alter_ne; [done |].
      intros <-. apply Hne. by eapply (reg_inj s Hok).
    + intros video Hq. rewrite Hw'. apply list_elem_of_fmap. exists (q, video).
      split; [done |]. apply elem_of_map_to_list. by rewrite Hvq.
  - intros pc Hp. destruct (reg_live s Hok p pc Hp) as (c & Hc & _).
    rewrite Hs', heap_drop_video. unfold close_connection. rewrite Hp. cbn.
    by rewrite list_lookup_alter_eq, Hc.
  - by rewrite Hs', sent_drop_video, sent_close_connection.
Qed.

Lemma peer_left_removes_one_witness :
  remoteContainer (handle Scenario.fulfil_all (FromServer (PeerLeft "B")) client_A_sees_B)
  = [].
Proof.
  assert (reachable client_A_sees_B) as Hreach
    by apply reachable_handle, reachable_handle, reachable_client_A.
  assert (remoteVideos client_A_sees_B !! "B"
          = Some {| parentElement := 0; srcObject := Some "remote" |}) as Hvideo
    by (vm_compute; reflexivity).
  destruct (peer_left_removes_one Scenario.fulfil_all client_A_sees_B "B" Hreach)
    as (Hgone & _).
  destruct (Hgone _ Hvideo) as [-> _]. vm_compute. reflexivity.
Defined.

End PageFacts.

Module WiringFacts.
Import Client ClientSpec NoMedia Media Page ReachFacts Wiring.

(** *** A connection stays as it was created *)

Lemma frozen_frame pc c s s' : heap s' = heap s → frozen pc c s → frozen pc c s'.
Proof. intros Hh. unfold frozen. by rewrite Hh. Qed.

Lemma frozen_createPeerConnection pc c q : preserves (frozen pc c) (createPeerConnection q).
Proof.
  intros s (c' & Hc & Hsame).
  destruct (peerConnections s !! q) as [pc0 |] eqn:Hq.
  - rewrite (createPeerConnection_existing s q pc0) by done. by exists c'.
  - rewrite createPeerConnection_new by done. exists c'. cbn.
    split; [| done]. rewrite lookup_app_l; [done | by eapply lookup_lt_Some].
Qed.

Lemma frozen_on_peer_left pc c q : preserves (frozen pc c) (on_peer_left q).
Proof.
  intros s (c' & Hc & Hconf & Hsend & Hlis & Hclosed).
  rewrite on_peer_left_unfold. cbn [snd].
  unfold frozen. rewrite heap_drop_video. unfold close_connection.
  destruct (peerConnections s !! q) as [pc0 |]; cbn; [| by exists c'].
  destruct (decide (pc0 = pc)) as [-> | Hne].
  - rewrite list_lookup_alter_eq, Hc. cbn. eexists. split; [done |].
    by split_and!.
  - rewrite list_lookup_alter_ne by done. by exists c'.
Qed.

Lemma stable_frozen pc c : stable (frozen pc c).
Proof.
  split.
  - intros s s' Hh _ _ _. by apply frozen_frame.
  - intros e s _. by apply frozen_frame.
Qed.

Lemma frozen_handler pc c ev : all_sync (frozen pc c) (handler ev).
Proof.
  pose proof (stable_frame _ (stable_frozen pc c)) as Hframe.
  assert (∀ e s0, True → frozen pc c s0 → frozen pc c (set_trace (trace s0 ++ [e]) s0))
    as Hlog by (intros e s0 _; by apply frozen_frame).
  assert (∀ q, True → preserves (frozen pc c) (createPeerConnection q)) as Hcreate
    by (intros q _; apply frozen_createPeerConnection).
  destruct ev as [servers | value | | [p | from data | p] | pc' streams | pc' candidate];
    cbn [handler].
  - by apply all_sync_sync, keeps_on_ice_config.
  - by apply keeps_on_join_click with (ok := λ _, True).
  - by apply all_sync_sync, keeps_on_toggle_cam.
  - by apply keeps_makeCall with (ok := λ _, True) (may_create := λ _, True).
  - by apply keeps_on_signal with (ok := λ _, True) (may_create := λ _, True).
  - apply all_sync_sync, frozen_on_peer_left.
  - apply all_sync_sync, preserves_fire. intros c0 [q | q] Hl; [| by intros s].
    intros s (Hs & Hc & Hopen).
    destruct (on_track_fields q streams s) as (Hh & _). rewrite Hh.
    split; [| done]. by apply (frozen_frame pc c s).
  - apply all_sync_sync, preserves_fire. intros c0 [q | q] Hl; [by intros s |].
    intros s (Hs & Hc & Hopen).
    destruct (on_icecandidate_fields q candidate s) as (Hh & _). rewrite Hh.
    split; [| done]. by apply (frozen_frame pc c s).
Qed.

Lemma frozen_run_steps pc c steps l :
  tasks_passive l → frozen pc c (client l) → frozen pc c (client (run_steps steps l)).
Proof.
  revert l. induction steps as [| st steps IH]; intros l Hl Hs; [done |].
  cbn. apply IH; [by apply tasks_passive_step |].
  apply step_keeps; [apply stable_frozen | done | | done].
  intros ev _. apply frozen_handler.
Qed.

(** X17. A connection object stays as [createPeerConnection] made it,
    whatever happens later and however the handlers interleave: it keeps
    its ICE servers, its tracks and its listeners, so it takes up neither
    a configuration that arrives later nor the tracks of a later local
    stream; and once closed it stays closed and is never registered
    again, so a peer that comes back gets a new object. *)
Theorem connection_is_frozen (l : Loop) (pc : nat) (c : RTCPeerConnection)
    (steps : list Step) :
  reachable_loop l → heap (client l) !! pc = Some c →
  let s' := client (run_steps steps l) in
  ∃ c', heap s' !! pc = Some c'
        ∧ configuration c' = configuration c
        ∧ senders c' = senders c
        ∧ listeners c' = listeners c
        ∧ (closed c = true →
             closed c' = true ∧ ∀ q, peerConnections s' !! q ≠ Some pc).
Proof.
  intros Hreach Hc s'.
  assert (frozen pc c (client l)) as Hstart by (exists c; by split_and!).
  destruct (frozen_run_steps pc c steps l (tasks_passive_reachable l Hreach) Hstart)
    as (c' & Hc' & Hconf & Hsend & Hlis & Hclosed).
  exists c'. split_and!; try done.
  intros Hcl. split; [by apply Hclosed |].
  intros q Hq.
  assert (reachable s') as Hreach'.
  { destruct Hreach as [steps0 ->]. eexists. split; [| done].
    exists (steps0 ++ steps). by rewrite run_steps_app. }
  destruct (reg_live s' (registry_ok_reachable s' Hreach') q pc Hq) as (c0 & Hc0 & Hopen).
  unfold s' in Hc0. rewrite Hc' in Hc0. injection Hc0 as <-.
  rewrite Hclosed in Hopen; done.
Qed.

Lemma connection_is_frozen_witness :
  let l := run_steps called_B start in
  localStream (client (run_steps rejoined l))
  = Some {| stream_id := "cam2";
            tracks := [ {| track_id := 2; kind := VideoTrack; enabled := false |} ] |}
  ∧ iceServers (client (run_steps rejoined l)) = Server.fallback_servers
  ∧ senders <$> heap (client (run_steps rejoined l)) !! 0 = Some [0; 1]
  ∧ configuration <$> heap (client (run_steps rejoined l)) !! 0 = Some [].
Proof.
  intros l.
  assert (reachable_loop l) as Hreach by (by exists called_B).
  set (c := {| configuration := []; closed := false; senders := [0; 1];
               listeners := [TrackListener "B"; IceCandidateListener "B"] |}).
  assert (heap (client l) !! 0 = Some c) as Hc by (vm_compute; reflexivity).
  destruct (connection_is_frozen l 0 c rejoined Hreach Hc)
    as (c' & Hc' & Hconf & Hsend & _).
  split_and!.
  - vm_compute. reflexivity.
  - vm_compute. reflexivity.
  - rewrite Hc'. cbn [fmap option_fmap option_map]. by rewrite Hsend.
  - rewrite Hc'. cbn [fmap option_fmap option_map]. by rewrite Hconf.
Defined.

End WiringFacts.

Module CallFacts.
Import Client ClientSpec NoMedia Media Page ReachFacts Calls.

(** *** Calls *)

Lemma createPeerConnection_fields p s :
  let s1 := (createPeerConnection p s).2 in
  sent s1 = sent s ∧ roomId s1 = roomId s ∧ iceServers s1 = iceServers s
  ∧ localStream s1 = localStream s ∧ remoteVideos s1 = remoteVideos s
  ∧ peerConnections s1 !! p = Some (createPeerConnection p s).1.
Proof.
  destruct (peerConnections s !! p) as [pc0 |] eqn:Hp.
  - by rewrite (createPeerConnection_existing s p pc0).
  - rewrite createPeerConnection_new by done. cbn.
    rewrite lookup_insert_eq. split_and!; try done.
    unfold sent. cbn. rewrite omap_app. cbn. by rewrite app_nil_r.
Qed.

(** What a call leaves of the client, whatever the browser answers. *)
Lemma call_fields browser p s :
  let s1 := (createPeerConnection p s).2 in
  let s' := handle browser (FromServer (PeerJoined p)) s in
  heap s' = heap s1 ∧ peerConnections s' = peerConnections s1
  ∧ roomId s' = roomId s ∧ remoteVideos s' = remoteVideos s.
Proof.
  intros s1 s'.
  destruct (createPeerConnection_fields p s) as (_ & Hroom & _ & _ & Hv & _).
  fold s1 in Hroom, Hv. unfold s', handle. cbn [handler].
  unfold on_peer_joined, makeCall. cbn. fold s1.
  destruct (createPeerConnection p s) as [pc s0] eqn:Hcreate. cbn in s1. subst s1.
  destruct (browser (CreateOffer pc)) as [offer |]; cbn; [| done].
  destruct (browser (SetLocalDescription pc offer)) as [[] |]; cbn; done.
Qed.



(** X19. A peer that is announced twice (it joined the room again) gets no
    second connection: whatever the browser answers, the second call
    takes the connection of the first and leaves the connections and the
    registry as they are.  When both calls go through, the second sends a
    second offer, the one [createOffer] gives it then, after the first. *)
Theorem second_call_reuses_connection (browser1 browser2 : Browser) (s : Client)
    (p : string) :
  let pc := (createPeerConnection p s).1 in
  let s1 := handle browser1 (FromServer (PeerJoined p)) s in
  let s2 := handle browser2 (FromServer (PeerJoined p)) s1 in
  let envelope offer :=
    SignalTo (roomId s) {| type := "offer"; sdp := desc_sdp offer;
                           candidate := None; to := Some p |} in
  heap s2 = heap s1 ∧ peerConnections s2 = peerConnections s1
  ∧ peerConnections s2 !! p = Some pc
  ∧ (∀ offer1 offer2,
       browser1 (CreateOffer pc) = Fulfilled offer1 →
       browser1 (SetLocalDescription pc offer1) = Fulfilled tt →
       browser2 (CreateOffer pc) = Fulfilled offer2 →
       browser2 (SetLocalDescription pc offer2) = Fulfilled tt →
       sent s2 = sent s ++ [envelope offer1; envelope offer2]).
Proof.
  intros pc s1 s2 envelope.
  destruct (createPeerConnection_fields p s) as (_ & _ & _ & _ & _ & Hreg).
  destruct (call_fields browser1 p s) as (_ & Hpcs & Hroom & _).
  fold s1 in Hpcs, Hroom.
  assert (peerConnections s1 !! p = Some pc) as Hp by (by rewrite Hpcs).
  assert (createPeerConnection p s1 = (pc, s1)) as Hagain
    by by apply createPeerConnection_existing.
  destruct (call_fields browser2 p s1) as (Hh2 & Hpcs2 & _).
  fold s2 in Hh2, Hpcs2. rewrite Hagain in Hh2, Hpcs2. cbn in Hh2, Hpcs2.
  split_and!; [done | done | by rewrite Hpcs2 |].
  intros offer1 offer2 Ho1 Hl1 Ho2 Hl2.
  unfold s2. rewrite (call_sends_offer browser2 s1 p offer2);
    [| by rewrite Hagain | by rewrite Hagain].
  unfold s1. rewrite (call_sends_offer browser1 s p offer1) by done.
  fold s1. rewrite Hroom. by rewrite <- app_assoc.
Qed.

Lemma second_call_reuses_connection_witness :
  let s2 := handle other_offers (FromServer (PeerJoined "B"))
              Scenario.client_A_called_B in
  length (heap s2) = 1
  ∧ offers_to "B" (sent s2)
    = [ SignalTo (Some "r1") {| type := "offer"; sdp := Some "v=0 o";
                                candidate := None; to := Some "B" |};
        SignalTo (Some "r1") {| type := "offer"; sdp := Some "v=0 o2";
                                candidate := None; to := Some "B" |} ].
Proof.
  intros s2.
  destruct (second_call_reuses_connection Scenario.fulfil_all other_offers
              Scenario.client_A "B") as (Hheap & _ & _ & Hsent).
  fold Scenario.client_A_called_B in Hheap, Hsent. fold s2 in Hheap, Hsent.
  split.
  - rewrite Hheap. vm_compute. reflexivity.
  - rewrite (Hsent {| desc_type := "offer"; desc_sdp := Some "v=0 o" |}
                   {| desc_type := "offer"; desc_sdp := Some "v=0 o2" |});
      vm_compute; reflexivity.
Defined.

(** *** Answers and unknown messages *)

(** The run of [handleAnswer] for a peer that has a connection. *)
Lemma answer_run (browser : Browser) (s : Client) (from : string)
    (data : SignalData) (pc : nat) :
  type data = "answer" → peerConnections s !! from = Some pc →
  let call := SetRemoteDescription pc {| desc_type := "answer"; desc_sdp := sdp data |} in
  run browser (on_signal from data) s
  = (if is_fulfilled (browser call) then Returned tt else Threw,
     set_trace (trace s ++ [Awaited call (is_fulfilled (browser call))]) s).
Proof.
  intros Hty Hp call.
  unfold on_signal. rewrite Hty. cbn. unfold gets. cbn. rewrite Hp. cbn.
  fold call. by destruct (browser call) as [[] |].
Qed.

(** X20. An answer from a peer that has a connection is set as the remote
    description of that connection, and that is all: nothing is sent,
    and registry, connections and videos stay as they are, whether the
    browser takes the description or not.  When it does not, the handler
    throws. *)
Theorem answer_is_applied (browser : Browser) (s : Client) (from : string)
    (data : SignalData) (pc : nat) :
  type data = "answer" → peerConnections s !! from = Some pc →
  let call := SetRemoteDescription pc {| desc_type := "answer"; desc_sdp := sdp data |} in
  let s' := handle browser (FromServer (Signal from data)) s in
  s' = set_trace (trace s ++ [Awaited call (is_fulfilled (browser call))]) s
  ∧ (run browser (on_signal from data) s).1
    = (if is_fulfilled (browser call) then Returned tt else Threw)
  ∧ sent s' = sent s.
Proof.
  intros Hty Hp call s'.
  pose proof (answer_run browser s from data pc Hty Hp) as Hrun. fold call in Hrun.
  assert (s' = set_trace (trace s ++ [Awaited call (is_fulfilled (browser call))]) s)
    as Hs' by (unfold s', handle; cbn [handler]; by rewrite Hrun).
  split_and!; [done | by rewrite Hrun |].
  rewrite Hs'. by rewrite sent_set_trace_app, app_nil_r.
Qed.

Lemma answer_is_applied_witness :
  handle Scenario.reject_all (FromServer (Signal "B" Scenario.answer_of_B))
    Scenario.client_A_called_B
  = set_trace (trace Scenario.client_A_called_B
               ++ [Awaited (SetRemoteDescription 0
                              {| desc_type := "answer"; desc_sdp := Some "v=0 b" |})
                     false])
      Scenario.client_A_called_B.
Proof.
  assert (peerConnections Scenario.client_A_called_B !! "B" = Some 0) as Hp
    by (vm_compute; reflexivity).
  destruct (answer_is_applied Scenario.reject_all Scenario.client_A_called_B "B"
              Scenario.answer_of_B 0 eq_refl Hp) as (Hs' & _).
  exact Hs'.
Defined.

(** X21. A [signal] whose type is none of [offer], [answer] and
    [candidate] is ignored: the handler returns and the client is as it
    was. *)
Theorem unknown_signal_ignored (browser : Browser) (s : Client) (from : string)
    (data : SignalData) :
  type data ≠ "offer" → type data ≠ "answer" → type data ≠ "candidate" →
  run browser (on_signal from data) s = (Returned tt, s)
  ∧ handle browser (FromServer (Signal from data)) s = s.
Proof.
  intros Ho Ha Hc.
  assert (run browser (on_signal from data) s = (Returned tt, s)) as Hrun.
  { unfold on_signal.
    apply String.eqb_neq in Ho, Ha, Hc. by rewrite Ho, Ha, Hc. }
  split; [done |]. unfold handle. cbn [handler]. by rewrite Hrun.
Qed.

Lemma unknown_signal_ignored_witness :
  handle Scenario.fulfil_all (FromServer (Signal "B" bye_of_B)) Scenario.client_A
  = Scenario.client_A.
Proof.
  by apply (unknown_signal_ignored Scenario.fulfil_all Scenario.client_A "B" bye_of_B).
Defined.

(** *** Every envelope names its addressee *)

Section invariant_under.
Context (I : Client → Prop) (ok : Event → Prop).
Hypothesis I_handler : ∀ ev, ok ev → all_sync I (handler ev).
Hypothesis I_await : ∀ s op b, I s → I (set_trace (trace s ++ [Awaited op b]) s).

(** What holds at the start and is kept by every synchronous stretch of
    the handlers of the events that occur holds after them. *)
Lemma invariant_under_run_steps steps l :
  Forall (λ st, match st with External ev => ok ev | Settle _ _ => True end) steps →
  I (client l) → Forall (λ t, ∀ o, all_sync I (resume t o)) (pending l) →
  I (client (run_steps steps l)).
Proof.
  intros Hsteps. revert l.
  induction Hsteps as [| st steps Hst Hsteps IH]; intros l Hs Hl; [done |].
  cbn [run_steps].
  assert (I (client (step st l))
          ∧ Forall (λ t, ∀ o, all_sync I (resume t o)) (pending (step st l)))
    as [Hs' Hl'].
  { destruct st as [ev | i browser]; cbn [step].
    - apply invariant_spawn; [by apply I_handler | done | done].
    - destruct (pending l !! i) as [t |] eqn:Ht; [| done].
      apply invariant_spawn.
      + eapply Forall_lookup_1 in Hl; [| exact Ht]. apply Hl.
      + by apply I_await.
      + by apply Forall_delete. }
  by apply IH.
Qed.

End invariant_under.

Lemma addressed_frame P s s' :
  heap s' = heap s → trace s' = trace s → addressed P s → addressed P s'.
Proof.
  intros Hh Ht [Hsent Hheap]. split.
  - unfold sent. by rewrite Ht.
  - intros pc c l. rewrite Hh. apply Hheap.
Qed.

Lemma addressed_log P e s :
  (∀ msg, e = Emitted msg → directed P msg) →
  addressed P s → addressed P (set_trace (trace s ++ [e]) s).
Proof.
  intros He [Hsent Hheap]. split; [| done].
  rewrite sent_set_trace_app. apply Forall_app. split; [done |].
  destruct e as [| | | msg |]; try constructor; [by apply He | constructor].
Qed.

Lemma addressed_sync P {A} (m : Sync A) :
  (∀ s, heap (m s).2 = heap s ∧ trace (m s).2 = trace s) →
  preserves (addressed P) m.
Proof. intros Hm s Hs. destruct (Hm s). by apply (addressed_frame P s). Qed.

Lemma addressed_createPeerConnection (P : string → Prop) q :
  P q → preserves (addressed P) (createPeerConnection q).
Proof.
  intros Hq s [Hsent Hheap].
  destruct (createPeerConnection_fields q s) as (Hs & _). cbn in Hs.
  split; [by rewrite Hs |].
  destruct (peerConnections s !! q) as [pc0 |] eqn:Hp.
  { by rewrite (createPeerConnection_existing s q pc0). }
  rewrite createPeerConnection_new by done. cbn. intros pc c l Hc Hl.
  destruct (decide (pc < length (heap s))) as [Hpc | Hpc].
  - rewrite lookup_app_l in Hc by done. by eapply Hheap.
  - assert (pc = length (heap s)) as ->.
    { apply lookup_lt_Some in Hc. rewrite length_app in Hc. cbn in Hc. lia. }
    rewrite lookup_app_r, Nat.sub_diag in Hc by done. injection Hc as <-.
    unfold fresh_connection in Hl. cbn in Hl.
    destruct (localStream s); [| by apply elem_of_nil in Hl].
    apply elem_of_cons in Hl as [-> | Hl]; [done |].
    by apply list_elem_of_singleton in Hl as ->.
Qed.

Lemma addressed_emit P msg :
  directed P msg → preserves (addressed P) (socket_emit msg).
Proof. intros Hmsg s Hs. apply addressed_log; [| done]. by intros ? [= <-]. Qed.

Lemma addressed_handler (P : string → Prop) ev :
  named P ev → all_sync (addressed P) (handler ev).
Proof.
  destruct ev as [servers | value | | [p | from data | p] | pc streams | pc candidate];
    cbn [handler named]; intros Hev.
  - apply all_sync_sync, addressed_sync. intros s. by destruct servers.
  - unfold on_join_click.
    apply all_sync_bind; [by apply all_sync_sync, addressed_sync |].
    intros _. apply all_sync_bind; [by apply all_sync_sync, preserves_gets |].
    intros room. destruct (negb (truthy room)).
    { apply all_sync_sync. intros s Hs. apply addressed_log; [| done]. by intros ?. }
    apply all_sync_bind.
    { unfold initMedia. apply all_sync_bind; [apply all_sync_await |].
      intros stream. apply all_sync_bind; [by apply all_sync_sync, addressed_sync |].
      intros _. by apply all_sync_sync, addressed_sync. }
    intros _. apply all_sync_bind; [by apply all_sync_sync, preserves_gets |].
    intros room'. by apply all_sync_sync, addressed_emit.
  - apply all_sync_sync, addressed_sync. intros s.
    unfold on_toggle_cam, mbind, Sync_bind, gets, modify.
    destruct (localStream s) as [stream |]; [| done].
    by destruct (set_first_video _ _).
  - unfold on_peer_joined, makeCall.
    apply all_sync_bind; [by apply all_sync_sync, addressed_createPeerConnection |].
    intros pc. apply all_sync_bind; [apply all_sync_await |].
    intros offer. apply all_sync_bind; [apply all_sync_await |].
    intros _. apply all_sync_bind; [by apply all_sync_sync, preserves_gets |].
    intros room. apply all_sync_sync, addressed_emit. cbn.
    split; [by exists p | left].
  - unfold on_signal.
    destruct (String.eqb (type data) "offer").
    { unfold handleOffer.
      apply all_sync_bind; [by apply all_sync_sync, addressed_createPeerConnection |].
      intros pc. apply all_sync_bind; [apply all_sync_await |].
      intros _. apply all_sync_bind; [apply all_sync_await |].
      intros answer. apply all_sync_bind; [apply all_sync_await |].
      intros _. apply all_sync_bind; [by apply all_sync_sync, preserves_gets |].
      intros room. apply all_sync_sync, addressed_emit. cbn.
      split; [by exists from | right; left]. }
    destruct (String.eqb (type data) "answer"); [apply all_sync_handleAnswer |].
    destruct (String.eqb (type data) "candidate"); [apply all_sync_handleCandidate |].
    done.
  - apply all_sync_sync. intros s [Hsent Hheap]. rewrite on_peer_left_unfold.
    cbn [snd]. split.
    + by rewrite sent_drop_video, sent_close_connection.
    + intros pc c l. rewrite heap_drop_video. unfold close_connection.
      destruct (peerConnections s !! p) as [pc0 |]; cbn; [| apply Hheap].
      destruct (decide (pc = pc0)) as [-> | Hne].
      * rewrite list_lookup_alter_eq.
        destruct (heap s !! pc0) as [c0 |] eqn:Hc0; cbn; [| done].
        intros [= <-]. cbn. by apply (Hheap pc0 c0).
      * rewrite list_lookup_alter_ne by done. apply Hheap.
  - apply all_sync_sync, preserves_fire. intros c [q | q] Hl; [| by intros s].
    intros s (Hs & Hc & Hopen).
    destruct (on_track_fields q streams s) as (Hh & _ & Ht & _). rewrite Hh.
    split; [| done]. by apply (addressed_frame P s).
  - apply all_sync_sync, preserves_fire. intros c [q | q] Hl; [by intros s |].
    intros s (Hs & Hc & Hopen).
    assert (P q) as Hq by (destruct Hs as [_ Hheap]; by apply (Hheap pc c _ Hc Hl)).
    destruct (on_icecandidate_fields q candidate s) as (Hh & _ & _ & [Ht | Ht]);
      rewrite Hh; (split; [| done]).
    + by apply (addressed_frame P s).
    + apply (addressed_frame P
               (set_trace (trace s ++
                  [Emitted (SignalTo (roomId s)
                     {| type := "candidate"; sdp := None;
                        candidate := candidate; to := Some q |})]) s)); [done | done |].
      apply addressed_log; [| done]. intros msg [= <-]. cbn.
      split; [by exists q | right; right; left].
Qed.

(** X22. When the peers the server names to the client, in its announces
    and as the senders of the envelopes it relays, have non-empty
    identifiers (as the identifiers of Socket.IO are), then whatever
    happens to the client and however its handlers interleave, every
    [signal] envelope it sends is an offer, an answer or a candidate
    whose [to] field holds one of these identifiers.  The field is
    truthy, so the server passes the envelope on with [io.to]: the client
    never asks the server to pass an envelope on to the whole room. *)
Theorem envelopes_are_directed (P : string → Prop) (steps : list Step)
    (room : option string) (data : SignalData) :
  (∀ p, P p → p ≠ "") → names_only P steps →
  SignalTo room data ∈ sent (client (run_steps steps start)) →
  type data ∈ ["offer"; "answer"; "candidate"]
  ∧ (∃ p, to data = Some p ∧ P p)
  ∧ truthy (to data) = true
  ∧ ∀ a socket roomId,
      Server.deliveries (Server.on_signal socket roomId data) a
      = (λ m, (m, Signal socket data))
          <$> SocketIO.room_members a (default "" (to data)).
Proof.
  intros HP Hsteps Hin.
  assert (addressed P (client (run_steps steps start))) as [Hall _].
  { apply (invariant_under_run_steps (addressed P) (named P)).
    - intros ev. apply addressed_handler.
    - intros s0 op b Hs0. apply addressed_log; [| done]. by intros ?.
    - exact Hsteps.
    - split; [constructor |]. intros pc c l. cbn. by rewrite lookup_nil.
    - constructor. }
  eapply Forall_forall in Hall; [| exact Hin].
  destruct Hall as [(p & Hto & Hp) Hty].
  assert (truthy (to data) = true) as Htruthy.
  { rewrite Hto. cbn. apply negb_true_iff, String.eqb_neq. by apply HP. }
  split_and!; [done | by exists p | done |].
  intros a socket roomId. unfold Server.deliveries.
  rewrite ServerSpec.on_signal_unfold. cbn [snd]. by rewrite Htruthy.
Qed.

Lemma envelopes_are_directed_witness :
  truthy (to {| type := "offer"; sdp := Some "v=0 o"; candidate := None;
                to := Some "B" |}) = true.
Proof.
  assert (names_only (λ p, p ≠ "") Wiring.called_B) as Hsteps
    by (repeat constructor; done).
  destruct (envelopes_are_directed (λ p, p ≠ "") Wiring.called_B (Some "r1")
              {| type := "offer"; sdp := Some "v=0 o"; candidate := None;
                 to := Some "B" |}) as (_ & _ & Htruthy & _).
  - done.
  - exact Hsteps.
  - vm_compute. right. left.
  - exact Htruthy.
Defined.

End CallFacts.

Module SystemFacts.
Import SocketIO Client ClientSpec Calls CallFacts Inbox.

(** *** An offer and its answer, through the server *)




(** *** The ICE servers, from the endpoint to the connections *)

(** X24. The ICE servers that [/ice.json] answers are appended to the
    client's list, and every connection created from then on is
    configured with them: with at least one server.  The connections that
    exist when the answer arrives are not touched; a response without a
    server list changes nothing. *)
Theorem ice_servers_reach_connections (env : Server.Env) (browser : Browser)
    (s : Client) (p : string) :
  peerConnections s !! p = None →
  let s1 := handle browser (IceConfig (Some (Server.ice_json env))) s in
  let pc := (createPeerConnection p s1).1 in
  let s2 := (createPeerConnection p s1).2 in
  iceServers s1 = iceServers s ++ Server.ice_json env
  ∧ heap s1 = heap s
  ∧ configuration <$> heap s2 !! pc = Some (iceServers s ++ Server.ice_json env)
  ∧ iceServers s ++ Server.ice_json env ≠ []
  ∧ configuration <$> heap (createPeerConnection p s).2 !! (createPeerConnection p s).1
    = Some (iceServers s)
  ∧ handle browser (IceConfig None) s = s.
Proof.
  intros Hp s1 pc s2.
  assert (s1 = set_iceServers (iceServers s ++ Server.ice_json env) s) as Hs1 by done.
  assert (peerConnections s1 !! p = None) as Hp1 by (by rewrite Hs1).
  split_and!.
  - by rewrite Hs1.
  - by rewrite Hs1.
  - unfold pc, s2. rewrite createPeerConnection_new by done. cbn [fst snd].
    rewrite Hs1. cbn. by rewrite lookup_app_r, Nat.sub_diag.
  - intros Hnil. apply app_eq_nil in Hnil as [_ Hnil].
    destruct env as [stun turn user pass]. unfold Server.ice_json in Hnil. cbn in Hnil.
    by destruct (truthy stun), (truthy turn && truthy user && truthy pass).
  - rewrite createPeerConnection_new by done. cbn.
    by rewrite lookup_app_r, Nat.sub_diag.
  - done.
Qed.

Lemma ice_servers_reach_connections_witness :
  let s1 := handle Scenario.fulfil_all
              (IceConfig (Some (Server.ice_json Scenario.stun_only))) init in
  configuration <$> heap (createPeerConnection "B" s1).2 !! 0
  = Some [ {| urls := UrlList ["stun:localhost:3478"];
              username := None; credential := None |} ].
Proof.
  intros s1.
  destruct (ice_servers_reach_connections Scenario.stun_only Scenario.fulfil_all
              init "B" eq_refl) as (_ & _ & Hconf & _).
  exact Hconf.
Defined.

(** *** A departure, from the server to the clients *)

Lemma peer_left_twice browser p s :
  handle browser (FromServer (PeerLeft p)) (handle browser (FromServer (PeerLeft p)) s)
  = handle browser (FromServer (PeerLeft p)) s.
Proof.
  unfold handle. cbn [handler]. rewrite !run_sync, !on_peer_left_unfold. cbn [snd].
  rewrite close_connection_idemp. unfold drop_video at 1.
  by rewrite remoteVideos_drop_video, lookup_delete_eq.
Qed.

Lemma handle_all_peer_left browser p n s :
  handle_all browser (replicate (S n) (FromServer (PeerLeft p))) s
  = handle browser (FromServer (PeerLeft p)) s.
Proof.
  revert s. induction n as [| n IH]; intros s; [done |].
  change (handle_all browser (replicate (S (S n)) (FromServer (PeerLeft p))) s)
    with (handle_all browser (replicate (S n) (FromServer (PeerLeft p)))
            (handle browser (FromServer (PeerLeft p)) s)).
  by rewrite IH, peer_left_twice.
Qed.

(** What one broadcast of [peer-left] puts in the inbox of [m]. *)
Lemma inbox_broadcast (c m : string) (P : string → Prop) `{!∀ x, Decision (P x)}
    (l : list string) :
  NoDup l →
  inbox m ((λ x, (x, PeerLeft c)) <$> filter P l)
  = if decide (m ∈ l ∧ P m) then [FromServer (PeerLeft c)] else [].
Proof.
  intros Hnd. unfold inbox.
  induction Hnd as [| x l Hx Hnd IHl].
  { rewrite decide_False; [done |]. intros [Hin _]. by apply elem_of_nil in Hin. }
  destruct (decide (P x)) as [Hpx | Hpx].
  - rewrite filter_cons_True by done. rewrite fmap_cons.
    destruct (decide (x = m)) as [-> | Hxm].
    + rewrite filter_cons_True by done. rewrite fmap_cons.
      rewrite decide_True by (split; [left | done]).
      rewrite decide_False in IHl by (intros [? _]; done).
      cbn. f_equal. exact IHl.
    + rewrite filter_cons_False by done. etrans; [exact IHl |].
      repeat case_decide; try done; exfalso; set_solver.
  - rewrite filter_cons_False by done. etrans; [exact IHl |].
    repeat case_decide; try done; exfalso; set_solver.
Qed.

Lemma inbox_app id (o1 o2 : list Delivery) :
  inbox id (o1 ++ o2) = inbox id o1 ++ inbox id o2.
Proof. unfold inbox. by rewrite filter_app, fmap_app. Qed.

Lemma inbox_notify (a : Adapter) (c m : string) (rs : list string) :
  Server.wf a →
  inbox m (rs ≫= λ r, (λ x, (x, PeerLeft c)) <$>
                        filter (λ x, x ∉ room_members a c) (room_members a r))
  = if decide (m ∈ room_members a c) then []
    else replicate (length (filter (λ r, m ∈ room_members a r) rs))
           (FromServer (PeerLeft c)).
Proof.
  intros Hwf. induction rs as [| r rs IH]; [by case_decide |].
  rewrite bind_cons, inbox_app, IH.
  rewrite inbox_broadcast by by apply ServerSpec.room_members_NoDup.
  destruct (decide (m ∈ room_members a c)) as [Hpriv | Hpriv].
  - by rewrite decide_False by (intros [_ ?]; done).
  - destruct (decide (m ∈ room_members a r)) as [Hin | Hout].
    + rewrite decide_True by done. by rewrite filter_cons_True.
    + rewrite decide_False by (intros [? _]; done). by rewrite filter_cons_False.
Qed.

(** The messages a disconnection sends, as one [peer-left] per shared
    room, to a socket outside the private room of the one that leaves. *)
Lemma inbox_disconnect (a : Adapter) (c m : string) :
  Server.wf a →
  inbox m (Server.deliveries (Server.disconnect c) a)
  = if decide (m ∈ room_members a c) then []
    else replicate (length (Server.shared_rooms a c m)) (FromServer (PeerLeft c)).
Proof.
  intros Hwf. unfold Server.deliveries.
  rewrite ServerSpec.disconnect_unfold. cbn [snd]. unfold Server.deliveries.
  rewrite ServerSpec.on_disconnecting_unfold. cbn [snd].
  by apply inbox_notify.
Qed.

(** X25. A disconnection, from the server to a client.  When B
    disconnects, a client A that shares a room with it and has not joined
    its private room is sent [peer-left(B)] once for each shared room and
    nothing else; having handled all of it, A has neither a connection nor
    a video of B, every other peer is as before, and nothing was sent.
    However many notices there were, A is in the state that one of them
    leaves.  A client that has joined the private room of B is sent
    nothing, and stays as it is. *)
Theorem departure_reaches_clients (a : Adapter) (A B : string) (sA : Client)
    (browser : Browser) :
  Server.wf a →
  let notices := inbox A (Server.deliveries (Server.disconnect B) a) in
  let sA' := handle_all browser notices sA in
  (A ∉ room_members a B → Server.shared_rooms a B A ≠ [] →
     notices = replicate (length (Server.shared_rooms a B A)) (FromServer (PeerLeft B))
     ∧ sA' = handle browser (FromServer (PeerLeft B)) sA
     ∧ peerConnections sA' !! B = None
     ∧ remoteVideos sA' !! B = None
     ∧ (∀ q, q ≠ B → peerConnections sA' !! q = peerConnections sA !! q
                     ∧ remoteVideos sA' !! q = remoteVideos sA !! q)
     ∧ sent sA' = sent sA)
  ∧ (A ∈ room_members a B → notices = [] ∧ sA' = sA).
Proof.
  intros Hwf notices sA'.
  pose proof (inbox_disconnect a B A Hwf) as Hinbox. fold notices in Hinbox.
  split.
  - intros Hpriv Hshared. rewrite decide_False in Hinbox by done.
    assert (sA' = handle browser (FromServer (PeerLeft B)) sA) as Hs'.
    { unfold sA'. rewrite Hinbox.
      destruct (Server.shared_rooms a B A) as [| r rs]; [done |].
      apply handle_all_peer_left. }
    assert (sA' = drop_video B (close_connection B sA)) as Hs''.
    { rewrite Hs'. unfold handle. cbn [handler].
      by rewrite run_sync, on_peer_left_unfold. }
    split_and!; [done | done | | | |].
    + rewrite Hs'', peerConnections_drop_video. unfold close_connection.
      destruct (peerConnections sA !! B) eqn:Hp; cbn;
        [by rewrite lookup_delete_eq | done].
    + by rewrite Hs'', remoteVideos_drop_video, lookup_delete_eq.
    + intros q Hq. split.
      * rewrite Hs'', peerConnections_drop_video. unfold close_connection.
        destruct (peerConnections sA !! B); cbn; [by rewrite lookup_delete_ne | done].
      * by rewrite Hs'', remoteVideos_drop_video, remoteVideos_close_connection,
          lookup_delete_ne.
    + by rewrite Hs'', NoMedia.sent_drop_video, NoMedia.sent_close_connection.
  - intros Hpriv. rewrite decide_True in Hinbox by done.
    split; [done |]. unfold sA'. by rewrite Hinbox.
Qed.

Lemma departure_reaches_clients_witness :
  let notices := inbox "A" (Server.deliveries (Server.disconnect "B")
                              Scenario.two_in_two_rooms) in
  notices = [FromServer (PeerLeft "B"); FromServer (PeerLeft "B")]
  ∧ peerConnections (handle_all Scenario.fulfil_all notices Scenario.client_A_called_B)
      !! "B" = None
  ∧ inbox "A" (Server.deliveries (Server.disconnect "B") Scenario.A_follows_B) = [].
Proof.
  intros notices.
  assert (Server.shared_rooms Scenario.two_in_two_rooms "B" "A" = ["r1"; "r2"])
    as Hshared by (vm_compute; reflexivity).
  assert ("A" ∉ room_members Scenario.two_in_two_rooms "B") as Hout.
  { vm_compute. intros Hin. apply list_elem_of_singleton in Hin. discriminate Hin. }
  assert ("A" ∈ room_members Scenario.A_follows_B "B") as Hin
    by (vm_compute; right; left).
  destruct (departure_reaches_clients Scenario.two_in_two_rooms "A" "B"
              Scenario.client_A_called_B Scenario.fulfil_all
              (ServerSpec.wf_state_after _)) as [Hnotified _].
  destruct (departure_reaches_clients Scenario.A_follows_B "A" "B"
              Scenario.client_A_called_B Scenario.fulfil_all
              (ServerSpec.wf_state_after _)) as [_ Hsilent].
  destruct Hnotified as (Hnotices & _ & Hgone & _); [exact Hout | by rewrite Hshared |].
  destruct (Hsilent Hin) as [Hnone _].
  split_and!; [| exact Hgone | exact Hnone].
  fold notices in Hnotices. rewrite Hnotices, Hshared. reflexivity.
Defined.

End SystemFacts.
